(** * crawler-bun: the URL frontier, the dedup stores and the crawl loop

    A shallow embedding of [src/index.ts].  JavaScript numbers that the
    program only uses as integers (priorities, depths, millisecond clock
    readings, counters) are [Z]; a JavaScript [Map] whose iteration order
    the program observes is an insertion-ordered association list, one
    that is only looked up by key is a [gmap]; a JavaScript [Set] is an
    insertion-ordered list without repetition. *)

From stdpp Require Import gmap strings list fin_maps sorting.
From Stdlib Require Import ZArith Lia Ascii.

Local Open Scope string_scope.
Local Open Scope Z_scope.
Local Open Scope list_scope.

(** ** Types and interfaces *)

Record CrawlConfig := mkConfig {
  maxPages : Z;
  maxDepth : Z;
  cfgPolitenessDelay : Z;
  timeout : Z;
  userAgent : string;
  respectRobots : bool
}.

Record URLInfo := mkURLInfo {
  url : string;
  priority : Z;
  depth : Z;
  host : string;
  timestamp : Z
}.

Record CrawlResult := mkResult {
  r_url : string;
  content : string;
  links : list string;
  statusCode : Z;
  contentType : string;
  hash : string
}.

(** ** Insertion-ordered maps and sets of JavaScript *)

(** [Map<K,V>]: [set] on a key that is present replaces the value where it
    stands, on a fresh key it appends an entry; [entries] and [values]
    enumerate in insertion order. *)
Module OrderedMap.
Section OrderedMap.
Context {K V : Type} `{EqDecision K}.

Definition t := list (K * V).

Definition empty : t := [].

Fixpoint get (k : K) (m : t) : option V :=
  match m with
  | [] => None
  | (k', v) :: m' => if decide (k' = k) then Some v else get k m'
  end.

Definition has (k : K) (m : t) : bool :=
  match get k m with Some _ => true | None => false end.

Fixpoint set (k : K) (v : V) (m : t) : t :=
  match m with
  | [] => [(k, v)]
  | (k', v') :: m' =>
      if decide (k' = k) then (k, v) :: m' else (k', v') :: set k v m'
  end.

Definition keys (m : t) : list K := map fst m.
Definition values (m : t) : list V := map snd m.
End OrderedMap.
Arguments t : clear implicits.
End OrderedMap.

(** [Set<string>]: [add] of a member changes nothing. *)
Module StringSet.
Definition t := list string.

Definition empty : t := [].

Definition has (x : string) (s : t) : bool := bool_decide (x ∈ s).

Definition add (x : string) (s : t) : t := if has x s then s else s ++ [x].

Definition size (s : t) : Z := Z.of_nat (List.length s).
End StringSet.

(** ** Priority queue for URL prioritization *)

Module PriorityQueue.
Record Element := mkElement { item : URLInfo; priority : Z }.

Definition t := list Element.

Definition empty : t := [].

(** The loop of [enqueue]: the element goes in front of the first one
    of strictly lower priority, and at the back when there is none. *)
Fixpoint insert (queueElement : Element) (items : t) : t :=
  match items with
  | [] => [queueElement]
  | x :: rest =>
      if priority x <? priority queueElement
      then queueElement :: x :: rest
      else x :: insert queueElement rest
  end.

Definition enqueue (it : URLInfo) (p : Z) (items : t) : t :=
  insert (mkElement it p) items.

Definition dequeue (items : t) : option URLInfo * t :=
  match items with
  | [] => (None, [])
  | x :: rest => (Some (item x), rest)
  end.

Definition isEmpty (items : t) : bool :=
  match items with [] => true | _ => false end.

Definition size (items : t) : Z := Z.of_nat (List.length items).
End PriorityQueue.

(** ** URL frontier with politeness and prioritization *)

Module URLFrontier.
(** [hostToQueue] of the class is never read or written and is left
    out. *)
Record t := mk {
  frontQueues : gmap Z PriorityQueue.t;
  backQueues : OrderedMap.t string (list URLInfo);
  lastAccessTime : gmap string Z;
  politenessDelay : Z
}.

(** The priority levels the constructor creates, 0 to 4. *)
Definition levels : list Z := [0; 1; 2; 3; 4].

Definition new (politenessDelay : Z) : t :=
  {| frontQueues :=
       foldl (fun m i => <[i := PriorityQueue.empty]> m) ∅ levels;
     backQueues := OrderedMap.empty;
     lastAccessTime := ∅;
     politenessDelay := politenessDelay |}.

(** [this.frontQueues.get(p)!]: the tier of level [p].  Every frontier
    built by [new] has the five levels (see [frontier_wf]), so the
    default is never taken on one. *)
Definition tier (f : t) (p : Z) : PriorityQueue.t :=
  default PriorityQueue.empty (frontQueues f !! p).

Definition set_tier (p : Z) (q : PriorityQueue.t) (f : t) : t :=
  {| frontQueues := <[p := q]> (frontQueues f);
     backQueues := backQueues f;
     lastAccessTime := lastAccessTime f;
     politenessDelay := politenessDelay f |}.

(** [frontQueues.get(urlInfo.priority) || frontQueues.get(0)!]: the
    level whose queue receives the URL. *)
Definition target_level (f : t) (urlInfo : URLInfo) : Z :=
  match frontQueues f !! priority urlInfo with
  | Some _ => priority urlInfo
  | None => 0
  end.

Definition addURL (urlInfo : URLInfo) (f : t) : t :=
  let k := target_level f urlInfo in
  set_tier k
    (PriorityQueue.enqueue urlInfo (priority urlInfo) (tier f k)) f.

(** [backQueues.get(host)!.push(urlInfo)], after the entry of a host
    seen for the first time is created. *)
Definition push_back (urlInfo : URLInfo) (f : t) : t :=
  let h := host urlInfo in
  let bq :=
    if OrderedMap.has h (backQueues f) then backQueues f
    else OrderedMap.set h [] (backQueues f) in
  {| frontQueues := frontQueues f;
     backQueues :=
       OrderedMap.set h (default [] (OrderedMap.get h bq) ++ [urlInfo]) bq;
     lastAccessTime := lastAccessTime f;
     politenessDelay := politenessDelay f |}.

(** [lastAccessTime.get(host) || 0]. *)
Definition lastAccess (lat : gmap string Z) (h : string) : Z :=
  default 0 (lat !! h).

Definition ready (now delay : Z) (lat : gmap string Z) (h : string) : bool :=
  delay <=? now - lastAccess lat h.

(** The loop of [getFromBackQueue] over the entries of [backQueues]:
    the URL shifted out of the first non-empty queue of a ready host,
    that host, and the entries after the shift. *)
Fixpoint scan (now delay : Z) (lat : gmap string Z)
    (entries : OrderedMap.t string (list URLInfo))
    : option (URLInfo * string * OrderedMap.t string (list URLInfo)) :=
  match entries with
  | [] => None
  | (h, queue) :: rest =>
      match queue with
      | urlInfo :: queue' =>
          if ready now delay lat h
          then Some (urlInfo, h, (h, queue') :: rest)
          else
            match scan now delay lat rest with
            | Some (u, h', rest') => Some (u, h', (h, queue) :: rest')
            | None => None
            end
      | [] =>
          match scan now delay lat rest with
          | Some (u, h', rest') => Some (u, h', (h, queue) :: rest')
          | None => None
          end
      end
  end.

(** [now] is the reading of [Date.now()]. *)
Definition getFromBackQueue (now : Z) (f : t) : option URLInfo * t :=
  match scan now (politenessDelay f) (lastAccessTime f) (backQueues f) with
  | Some (urlInfo, h, entries) =>
      (Some urlInfo,
       {| frontQueues := frontQueues f;
          backQueues := entries;
          lastAccessTime := <[h := now]> (lastAccessTime f);
          politenessDelay := politenessDelay f |})
  | None => (None, f)
  end.

(** The loop of [getNextURL] over the levels still to be looked at.
    A queue that is not empty always yields a URL ([queue.dequeue()!]);
    the branch for the other case is never taken. *)
Fixpoint getNextURL_from (ps : list Z) (now : Z) (f : t)
    : option URLInfo * t :=
  match ps with
  | [] => getFromBackQueue now f
  | p :: ps' =>
      let queue := tier f p in
      if PriorityQueue.isEmpty queue then getNextURL_from ps' now f
      else
        match PriorityQueue.dequeue queue with
        | (Some urlInfo, queue') =>
            getFromBackQueue now (push_back urlInfo (set_tier p queue' f))
        | (None, _) => getNextURL_from ps' now f
        end
  end.

Definition getNextURL (now : Z) (f : t) : option URLInfo * t :=
  getNextURL_from [4; 3; 2; 1; 0] now f.

Definition isEmpty (f : t) : bool :=
  forallb PriorityQueue.isEmpty (map snd (map_to_list (frontQueues f)))
  && forallb (fun q : list URLInfo => bool_decide (q = []))
       (OrderedMap.values (backQueues f)).
End URLFrontier.

(** ** Content storage *)

Module ContentStorage.
Record t := mk {
  storage : OrderedMap.t string CrawlResult;
  seenHashes : StringSet.t
}.

Definition new : t :=
  {| storage := OrderedMap.empty; seenHashes := StringSet.empty |}.

Definition isContentSeen (h : string) (s : t) : bool :=
  StringSet.has h (seenHashes s).

Definition store (result : CrawlResult) (s : t) : t :=
  {| storage := OrderedMap.set (r_url result) result (storage s);
     seenHashes := StringSet.add (hash result) (seenHashes s) |}.

Definition get (u : string) (s : t) : option CrawlResult :=
  OrderedMap.get u (storage s).

Definition getAllResults (s : t) : list CrawlResult :=
  OrderedMap.values (storage s).
End ContentStorage.

(** ** URL storage *)

Module URLStorage.
Record t := mk { visitedUrls : StringSet.t }.

Definition new : t := {| visitedUrls := StringSet.empty |}.

Definition isURLSeen (u : string) (s : t) : bool :=
  StringSet.has u (visitedUrls s).

Definition markAsVisited (u : string) (s : t) : t :=
  {| visitedUrls := StringSet.add u (visitedUrls s) |}.

Definition getVisitedCount (s : t) : Z := StringSet.size (visitedUrls s).
End URLStorage.

(** ** What the program takes from outside

    The WHATWG [URL] parser, the SHA-256 digest and the cheerio link
    extraction are library code; the development is parametric in them.
    [parseURL] is [new URL(s)], [None] when it throws. *)

Record URL := mkURL {
  protocol : string;
  hostname : string;
  pathname : string
}.

Record Library := mkLibrary {
  parseURL : string -> option URL;
  sha256 : string -> string;
  (** [ContentParser.parseHTML(html, baseUrl).links] *)
  parseHTML : string -> string -> list string
}.

(** ** URL filter *)

Module URLFilter.
Record t := mk {
  blacklistedDomains : StringSet.t;
  allowedExtensions : StringSet.t;
  maxUrlLength : Z
}.

Definition new : t :=
  {| blacklistedDomains :=
       StringSet.add "malicious.com" (StringSet.add "spam.com" StringSet.empty);
     allowedExtensions := [".html"; ".htm"; ".php"; ".asp"; ".jsp"];
     maxUrlLength := 2000 |}.

(** [toLowerCase] on the path of a parsed URL, which the parser leaves
    in ASCII (other characters are percent-encoded). *)
Definition lower (c : ascii) : ascii :=
  let n := nat_of_ascii c in
  if ((65 <=? n) && (n <=? 90))%nat then ascii_of_nat (n + 32) else c.

Fixpoint toLowerCase (s : string) : string :=
  match s with
  | EmptyString => EmptyString
  | String c s' => String (lower c) (toLowerCase s')
  end.

(** [s.substring(s.lastIndexOf("."))] when [s.includes(".")], [None]
    when it does not. *)
Fixpoint extension (s : string) : option string :=
  match s with
  | EmptyString => None
  | String c s' =>
      match extension s' with
      | Some e => Some e
      | None => if Ascii.eqb c "." then Some s else None
      end
  end.

Definition isValidURL (lib : Library) (flt : t) (u : string) : bool :=
  match parseURL lib u with
  | None => false
  | Some urlObj =>
      if maxUrlLength flt <? Z.of_nat (String.length u) then false
      else if StringSet.has (hostname urlObj) (blacklistedDomains flt)
      then false
      else
        match extension (toLowerCase (pathname urlObj)) with
        | Some ext =>
            if negb (StringSet.has ext (allowedExtensions flt)) then false
            else bool_decide (protocol urlObj ∈ ["http:"; "https:"])
        | None => bool_decide (protocol urlObj ∈ ["http:"; "https:"])
        end
  end.

Definition addBlacklistedDomain (domain : string) (flt : t) : t :=
  {| blacklistedDomains := StringSet.add domain (blacklistedDomains flt);
     allowedExtensions := allowedExtensions flt;
     maxUrlLength := maxUrlLength flt |}.
End URLFilter.

(** ** HTML downloader *)

Module HTMLDownloader.
(** A response of [fetch]. *)
Record Response := mkResponse {
  status : Z;
  body : string;
  contentTypeHeader : option string
}.

(** The answers of the network while one URL is downloaded:
    [canCrawl url userAgent] is the verdict of the robots handler,
    [resolveHost hostname] the address found ([None]: the resolution
    failed), [fetch url userAgent timeout] the response ([None]: the
    transfer failed or was aborted when the timeout ran out).  The
    caches of [RobotsHandler] and [DNSResolver] only decide which of
    these answers are asked of the network again; every answer is taken
    as it comes. *)
Record Network := mkNetwork {
  canCrawl : string -> string -> bool;
  resolveHost : string -> option string;
  fetch : string -> string -> Z -> option Response
}.

Inductive Error :=
| RobotsDisallows (u : string)
| InvalidURL (u : string)
| DNSResolutionFailed (hostname : string)
| TransferFailed (u : string)
| HTTPStatus (u : string) (status : Z).

Definition ok (r : Response) : bool :=
  (200 <=? status r) && (status r <=? 299).

Definition download (lib : Library) (net : Network)
    (timeout : Z) (userAgent : string)
    (u : string) (respectRobots : bool) : Error + CrawlResult :=
  if respectRobots && negb (canCrawl net u userAgent)
  then inl (RobotsDisallows u)
  else
    match parseURL lib u with
    | None => inl (InvalidURL u)
    | Some urlObj =>
        match resolveHost net (hostname urlObj) with
        | None => inl (DNSResolutionFailed (hostname urlObj))
        | Some _ =>
            match fetch net u userAgent timeout with
            | None => inl (TransferFailed u)
            | Some response =>
                if negb (ok response)
                then inl (HTTPStatus u (status response))
                else
                  inr {| r_url := u;
                         content := body response;
                         links := [];
                         statusCode := status response;
                         contentType :=
                           default "" (contentTypeHeader response);
                         hash := sha256 lib (body response) |}
            end
        end
    end.
End HTMLDownloader.

(** ** Main web crawler *)

Module WebCrawler.
Record t := mk {
  config : CrawlConfig;
  urlFrontier : URLFrontier.t;
  contentStorage : ContentStorage.t;
  urlStorage : URLStorage.t;
  urlFilter : URLFilter.t;
  crawledCount : Z
}.

Definition defaults : CrawlConfig :=
  {| maxPages := 1000; maxDepth := 5; cfgPolitenessDelay := 1000;
     timeout := 5000; userAgent := "WebCrawler/1.0";
     respectRobots := true |}.

(** The constructor, on the configuration already merged with
    [defaults]. *)
Definition new (cfg : CrawlConfig) : t :=
  {| config := cfg;
     urlFrontier := URLFrontier.new (cfgPolitenessDelay cfg);
     contentStorage := ContentStorage.new;
     urlStorage := URLStorage.new;
     urlFilter := URLFilter.new;
     crawledCount := 0 |}.

(** What one turn of the main loop reads from outside: the clock
    reading taken by [getFromBackQueue], the network during the
    download, and the clock readings stored in the [timestamp] of the
    URLs built from the links (by position of the link). *)
Record Event := mkEvent {
  now : Z;
  net : HTMLDownloader.Network;
  stamp : nat -> Z
}.

(** What one turn of the main loop did. *)
Inductive Outcome :=
| Waited
| Discarded (urlInfo : URLInfo)
| Failed (urlInfo : URLInfo) (error : HTMLDownloader.Error)
| Duplicate (urlInfo : URLInfo) (result : CrawlResult)
| Stored (urlInfo : URLInfo) (result : CrawlResult).

Section WithLibrary.
Variable lib : Library.

(** [new URL(u).hostname]; only evaluated on a URL that
    [isValidURL] accepted, which [parseURL] therefore parses. *)
Definition hostnameOf (u : string) : string :=
  match parseURL lib u with
  | Some urlObj => hostname urlObj
  | None => ""
  end.

Definition with_frontier (f : URLFrontier.t) (st : t) : t :=
  {| config := config st; urlFrontier := f;
     contentStorage := contentStorage st; urlStorage := urlStorage st;
     urlFilter := urlFilter st; crawledCount := crawledCount st |}.

Definition mark_visited (u : string) (st : t) : t :=
  {| config := config st; urlFrontier := urlFrontier st;
     contentStorage := contentStorage st;
     urlStorage := URLStorage.markAsVisited u (urlStorage st);
     urlFilter := urlFilter st; crawledCount := crawledCount st |}.

Definition seedInfo (stamp : Z) (u : string) : URLInfo :=
  {| url := u; priority := 4; depth := 0; host := hostnameOf u;
     timestamp := stamp |}.

(** The loop over [seedUrls]; [k] is the position of the next one. *)
Fixpoint addSeeds (stamps : nat -> Z) (k : nat) (seedUrls : list string)
    (st : t) : t :=
  match seedUrls with
  | [] => st
  | u :: rest =>
      addSeeds stamps (S k) rest
        (if URLFilter.isValidURL lib (urlFilter st) u
         then with_frontier
                (URLFrontier.addURL (seedInfo (stamps k) u)
                   (urlFrontier st)) st
         else st)
  end.

Definition newUrlInfo (parent : URLInfo) (stamp : Z) (link : string)
    : URLInfo :=
  {| url := link;
     priority := Z.max 0 (priority parent - 1);
     depth := depth parent + 1;
     host := hostnameOf link;
     timestamp := stamp |}.

(** The loop over [links]; [k] is the position of the next one. *)
Fixpoint addLinks (urlInfo : URLInfo) (stamps : nat -> Z) (k : nat)
    (links : list string) (st : t) : t :=
  match links with
  | [] => st
  | link :: rest =>
      addLinks urlInfo stamps (S k) rest
        (if URLFilter.isValidURL lib (urlFilter st) link
            && negb (URLStorage.isURLSeen link (urlStorage st))
         then with_frontier
                (URLFrontier.addURL (newUrlInfo urlInfo (stamps k) link)
                   (urlFrontier st)) st
         else st)
  end.

Definition with_links (ls : list string) (r : CrawlResult) : CrawlResult :=
  {| r_url := r_url r; content := content r; links := ls;
     statusCode := statusCode r; contentType := contentType r;
     hash := hash r |}.

Definition store_result (result : CrawlResult) (st : t) : t :=
  {| config := config st; urlFrontier := urlFrontier st;
     contentStorage := ContentStorage.store result (contentStorage st);
     urlStorage := urlStorage st;
     urlFilter := urlFilter st; crawledCount := crawledCount st |}.

Definition count_page (st : t) : t :=
  {| config := config st; urlFrontier := urlFrontier st;
     contentStorage := contentStorage st; urlStorage := urlStorage st;
     urlFilter := urlFilter st; crawledCount := crawledCount st + 1 |}.

(** The body of the main loop. *)
Definition iteration (ev : Event) (st : t) : Outcome * t :=
  match URLFrontier.getNextURL (now ev) (urlFrontier st) with
  | (None, f) => (Waited, with_frontier f st)
  | (Some urlInfo, f) =>
      let st := with_frontier f st in
      if URLStorage.isURLSeen (url urlInfo) (urlStorage st)
         || (maxDepth (config st) <? depth urlInfo)
      then (Discarded urlInfo, st)
      else
        match HTMLDownloader.download lib (net ev)
                (timeout (config st)) (userAgent (config st))
                (url urlInfo) (respectRobots (config st)) with
        | inl error => (Failed urlInfo error, mark_visited (url urlInfo) st)
        | inr result =>
            if ContentStorage.isContentSeen (hash result)
                 (contentStorage st)
            then (Duplicate urlInfo result,
                  mark_visited (url urlInfo) st)
            else
              let ls := parseHTML lib (content result) (url urlInfo) in
              let result := with_links ls result in
              (Stored urlInfo result,
               addLinks urlInfo (stamp ev) 0 ls
                 (count_page
                    (mark_visited (url urlInfo)
                       (store_result result st))))
        end
  end.

(** The condition of the main loop. *)
Definition running (st : t) : bool :=
  negb (URLFrontier.isEmpty (urlFrontier st))
  && (crawledCount st <? maxPages (config st)).

(** At most [fuel] turns of the main loop, the first of them reading
    [env i]: what the turns did and the state they leave. *)
Fixpoint loop (env : nat -> Event) (fuel : nat) (i : nat) (st : t)
    : list Outcome * t :=
  match fuel with
  | O => ([], st)
  | S fuel' =>
      if running st then
        let '(o, st') := iteration (env i) st in
        let '(os, st'') := loop env fuel' (S i) st' in
        (o :: os, st'')
      else ([], st)
  end.

(** [crawl(seedUrls)]: [None] when the loop is still running after
    [fuel] turns. *)
Definition crawl (seedStamps : nat -> Z) (env : nat -> Event)
    (fuel : nat) (seedUrls : list string) (st : t)
    : option (list CrawlResult) :=
  let '(_, st') := loop env fuel 0 (addSeeds seedStamps 0 seedUrls st) in
  if running st' then None
  else Some (ContentStorage.getAllResults (contentStorage st')).
End WithLibrary.
End WebCrawler.

(** ** DNS resolver with caching *)

Module DNSResolver.
Record t := mk { cache : gmap string string }.

Definition new : t := {| cache := ∅ |}.

(** [resolve hostname] is the answer of [dns.resolve4]: the first
    address and the others, [None] when the resolution fails (it never
    succeeds with no address).  The result is [None] when [resolveHost]
    throws. *)
Definition resolveHost (resolve : string -> option (string * list string))
    (hostname : string) (d : t) : option string * t :=
  match cache d !! hostname with
  | Some ip => (Some ip, d)
  | None =>
      match resolve hostname with
      | Some (ip, _) => (Some ip, {| cache := <[hostname := ip]> (cache d) |})
      | None => (None, d)
      end
  end.

Definition clearCache (d : t) : t := {| cache := ∅ |}.
End DNSResolver.

(** ** Robots.txt handler *)

Module RobotsHandler.
(** A parsed robots.txt, by the truth value of its
    [isAllowed(url, userAgent)]. *)
Definition Robots := string -> string -> bool.

(** The cache holds [null] ([None] here) for a host without a usable
    robots.txt. *)
Record t := mk { robotsCache : gmap string (option Robots) }.

Definition new : t := {| robotsCache := ∅ |}.

(** What the handler takes from outside: [hostOf urlObj] is
    [urlObj.host], the host name with the port when the URL names one;
    [fetchText u] is the outcome of [fetch(u)] and [response.text()]:
    [None] when either throws, otherwise [response.ok] and the text;
    [robotsParser] is the parser of the robots-parser package. *)
Record Web := mkWeb {
  hostOf : URL -> string;
  fetchText : string -> option (bool * string);
  robotsParser : string -> string -> Robots
}.

Definition robotsUrlOf (protocol host : string) : string :=
  String.append protocol
    (String.append "//" (String.append host "/robots.txt")).

(** The result is [None] when [canCrawl] throws ([new URL(url)] does). *)
Definition canCrawl (lib : Library) (web : Web) (u userAgent : string)
    (h : t) : option bool * t :=
  match parseURL lib u with
  | None => (None, h)
  | Some urlObj =>
      let robotsUrl := robotsUrlOf (protocol urlObj) (hostOf web urlObj) in
      let h' :=
        match robotsCache h !! hostOf web urlObj with
        | Some _ => h
        | None =>
            match fetchText web robotsUrl with
            | Some (true, robotsTxt) =>
                {| robotsCache :=
                     <[hostOf web urlObj :=
                         Some (robotsParser web robotsUrl robotsTxt)]>
                       (robotsCache h) |}
            | Some (false, _) | None =>
                {| robotsCache := <[hostOf web urlObj := None]> (robotsCache h) |}
            end
        end in
      (Some match robotsCache h' !! hostOf web urlObj with
            | Some (Some robots) => robots u userAgent
            | _ => true
            end,
       h')
  end.
End RobotsHandler.

(** ** Statistics of the crawler *)



(** * Specification *)

(** ** The state of a frontier *)

(** A queue whose priorities never increase from front to back. *)
Definition descending (q : PriorityQueue.t) : Prop :=
  StronglySorted
    (λ x y, PriorityQueue.priority y ≤ PriorityQueue.priority x) q.

(** The front queues are the five the constructor creates, each in
    descending order of priority. *)
Definition frontier_wf (f : URLFrontier.t) : Prop :=
  (∀ p : Z, is_Some (URLFrontier.frontQueues f !! p) ↔ 0 ≤ p ≤ 4)
  ∧ ∀ p : Z, descending (URLFrontier.tier f p).

(** The holding queues are those of a [Map]: one entry per host. *)
Definition hosts_wf (f : URLFrontier.t) : Prop :=
  NoDup (OrderedMap.keys (URLFrontier.backQueues f)).

(** The tier the specification names for a priority: the priority
    clamped to the range 0 to 4. *)
Definition spec_tier (p : Z) : Z := Z.max 0 (Z.min 4 p).

(** The tier the program uses: the priority when it is a level, level 0
    when it is not. *)
Definition code_tier (p : Z) : Z :=
  if bool_decide (0 ≤ p ≤ 4) then p else 0.

(** The URLs a frontier holds: those of the five tiers, highest level
    first, then those of the host holding queues. *)
Definition queued (f : URLFrontier.t) : list URLInfo :=
  flat_map (λ p, map PriorityQueue.item (URLFrontier.tier f p)) [4; 3; 2; 1; 0]
  ++ concat (OrderedMap.values (URLFrontier.backQueues f)).

(** The holding queue of a host, empty when the host has none. *)
Definition holding (f : URLFrontier.t) (h : string) : list URLInfo :=
  default [] (OrderedMap.get h (URLFrontier.backQueues f)).

(** A host is eligible in the words of the specification: its last
    dispatch time is absent, or at least the politeness delay in the
    past. *)
Definition spec_eligible (now : Z) (f : URLFrontier.t) (h : string) : Prop :=
  match URLFrontier.lastAccessTime f !! h with
  | None => True
  | Some t => URLFrontier.politenessDelay f ≤ now - t
  end.

(** A host is eligible for the program: its last dispatch time, read as
    0 when it is absent, is at least the politeness delay in the past. *)
Definition code_eligible (now : Z) (f : URLFrontier.t) (h : string) : Prop :=
  URLFrontier.politenessDelay f
  ≤ now - default 0 (URLFrontier.lastAccessTime f !! h).

(** No entry has both a non-empty queue and an eligible host. *)
Definition blocked (eligible : string → Prop)
    (entries : OrderedMap.t string (list URLInfo)) : Prop :=
  Forall (λ e, e.2 = [] ∨ ¬ eligible e.1) entries.

(** Step 1 of [dispatchNext]: nothing changes when every tier is empty;
    otherwise the front element of the highest non-empty tier leaves it
    and goes to the back of the holding queue of its host, a host seen
    for the first time coming last in the order of the hosts. *)
Definition promotion (f f1 : URLFrontier.t) : Prop :=
  ((∀ p, 0 ≤ p ≤ 4 → URLFrontier.tier f p = []) ∧ f1 = f)
  ∨ ∃ p e rest,
      0 ≤ p ≤ 4 ∧
      URLFrontier.tier f p = e :: rest ∧
      (∀ p', p < p' ≤ 4 → URLFrontier.tier f p' = []) ∧
      URLFrontier.frontQueues f1 = <[p := rest]> (URLFrontier.frontQueues f) ∧
      holding f1 (host (PriorityQueue.item e))
      = holding f (host (PriorityQueue.item e)) ++ [PriorityQueue.item e] ∧
      (∀ h, h ≠ host (PriorityQueue.item e) → holding f1 h = holding f h) ∧
      OrderedMap.keys (URLFrontier.backQueues f1)
      = OrderedMap.keys (URLFrontier.backQueues f)
        ++ (if OrderedMap.has (host (PriorityQueue.item e))
                 (URLFrontier.backQueues f)
            then [] else [host (PriorityQueue.item e)]) ∧
      URLFrontier.lastAccessTime f1 = URLFrontier.lastAccessTime f ∧
      URLFrontier.politenessDelay f1 = URLFrontier.politenessDelay f.

(** Steps 2 to 4 of [dispatchNext] on the frontier [f1] left by step 1:
    the front of the first non-empty holding queue of an eligible host,
    in the order of the hosts, is removed and returned and the time of
    that host is set to [now]; when there is none, nothing is returned
    and nothing changes. *)
Definition selection (eligible : string → Prop) (now : Z)
    (f1 : URLFrontier.t) (res : option URLInfo * URLFrontier.t) : Prop :=
  (∃ pre h u q post,
      URLFrontier.backQueues f1 = pre ++ (h, u :: q) :: post ∧
      blocked eligible pre ∧
      eligible h ∧
      res = (Some u,
             {| URLFrontier.frontQueues := URLFrontier.frontQueues f1;
                URLFrontier.backQueues := pre ++ (h, q) :: post;
                URLFrontier.lastAccessTime :=
                  <[h := now]> (URLFrontier.lastAccessTime f1);
                URLFrontier.politenessDelay :=
                  URLFrontier.politenessDelay f1 |}))
  ∨ (blocked eligible (URLFrontier.backQueues f1) ∧ res = (None, f1)).

(** [dispatchNext] as the specification describes it, for a notion of
    eligible host: step 1, then steps 2 to 4, and no URL lost when none
    is returned. *)
Definition dispatchNext_spec
    (eligible : Z → URLFrontier.t → string → Prop)
    (now : Z) (f : URLFrontier.t)
    (res : option URLInfo * URLFrontier.t) : Prop :=
  ∃ f1,
    promotion f f1 ∧
    selection (eligible now f1) now f1 res ∧
    (res.1 = None → queued res.2 ≡ₚ queued f).

(** A URL of priority 5, outside the levels. *)
Definition c3_url : URLInfo :=
  {| url := "http://a.com/"; priority := 5; depth := 0; host := "a.com";
     timestamp := 0 |}.

(** The sentence of the specification on [enqueue]: the URL is in the
    tier of its clamped priority afterwards. *)
Definition enqueue_as_specified (f : URLFrontier.t) (u : URLInfo) : Prop :=
  PriorityQueue.mkElement u (priority u)
  ∈ URLFrontier.tier (URLFrontier.addURL u f) (spec_tier (priority u)).

(** A frontier with a politeness delay longer than the time since the
    epoch, holding one URL of a host never dispatched to. *)
Definition c1_now : Z := 1793000000000.

Definition c1_url : URLInfo :=
  {| url := "http://a.com/"; priority := 4; depth := 0; host := "a.com";
     timestamp := c1_now |}.

Definition c1_frontier : URLFrontier.t :=
  URLFrontier.addURL c1_url (URLFrontier.new 2000000000000).

(** Every URL of a holding queue is of the host of that queue. *)
Definition hosts_ok (f : URLFrontier.t) : Prop :=
  Forall (λ e : string * list URLInfo, Forall (λ u, host u = e.1) e.2)
    (URLFrontier.backQueues f).

(** ** Runs of a frontier *)

(** The calls a client makes on a frontier; [now] is what the clock reads
    during the call of [getNextURL]. *)
Inductive Call :=
| AddURL (urlInfo : URLInfo)
| GetNextURL (now : Z).

(** One call, on the dispatches so far (the time and the URL of each, in
    the order they were made) and the frontier. *)
Definition call (s : list (Z * URLInfo) * URLFrontier.t) (c : Call)
    : list (Z * URLInfo) * URLFrontier.t :=
  match c with
  | AddURL urlInfo => (s.1, URLFrontier.addURL urlInfo s.2)
  | GetNextURL now =>
      match URLFrontier.getNextURL now s.2 with
      | (Some urlInfo, f) => (s.1 ++ [(now, urlInfo)], f)
      | (None, f) => (s.1, f)
      end
  end.

Definition calls (cs : list Call) (f : URLFrontier.t)
    : list (Z * URLInfo) * URLFrontier.t :=
  foldl call ([], f) cs.

(** The time of the last dispatch to a host. *)
Fixpoint last_time (h : string) (log : list (Z * URLInfo)) : option Z :=
  match log with
  | [] => None
  | (t, u) :: log' =>
      match last_time h log' with
      | Some t' => Some t'
      | None => if decide (host u = h) then Some t else None
      end
  end.

(** Two dispatches to one host with none to that host in between are at
    least [delay] apart. *)
Definition polite (delay : Z) (log : list (Z * URLInfo)) : Prop :=
  ∀ l1 t1 u1 mid t2 u2 l3,
    log = l1 ++ (t1, u1) :: mid ++ (t2, u2) :: l3 →
    host u1 = host u2 →
    Forall (λ d : Z * URLInfo, host d.2 ≠ host u1) mid →
    delay ≤ t2 - t1.

(** Two URLs of one host, and a run in which the second is asked for
    too early once. *)
Definition c2_first : URLInfo :=
  {| url := "http://a.com/"; priority := 4; depth := 0; host := "a.com";
     timestamp := 1000 |}.

Definition c2_second : URLInfo :=
  {| url := "http://a.com/b.html"; priority := 3; depth := 1;
     host := "a.com"; timestamp := 2100 |}.

Definition c2_calls : list Call :=
  [AddURL c2_first; GetNextURL 2000; AddURL c2_second; GetNextURL 2500;
   GetNextURL 3000].

(** ** Runs of the crawler *)

Definition visited (st : WebCrawler.t) : StringSet.t :=
  URLStorage.visitedUrls (WebCrawler.urlStorage st).

Definition results (st : WebCrawler.t) : list CrawlResult :=
  ContentStorage.getAllResults (WebCrawler.contentStorage st).

(** The URL [getNextURL] returned in a turn of the main loop. *)
Definition dispatched (o : WebCrawler.Outcome) : option URLInfo :=
  match o with
  | WebCrawler.Waited => None
  | WebCrawler.Discarded u | WebCrawler.Failed u _
  | WebCrawler.Duplicate u _ | WebCrawler.Stored u _ => Some u
  end.

(** The URL the downloader was called on in a turn of the main loop. *)
Definition fetched (o : WebCrawler.Outcome) : option URLInfo :=
  match o with
  | WebCrawler.Waited | WebCrawler.Discarded _ => None
  | WebCrawler.Failed u _ | WebCrawler.Duplicate u _
  | WebCrawler.Stored u _ => Some u
  end.

Definition fetched_urls (os : list WebCrawler.Outcome) : list string :=
  omap (λ o, url <$> fetched o) os.

Definition is_stored (o : WebCrawler.Outcome) : bool :=
  match o with WebCrawler.Stored _ _ => true | _ => false end.

(** One turn of the main loop as a step relation: what the turn did and
    the state it leaves. *)
Inductive turn (lib : Library) (ev : WebCrawler.Event) (st : WebCrawler.t)
    : WebCrawler.Outcome → WebCrawler.t → Prop :=
| turn_wait f1 :
    URLFrontier.getNextURL (WebCrawler.now ev) (WebCrawler.urlFrontier st)
    = (None, f1) →
    turn lib ev st WebCrawler.Waited (WebCrawler.with_frontier f1 st)
| turn_discard u f1 :
    URLFrontier.getNextURL (WebCrawler.now ev) (WebCrawler.urlFrontier st)
    = (Some u, f1) →
    url u ∈ visited st ∨ maxDepth (WebCrawler.config st) < depth u →
    turn lib ev st (WebCrawler.Discarded u) (WebCrawler.with_frontier f1 st)
| turn_fail u f1 e :
    URLFrontier.getNextURL (WebCrawler.now ev) (WebCrawler.urlFrontier st)
    = (Some u, f1) →
    url u ∉ visited st →
    depth u ≤ maxDepth (WebCrawler.config st) →
    HTMLDownloader.download lib (WebCrawler.net ev)
      (timeout (WebCrawler.config st)) (userAgent (WebCrawler.config st))
      (url u) (respectRobots (WebCrawler.config st)) = inl e →
    turn lib ev st (WebCrawler.Failed u e)
      (WebCrawler.mark_visited (url u) (WebCrawler.with_frontier f1 st))
| turn_duplicate u f1 r :
    URLFrontier.getNextURL (WebCrawler.now ev) (WebCrawler.urlFrontier st)
    = (Some u, f1) →
    url u ∉ visited st →
    depth u ≤ maxDepth (WebCrawler.config st) →
    HTMLDownloader.download lib (WebCrawler.net ev)
      (timeout (WebCrawler.config st)) (userAgent (WebCrawler.config st))
      (url u) (respectRobots (WebCrawler.config st)) = inr r →
    hash r ∈ ContentStorage.seenHashes (WebCrawler.contentStorage st) →
    turn lib ev st (WebCrawler.Duplicate u r)
      (WebCrawler.mark_visited (url u) (WebCrawler.with_frontier f1 st))
| turn_store u f1 r :
    URLFrontier.getNextURL (WebCrawler.now ev) (WebCrawler.urlFrontier st)
    = (Some u, f1) →
    url u ∉ visited st →
    depth u ≤ maxDepth (WebCrawler.config st) →
    HTMLDownloader.download lib (WebCrawler.net ev)
      (timeout (WebCrawler.config st)) (userAgent (WebCrawler.config st))
      (url u) (respectRobots (WebCrawler.config st)) = inr r →
    hash r ∉ ContentStorage.seenHashes (WebCrawler.contentStorage st) →
    let ls := parseHTML lib (content r) (url u) in
    turn lib ev st (WebCrawler.Stored u (WebCrawler.with_links ls r))
      (WebCrawler.addLinks lib u (WebCrawler.stamp ev) 0 ls
         (WebCrawler.count_page
            (WebCrawler.mark_visited (url u)
               (WebCrawler.store_result (WebCrawler.with_links ls r)
                  (WebCrawler.with_frontier f1 st))))).

(** The result store is that of a [Map] keyed by the URL of the record. *)
Definition storage_ok (cs : ContentStorage.t) : Prop :=
  NoDup (OrderedMap.keys (ContentStorage.storage cs))
  ∧ Forall (λ e : string * CrawlResult, r_url e.2 = e.1)
      (ContentStorage.storage cs).

(** The records stored have different fingerprints, all of them seen. *)
Definition hashes_ok (cs : ContentStorage.t) : Prop :=
  NoDup (map hash (ContentStorage.getAllResults cs))
  ∧ ∀ r, r ∈ ContentStorage.getAllResults cs →
         hash r ∈ ContentStorage.seenHashes cs.

(** What holds of the state of a crawler throughout a run. *)
Definition crawler_ok (st : WebCrawler.t) : Prop :=
  frontier_wf (WebCrawler.urlFrontier st)
  ∧ hosts_wf (WebCrawler.urlFrontier st)
  ∧ NoDup (visited st)
  ∧ storage_ok (WebCrawler.contentStorage st)
  ∧ hashes_ok (WebCrawler.contentStorage st).

(** A run of [crawl]: the seeds are added to a new crawler and the main
    loop makes at most [n] turns. *)
Definition run (lib : Library) (cfg : CrawlConfig) (seedStamps : nat → Z)
    (env : nat → WebCrawler.Event) (seedUrls : list string) (n : nat)
    : list WebCrawler.Outcome * WebCrawler.t :=
  WebCrawler.loop lib env n 0
    (WebCrawler.addSeeds lib seedStamps 0 seedUrls (WebCrawler.new cfg)).

(** The store after the records [rs] were stored, first to last. *)
Definition stores (rs : list CrawlResult) : ContentStorage.t :=
  foldl (λ cs r, ContentStorage.store r cs) ContentStorage.new rs.

(** ** A small web to run the crawler on

    Three pages: [http://a.com/] links to [http://a.com/b.html], which
    has no links; [http://b.org/] has the same body as [http://a.com/];
    [http://c.net/] does not answer.  The clock advances by one second
    per turn of the main loop.  The parser knows the URLs of this web
    and three more that the filter turns down. *)

Definition demo_parseURL (s : string) : option URL :=
  if decide (s = "http://a.com/") then Some (mkURL "http:" "a.com" "/")
  else if decide (s = "http://a.com/b.html")
  then Some (mkURL "http:" "a.com" "/b.html")
  else if decide (s = "http://b.org/") then Some (mkURL "http:" "b.org" "/")
  else if decide (s = "http://c.net/") then Some (mkURL "http:" "c.net" "/")
  else if decide (s = "http://spam.com/")
  then Some (mkURL "http:" "spam.com" "/")
  else if decide (s = "http://a.com/Paper.PDF")
  then Some (mkURL "http:" "a.com" "/Paper.PDF")
  else if decide (s = "ftp://a.com/") then Some (mkURL "ftp:" "a.com" "/")
  else None.

Definition demo_lib : Library :=
  {| parseURL := demo_parseURL;
     sha256 := λ body, String.append "sha256:" body;
     parseHTML := λ html baseUrl,
       if decide (html = "<a href=b.html>") then ["http://a.com/b.html"]
       else [] |}.

Definition demo_net : HTMLDownloader.Network :=
  {| HTMLDownloader.canCrawl := λ _ _, true;
     HTMLDownloader.resolveHost := λ _, Some "192.0.2.1";
     HTMLDownloader.fetch := λ u _ _,
       if decide (u = "http://a.com/")
       then Some (HTMLDownloader.mkResponse 200 "<a href=b.html>"
                    (Some "text/html"))
       else if decide (u = "http://a.com/b.html")
       then Some (HTMLDownloader.mkResponse 200 "<p>b</p>" (Some "text/html"))
       else if decide (u = "http://b.org/")
       then Some (HTMLDownloader.mkResponse 200 "<a href=b.html>" None)
       else None |}.

Definition demo_start : Z := 1793000000000.

Definition demo_env (i : nat) : WebCrawler.Event :=
  {| WebCrawler.now := demo_start + 1000 * Z.of_nat i;
     WebCrawler.net := demo_net;
     WebCrawler.stamp := λ _, demo_start + 1000 * Z.of_nat i |}.

Definition demo_stamps (k : nat) : Z := demo_start.

(** The default configuration with a depth limit of 0. *)
Definition shallow : CrawlConfig :=
  {| maxPages := 1000; maxDepth := 0; cfgPolitenessDelay := 1000;
     timeout := 5000; userAgent := "WebCrawler/1.0";
     respectRobots := true |}.

(** The seed [http://a.com/] as the crawler enqueues it. *)
Definition demo_seed : URLInfo :=
  {| url := "http://a.com/"; priority := 4; depth := 0; host := "a.com";
     timestamp := demo_start |}.

(** The link to [http://a.com/b.html] as the crawler enqueues it when it
    has stored [http://a.com/] in turn 0. *)
Definition demo_link : URLInfo :=
  {| url := "http://a.com/b.html"; priority := 3; depth := 1;
     host := "a.com"; timestamp := demo_start |}.

(** The sentence of the specification on the visited set: the URL that
    [dispatchNext] returns in a turn is in the visited set when the turn
    ends. *)
Definition visited_after_turn (lib : Library) (ev : WebCrawler.Event)
    (st : WebCrawler.t) : Prop :=
  ∀ u, dispatched (WebCrawler.iteration lib ev st).1 = Some u →
       url u ∈ visited (WebCrawler.iteration lib ev st).2.

(** The state after the first turn of a crawl of [http://a.com/] with a
    depth limit of 0. *)
Definition c4_state : WebCrawler.t :=
  (run demo_lib shallow demo_stamps demo_env ["http://a.com/"] 1).2.

(** The sentence of the specification on duplicate dispatch: the URL that
    [dispatchNext] returns in a turn is not in the visited set when it is
    returned. *)
Definition never_dispatches_visited (lib : Library) (ev : WebCrawler.Event)
    (st : WebCrawler.t) : Prop :=
  ∀ u, dispatched (WebCrawler.iteration lib ev st).1 = Some u →
       url u ∉ visited st.

(** The state after the first turn of a crawl whose seeds name
    [http://a.com/] twice. *)
Definition c5_state : WebCrawler.t :=
  (run demo_lib WebCrawler.defaults demo_stamps demo_env
     ["http://a.com/"; "http://a.com/"] 1).2.

(** The record of [http://a.com/] as the crawler stores it. *)
Definition demo_record : CrawlResult :=
  {| r_url := "http://a.com/"; content := "<a href=b.html>";
     links := ["http://a.com/b.html"]; statusCode := 200;
     contentType := "text/html"; hash := "sha256:<a href=b.html>" |}.

(** The default configuration with a budget of one page. *)
Definition one_page : CrawlConfig :=
  {| maxPages := 1; maxDepth := 5; cfgPolitenessDelay := 1000;
     timeout := 5000; userAgent := "WebCrawler/1.0";
     respectRobots := true |}.

(** The seed [http://b.org/] as the crawler enqueues it, and what the
    downloader returns for it. *)
Definition demo_seed_b : URLInfo :=
  {| url := "http://b.org/"; priority := 4; depth := 0; host := "b.org";
     timestamp := demo_start |}.

Definition demo_record_b : CrawlResult :=
  {| r_url := "http://b.org/"; content := "<a href=b.html>"; links := [];
     statusCode := 200; contentType := "";
     hash := "sha256:<a href=b.html>" |}.

(** The state after the first turn of a crawl of [http://a.com/] and
    [http://b.org/]. *)
Definition c8_state : WebCrawler.t :=
  (run demo_lib WebCrawler.defaults demo_stamps demo_env
     ["http://a.com/"; "http://b.org/"] 1).2.

(** A later record of [http://a.com/]. *)
Definition demo_record_later : CrawlResult :=
  {| r_url := "http://a.com/"; content := "<p>a</p>"; links := [];
     statusCode := 200; contentType := "text/html";
     hash := "sha256:<p>a</p>" |}.

(** ** Termination of the main loop *)

(** The clock passes every time sooner or later. *)
Definition clock_advances (env : nat → WebCrawler.Event) : Prop :=
  ∀ (T : Z) (i : nat), ∃ j, (i ≤ j)%nat ∧ T ≤ WebCrawler.now (env j).

(** The number of URLs in the frontier, and the number of pages that may
    still be stored. *)
Definition size (st : WebCrawler.t) : nat :=
  length (queued (WebCrawler.urlFrontier st)).

Definition budget (st : WebCrawler.t) : nat :=
  Z.to_nat (maxPages (WebCrawler.config st) - WebCrawler.crawledCount st).

(** What makes a download fail: the robots handler disallows the URL
    while robots are respected, the host does not resolve, the transfer
    fails or runs out of time, or the status is not one of 200 to 299. *)
Definition download_fails (lib : Library) (net : HTMLDownloader.Network)
    (cfg : CrawlConfig) (u : string) : Prop :=
  (respectRobots cfg = true
   ∧ HTMLDownloader.canCrawl net u (userAgent cfg) = false)
  ∨ (∃ urlObj, parseURL lib u = Some urlObj
               ∧ HTMLDownloader.resolveHost net (hostname urlObj) = None)
  ∨ HTMLDownloader.fetch net u (userAgent cfg) (timeout cfg) = None
  ∨ (∃ response,
       HTMLDownloader.fetch net u (userAgent cfg) (timeout cfg)
       = Some response
       ∧ ¬ (200 ≤ HTMLDownloader.status response ≤ 299)).

(** The seed [http://c.net/] as the crawler enqueues it. *)
Definition demo_seed_c : URLInfo :=
  {| url := "http://c.net/"; priority := 4; depth := 0; host := "c.net";
     timestamp := demo_start |}.

(** The state of a crawl of [http://c.net/] before the first turn. *)
Definition c9_state : WebCrawler.t :=
  (run demo_lib WebCrawler.defaults demo_stamps demo_env ["http://c.net/"] 0).2.

(** ** Runs of a priority queue *)

Inductive QueueOp :=
| Enqueue (it : URLInfo) (p : Z)
| Dequeue.

Definition queue_op (q : PriorityQueue.t) (o : QueueOp) : PriorityQueue.t :=
  match o with
  | Enqueue it p => PriorityQueue.enqueue it p q
  | Dequeue => (PriorityQueue.dequeue q).2
  end.

(** The queue after the operations [os] on a new queue. *)
Definition queue_ops (os : list QueueOp) : PriorityQueue.t :=
  foldl queue_op PriorityQueue.empty os.

(** The queue after the items [xs] were enqueued, first to last, on a new
    queue. *)
Definition enqueue_all (xs : list (URLInfo * Z))
    : list PriorityQueue.Element :=
  foldl (λ q x, PriorityQueue.enqueue x.1 x.2 q) PriorityQueue.empty xs.

(** The URLs a sequence of calls adds to a frontier. *)
Definition added (cs : list Call) : list URLInfo :=
  omap (λ c, match c with AddURL u => Some u | GetNextURL _ => None end) cs.

(** The URL store after the URLs [us] were marked, first to last. *)
Definition marks (us : list string) : URLStorage.t :=
  foldl (λ s u, URLStorage.markAsVisited u s) URLStorage.new us.

(** The character [c] occurs in the string [s]. *)
Fixpoint occurs (c : ascii) (s : string) : bool :=
  match s with
  | EmptyString => false
  | String c' s' => Ascii.eqb c' c || occurs c s'
  end.

(** A parser for one URL, whose path has a dot in a directory name
    only. *)
Definition dotted_lib : Library :=
  {| parseURL := λ s,
       if decide (s = "http://a.com/v1.2/page")
       then Some (mkURL "http:" "a.com" "/v1.2/page") else None;
     sha256 := λ body, body;
     parseHTML := λ _ _, [] |}.

(** A web in which [a.com] has a robots.txt whose rules disallow
    [http://a.com/b.html], and the robots.txt of the other hosts is not
    found; and a web in which every host has rules that disallow
    everything. *)
Definition demo_web : RobotsHandler.Web :=
  {| RobotsHandler.hostOf := hostname;
     RobotsHandler.fetchText := λ u,
       if decide (u = "http://a.com/robots.txt")
       then Some (true, "Disallow: /b.html")
       else Some (false, "Not Found");
     RobotsHandler.robotsParser := λ _ _ u _,
       negb (bool_decide (u = "http://a.com/b.html")) |}.

Definition closed_web : RobotsHandler.Web :=
  {| RobotsHandler.hostOf := hostname;
     RobotsHandler.fetchText := λ _, Some (true, "Disallow: /");
     RobotsHandler.robotsParser := λ _ _ _ _, false |}.

(** What holds of the URLs the crawler enqueues: the depth is not
    negative, the priority is 4 less the depth and at least 0, the host
    is that of the URL, and the URL passes the filter. *)
Definition enqueued_ok (lib : Library) (u : URLInfo) : Prop :=
  0 ≤ depth u ∧
  priority u = Z.max 0 (4 - depth u) ∧
  host u = WebCrawler.hostnameOf lib (url u) ∧
  URLFilter.isValidURL lib URLFilter.new (url u) = true.

(** The records the turns of a run stored, first to last. *)
Definition stored_records (os : list WebCrawler.Outcome) : list CrawlResult :=
  omap (λ o, match o with WebCrawler.Stored _ r => Some r | _ => None end) os.

(** What holds of a record the crawler stores for the URL [u]. *)
Definition record_ok (lib : Library) (r : CrawlResult) : Prop :=
  200 ≤ statusCode r ≤ 299 ∧
  hash r = sha256 lib (content r) ∧
  links r = parseHTML lib (content r) (r_url r).

(** * Proofs *)

(** ** The URL filter at work *)

Example extension_last_dot :
  URLFilter.extension (URLFilter.toLowerCase "/docs/v1.2/Paper.PDF")
  = Some ".pdf".
Proof. reflexivity. Qed.

Example isValidURL_page :
  URLFilter.isValidURL demo_lib URLFilter.new "http://a.com/b.html" = true.
Proof. reflexivity. Qed.

Example isValidURL_rejects :
  map (URLFilter.isValidURL demo_lib URLFilter.new)
    ["not a url"; "http://spam.com/"; "http://a.com/Paper.PDF"; "ftp://a.com/"]
  = [false; false; false; false].
Proof. reflexivity. Qed.

Lemma isValidURL_parses (lib : Library) (flt : URLFilter.t) (u : string) :
  URLFilter.isValidURL lib flt u = true → is_Some (parseURL lib u).
Proof.
  unfold URLFilter.isValidURL. by destruct (parseURL lib u).
Qed.

(** ** The priority queue *)

Lemma insert_split (e : PriorityQueue.Element) (items : PriorityQueue.t) :
  descending items →
  descending (PriorityQueue.insert e items) ∧
  ∃ l1 l2,
    items = l1 ++ l2 ∧
    PriorityQueue.insert e items = l1 ++ e :: l2 ∧
    Forall (λ x, PriorityQueue.priority e ≤ PriorityQueue.priority x) l1 ∧
    Forall (λ x, PriorityQueue.priority x < PriorityQueue.priority e) l2.
Proof.
  unfold descending.
  induction items as [|x rest IH]; cbn [PriorityQueue.insert]; intros Hs.
  - split; [repeat constructor|]. by exists [], [].
  - apply StronglySorted_inv in Hs as [Hrest Hx].
    destruct (Z.ltb_spec (PriorityQueue.priority x) (PriorityQueue.priority e)).
    + assert (Forall (λ y, PriorityQueue.priority y < PriorityQueue.priority e)
                (x :: rest)) as Hlow.
      { constructor; [done|]. eapply Forall_impl; [exact Hx|]. simpl. lia. }
      split.
      * constructor; [by constructor|].
        eapply Forall_impl; [exact Hlow|]. simpl. lia.
      * by exists [], (x :: rest).
    + destruct (IH Hrest) as (Hs' & l1 & l2 & Hsplit & Hins & Hl1 & Hl2).
      split.
      * constructor; [done|]. rewrite Hins. rewrite Hsplit in Hx.
        apply Forall_app in Hx as [Hx1 Hx2].
        apply Forall_app. split; [done|]. by constructor.
      * exists (x :: l1), l2. rewrite Hins, Hsplit.
        repeat split; auto.
Qed.

Lemma descending_tail (x : PriorityQueue.Element) (q : PriorityQueue.t) :
  descending (x :: q) → descending q.
Proof. intros H. by apply StronglySorted_inv in H as [? _]. Qed.

(** ** Well-formed frontiers *)

Lemma wf_new (delay : Z) : frontier_wf (URLFrontier.new delay).
Proof.
  split.
  - intros p. cbn. rewrite !lookup_insert_is_Some, lookup_empty.
    split.
    + intros H. repeat (destruct H as [<-|[_ H]]; [lia|]).
      by apply is_Some_None in H.
    + intros H.
      destruct (decide (4 = p)); [by left|right; split; [done|]].
      destruct (decide (3 = p)); [by left|right; split; [done|]].
      destruct (decide (2 = p)); [by left|right; split; [done|]].
      destruct (decide (1 = p)); [by left|right; split; [done|]].
      destruct (decide (0 = p)); [by left|lia].
  - intros p. unfold URLFrontier.tier. cbn.
    rewrite !lookup_insert, lookup_empty.
    repeat case_decide; simpl; constructor.
Qed.

Lemma tier_set_tier (f : URLFrontier.t) (p p' : Z) (q : PriorityQueue.t) :
  URLFrontier.tier (URLFrontier.set_tier p q f) p'
  = if decide (p = p') then q else URLFrontier.tier f p'.
Proof.
  unfold URLFrontier.tier, URLFrontier.set_tier; simpl.
  rewrite lookup_insert. by destruct (decide (p = p')).
Qed.

Lemma wf_set_tier (f : URLFrontier.t) (p : Z) (q : PriorityQueue.t) :
  0 ≤ p ≤ 4 → descending q → frontier_wf f →
  frontier_wf (URLFrontier.set_tier p q f).
Proof.
  intros Hp Hq [Hwf Hdesc]. split.
  - intros p'. simpl. rewrite lookup_insert_is_Some.
    rewrite (Hwf p'). split; [intros [->|[_ H]]|]; auto.
    destruct (decide (p = p')); auto.
  - intros p'. rewrite tier_set_tier. by case_decide.
Qed.

Lemma target_level_wf (f : URLFrontier.t) (u : URLInfo) :
  frontier_wf f → URLFrontier.target_level f u = code_tier (priority u).
Proof.
  intros [Hwf _]. unfold URLFrontier.target_level, code_tier.
  specialize (Hwf (priority u)).
  destruct (URLFrontier.frontQueues f !! priority u) eqn:E.
  - rewrite bool_decide_eq_true_2; [done|]. apply Hwf. by eexists.
  - rewrite bool_decide_eq_false_2; [done|].
    intros H. apply Hwf in H. by destruct H.
Qed.

Lemma code_tier_level (p : Z) : 0 ≤ code_tier p ≤ 4.
Proof. unfold code_tier. case_bool_decide; lia. Qed.

Lemma wf_addURL (f : URLFrontier.t) (u : URLInfo) :
  frontier_wf f → frontier_wf (URLFrontier.addURL u f).
Proof.
  intros Hwf. unfold URLFrontier.addURL.
  apply wf_set_tier; [| |done].
  - rewrite target_level_wf by done. apply code_tier_level.
  - apply insert_split, Hwf.
Qed.

(** ** Enqueueing *)

(** C3, as the program has it: [addURL] puts the URL into the tier of its
    priority when that is one of the levels 0 to 4 and into tier 0 when it
    is not (above 4 as well as below 0); there it stands behind every
    element whose priority is at least its own and in front of those of
    lower priority, the elements already queued keep their order, nothing
    else in the frontier changes, and the operation is total. *)
Theorem C3_addURL_tier (f : URLFrontier.t) (u : URLInfo) :
  frontier_wf f →
  let k := code_tier (priority u) in
  let f' := URLFrontier.addURL u f in
  ∃ l1 l2,
    URLFrontier.tier f k = l1 ++ l2 ∧
    URLFrontier.tier f' k = l1 ++ PriorityQueue.mkElement u (priority u) :: l2 ∧
    Forall (λ x, priority u ≤ PriorityQueue.priority x) l1 ∧
    Forall (λ x, PriorityQueue.priority x < priority u) l2 ∧
    (∀ k', k' ≠ k → URLFrontier.tier f' k' = URLFrontier.tier f k') ∧
    URLFrontier.backQueues f' = URLFrontier.backQueues f ∧
    URLFrontier.lastAccessTime f' = URLFrontier.lastAccessTime f ∧
    frontier_wf f'.
Proof.
  intros Hwf k f'.
  assert (URLFrontier.target_level f u = k) as Hk by by apply target_level_wf.
  destruct (insert_split (PriorityQueue.mkElement u (priority u))
              (URLFrontier.tier f k)) as (_ & l1 & l2 & H1 & H2 & H3 & H4).
  { apply Hwf. }
  assert (frontier_wf f') as Hwf' by by apply wf_addURL.
  exists l1, l2. subst f'. unfold URLFrontier.addURL in *. rewrite Hk in *.
  split_and!; try done.
  - rewrite tier_set_tier. by rewrite decide_True.
  - intros k' Hk'. rewrite tier_set_tier. by rewrite decide_False.
Qed.

(** C3, witness: a URL of priority 5 enqueued into a new frontier. *)
Lemma C3_addURL_tier_witness :
  frontier_wf (URLFrontier.new 1000) ∧
  ∃ l1 l2,
    URLFrontier.tier (URLFrontier.new 1000) 0 = l1 ++ l2 ∧
    URLFrontier.tier (URLFrontier.addURL c3_url (URLFrontier.new 1000)) 0
    = l1 ++ PriorityQueue.mkElement c3_url 5 :: l2.
Proof.
  split; [apply wf_new|].
  destruct (C3_addURL_tier (URLFrontier.new 1000) c3_url (wf_new 1000))
    as (l1 & l2 & H1 & H2 & _).
  by exists l1, l2.
Defined.

(** C3, as the specification states it, fails: a URL of priority 5 is not
    put into tier 4, the tier of its clamped priority. *)
Lemma C3_counterexample :
  ¬ enqueue_as_specified (URLFrontier.new 1000) c3_url.
Proof.
  unfold enqueue_as_specified.
  assert (URLFrontier.tier (URLFrontier.addURL c3_url (URLFrontier.new 1000))
            (spec_tier (priority c3_url)) = []) as -> by by vm_compute.
  apply not_elem_of_nil.
Qed.

(** ** Insertion-ordered maps *)

Section OrderedMapFacts.
Context {K V : Type} `{EqDecision K}.
Implicit Types (m : OrderedMap.t K V) (k : K) (v : V).

Lemma get_set_eq m k v : OrderedMap.get k (OrderedMap.set k v m) = Some v.
Proof.
  induction m as [|[k' v'] m IH]; simpl.
  - by rewrite decide_True.
  - destruct (decide (k' = k)); simpl.
    + by rewrite decide_True.
    + by rewrite decide_False.
Qed.

Lemma get_set_ne m k k' v :
  k ≠ k' → OrderedMap.get k' (OrderedMap.set k v m) = OrderedMap.get k' m.
Proof.
  intros Hne. induction m as [|[k0 v0] m IH]; simpl.
  - by rewrite decide_False.
  - destruct (decide (k0 = k)) as [->|]; simpl.
    + by rewrite !decide_False.
    + by rewrite IH.
Qed.

Lemma has_elem_of_keys m k :
  OrderedMap.has k m = true ↔ k ∈ OrderedMap.keys m.
Proof.
  unfold OrderedMap.has, OrderedMap.keys.
  induction m as [|[k' v'] m IH]; simpl.
  - split; [done|]. by intros ?%elem_of_nil.
  - rewrite elem_of_cons. destruct (decide (k' = k)) as [->|].
    + split; auto.
    + rewrite IH. split; [auto|]. by intros [->|].
Qed.

Lemma keys_set m k v :
  OrderedMap.keys (OrderedMap.set k v m)
  = OrderedMap.keys m ++ (if OrderedMap.has k m then [] else [k]).
Proof.
  unfold OrderedMap.has, OrderedMap.keys.
  induction m as [|[k' v'] m IH]; simpl; [done|].
  destruct (decide (k' = k)) as [->|]; simpl.
  - by rewrite app_nil_r.
  - by rewrite IH.
Qed.
End OrderedMapFacts.

Lemma concat_values_set {A : Type} (m : OrderedMap.t string (list A))
    (k : string) (x : list A) :
  concat (OrderedMap.values
            (OrderedMap.set k (default [] (OrderedMap.get k m) ++ x) m))
  ≡ₚ concat (OrderedMap.values m) ++ x.
Proof.
  unfold OrderedMap.values.
  induction m as [|[k' v'] m IH]; simpl.
  - by rewrite app_nil_r.
  - destruct (decide (k' = k)) as [->|]; simpl.
    + rewrite <- !app_assoc. f_equiv. apply Permutation_app_comm.
    + rewrite IH. by rewrite app_assoc.
Qed.

(** ** Promotion into the holding queues *)

Lemma holding_push_back (u : URLInfo) (f : URLFrontier.t) :
  holding (URLFrontier.push_back u f) (host u) = holding f (host u) ++ [u].
Proof.
  unfold holding, URLFrontier.push_back; simpl. rewrite get_set_eq; simpl.
  unfold OrderedMap.has.
  destruct (OrderedMap.get (host u) (URLFrontier.backQueues f)) eqn:E.
  - by rewrite E.
  - by rewrite get_set_eq.
Qed.

Lemma holding_push_back_ne (u : URLInfo) (f : URLFrontier.t) (h : string) :
  h ≠ host u → holding (URLFrontier.push_back u f) h = holding f h.
Proof.
  intros Hne. unfold holding, URLFrontier.push_back; simpl.
  rewrite get_set_ne by done.
  destruct (OrderedMap.has _ _); [done|]. by rewrite get_set_ne.
Qed.

Lemma keys_push_back (u : URLInfo) (f : URLFrontier.t) :
  OrderedMap.keys (URLFrontier.backQueues (URLFrontier.push_back u f))
  = OrderedMap.keys (URLFrontier.backQueues f)
    ++ (if OrderedMap.has (host u) (URLFrontier.backQueues f)
        then [] else [host u]).
Proof.
  unfold URLFrontier.push_back; simpl. rewrite keys_set.
  destruct (OrderedMap.has (host u) (URLFrontier.backQueues f)) eqn:E.
  - by rewrite E.
  - rewrite keys_set, E. unfold OrderedMap.has at 1.
    by rewrite get_set_eq, app_nil_r.
Qed.

Lemma hosts_wf_push_back (u : URLInfo) (f : URLFrontier.t) :
  hosts_wf f → hosts_wf (URLFrontier.push_back u f).
Proof.
  unfold hosts_wf. intros Hnd. rewrite keys_push_back.
  destruct (OrderedMap.has (host u) (URLFrontier.backQueues f)) eqn:E.
  - by rewrite app_nil_r.
  - apply NoDup_app. split_and!; [done| |apply NoDup_singleton].
    intros h Hh ->%list_elem_of_singleton.
    apply has_elem_of_keys in Hh. congruence.
Qed.

Lemma concat_push_back (u : URLInfo) (f : URLFrontier.t) :
  concat (OrderedMap.values (URLFrontier.backQueues (URLFrontier.push_back u f)))
  ≡ₚ concat (OrderedMap.values (URLFrontier.backQueues f)) ++ [u].
Proof.
  unfold URLFrontier.push_back; simpl. rewrite concat_values_set.
  unfold OrderedMap.has.
  destruct (OrderedMap.get (host u) (URLFrontier.backQueues f)) eqn:E;
    [done|].
  f_equiv.
  pose proof (concat_values_set (URLFrontier.backQueues f) (host u) [])
    as Hperm.
  rewrite E in Hperm. simpl in Hperm. by rewrite app_nil_r in Hperm.
Qed.

(** ** Selection from the holding queues *)

Lemma scan_spec (now delay : Z) (lat : gmap string Z)
    (entries : OrderedMap.t string (list URLInfo)) :
  let busy := λ e : string * list URLInfo,
    e.2 = [] ∨ ¬ delay ≤ now - default 0 (lat !! e.1) in
  match URLFrontier.scan now delay lat entries with
  | Some (u, h, entries') =>
      ∃ pre q post,
        entries = pre ++ (h, u :: q) :: post ∧
        entries' = pre ++ (h, q) :: post ∧
        Forall busy pre ∧
        delay ≤ now - default 0 (lat !! h)
  | None => Forall busy entries
  end.
Proof.
  intros busy. induction entries as [|[h queue] rest IH]; simpl; [done|].
  destruct queue as [|u queue'].
  - destruct (URLFrontier.scan now delay lat rest) as [[[u' h'] rest']|].
    + destruct IH as (pre & q & post & -> & -> & Hpre & Hh').
      exists ((h, []) :: pre), q, post. split_and!; try done.
      constructor; [by left|done].
    + constructor; [by left|done].
  - unfold URLFrontier.ready, URLFrontier.lastAccess.
    destruct (Z.leb_spec delay (now - default 0 (lat !! h))) as [Hle|Hlt].
    + exists [], queue', rest. by split_and!.
    + assert (busy (h, u :: queue')) as Hbusy by (right; simpl; lia).
      destruct (URLFrontier.scan now delay lat rest) as [[[u' h'] rest']|].
      * destruct IH as (pre & q & post & -> & -> & Hpre & Hh').
        exists ((h, u :: queue') :: pre), q, post. split_and!; try done.
        by constructor.
      * by constructor.
Qed.

Lemma getFromBackQueue_selection (now : Z) (f1 : URLFrontier.t) :
  selection (code_eligible now f1) now f1 (URLFrontier.getFromBackQueue now f1).
Proof.
  unfold selection, URLFrontier.getFromBackQueue, blocked, code_eligible.
  pose proof (scan_spec now (URLFrontier.politenessDelay f1)
                (URLFrontier.lastAccessTime f1) (URLFrontier.backQueues f1))
    as Hscan. simpl in Hscan.
  destruct (URLFrontier.scan _ _ _ _) as [[[u h] entries']|].
  - destruct Hscan as (pre & q & post & Hbq & -> & Hpre & Hh).
    left. by exists pre, h, u, q, post.
  - right. split; [done|]. by destruct f1.
Qed.

(** ** The scan of the tiers *)

Lemma getNextURL_from_cases (ps : list Z) (now : Z) (f : URLFrontier.t) :
  (Forall (λ p, URLFrontier.tier f p = []) ps ∧
   URLFrontier.getNextURL_from ps now f = URLFrontier.getFromBackQueue now f)
  ∨ ∃ hi p lo e rest,
      ps = hi ++ p :: lo ∧
      Forall (λ p', URLFrontier.tier f p' = []) hi ∧
      URLFrontier.tier f p = e :: rest ∧
      URLFrontier.getNextURL_from ps now f
      = URLFrontier.getFromBackQueue now
          (URLFrontier.push_back (PriorityQueue.item e)
             (URLFrontier.set_tier p rest f)).
Proof.
  induction ps as [|p ps IH]; simpl.
  - left. by split.
  - destruct (URLFrontier.tier f p) as [|e rest] eqn:E; simpl.
    + destruct IH as [[Hall Heq]|(hi & p' & lo & e & rest & -> & Hhi & Hp' & Heq)].
      * left. split; [by constructor|done].
      * right. exists (p :: hi), p', lo, e, rest. split_and!; try done.
        by constructor.
    + right. exists [], p, ps, e, rest. by split_and!.
Qed.

Lemma flat_map_tier_other (L : list Z) (p : Z) (q : PriorityQueue.t)
    (f : URLFrontier.t) :
  p ∉ L →
  flat_map (λ p', map PriorityQueue.item
                    (URLFrontier.tier (URLFrontier.set_tier p q f) p')) L
  = flat_map (λ p', map PriorityQueue.item (URLFrontier.tier f p')) L.
Proof.
  induction L as [|p0 L IH]; simpl; [done|].
  intros [Hne HL]%not_elem_of_cons.
  rewrite tier_set_tier, decide_False by done. by rewrite IH.
Qed.

Lemma flat_map_tier_dequeue (L : list Z) (p : Z) (e : PriorityQueue.Element)
    (rest : PriorityQueue.t) (f : URLFrontier.t) :
  NoDup L → p ∈ L → URLFrontier.tier f p = e :: rest →
  flat_map (λ p', map PriorityQueue.item (URLFrontier.tier f p')) L
  ≡ₚ PriorityQueue.item e
     :: flat_map (λ p', map PriorityQueue.item
                          (URLFrontier.tier (URLFrontier.set_tier p rest f) p'))
          L.
Proof.
  intros Hnd Hin Htier. induction L as [|p0 L IH]; simpl.
  - by apply elem_of_nil in Hin.
  - apply NoDup_cons in Hnd as [Hp0 Hnd]. rewrite tier_set_tier.
    destruct (decide (p = p0)) as [<-|Hne].
    + rewrite Htier. simpl. by rewrite flat_map_tier_other.
    + apply elem_of_cons in Hin as [?|Hin]; [done|].
      rewrite (IH Hnd Hin). by rewrite Permutation_middle.
Qed.

Lemma queued_promote (p : Z) (e : PriorityQueue.Element)
    (rest : PriorityQueue.t) (f : URLFrontier.t) :
  0 ≤ p ≤ 4 → URLFrontier.tier f p = e :: rest →
  queued (URLFrontier.push_back (PriorityQueue.item e)
            (URLFrontier.set_tier p rest f))
  ≡ₚ queued f.
Proof.
  intros Hp Htier. unfold queued. rewrite concat_push_back.
  change (URLFrontier.tier (URLFrontier.push_back ?u ?g))
    with (URLFrontier.tier g).
  change (URLFrontier.backQueues (URLFrontier.set_tier ?a ?b ?g))
    with (URLFrontier.backQueues g).
  rewrite (flat_map_tier_dequeue [4; 3; 2; 1; 0] p e rest f); [| | |done].
  - simpl. rewrite (Permutation_app_comm _ [_]). simpl.
    by rewrite Permutation_middle.
  - apply (bool_decide_unpack _). by vm_compute.
  - rewrite !elem_of_cons. lia.
Qed.

Lemma getFromBackQueue_None (now : Z) (f : URLFrontier.t) :
  (URLFrontier.getFromBackQueue now f).1 = None →
  URLFrontier.getFromBackQueue now f = (None, f).
Proof.
  unfold URLFrontier.getFromBackQueue.
  by destruct (URLFrontier.scan _ _ _ _) as [[[u h] entries']|].
Qed.

(** The levels before [p] in the scan are those above it. *)
Lemma levels_above (hi lo : list Z) (p p' : Z) :
  [4; 3; 2; 1; 0] = hi ++ p :: lo → p < p' ≤ 4 → p' ∈ hi.
Proof.
  intros Heq Hp'.
  do 5 (destruct hi as [|? hi]; simplify_eq/=;
          [rewrite ?elem_of_cons; lia|]).
  by destruct hi.
Qed.

Lemma levels_range (hi lo : list Z) (p : Z) :
  [4; 3; 2; 1; 0] = hi ++ p :: lo → 0 ≤ p ≤ 4.
Proof.
  intros Heq.
  do 5 (destruct hi as [|? hi]; simplify_eq/=; [lia|]).
  by destruct hi.
Qed.

(** ** Dispatching *)

Lemma promotion_push_back (p : Z) (e : PriorityQueue.Element)
    (rest : PriorityQueue.t) (f : URLFrontier.t) :
  0 ≤ p ≤ 4 →
  URLFrontier.tier f p = e :: rest →
  (∀ p', p < p' ≤ 4 → URLFrontier.tier f p' = []) →
  promotion f (URLFrontier.push_back (PriorityQueue.item e)
                 (URLFrontier.set_tier p rest f)).
Proof.
  intros Hp Htier Hhigh. right. exists p, e, rest.
  do 4 (split; [done|]).
  split; [exact (holding_push_back _ (URLFrontier.set_tier p rest f))|].
  split.
  { intros h Hh.
    exact (holding_push_back_ne _ (URLFrontier.set_tier p rest f) h Hh). }
  split; [|done].
  exact (keys_push_back _ (URLFrontier.set_tier p rest f)).
Qed.

(** C1, as the program has it: [getNextURL] first promotes the front of
    the highest non-empty tier, if there is one, to the back of the
    holding queue of its host; then it scans the holding queues in the
    order in which the hosts were first promoted and removes and returns
    the front of the first non-empty one whose host was last dispatched
    to, at time 0 when it never was, at least [politenessDelay]
    milliseconds before [now], recording [now] for that host; when there
    is none it returns nothing and the frontier holds the same URLs as
    before the call. *)
Theorem C1_getNextURL_dispatch (now : Z) (f : URLFrontier.t) :
  frontier_wf f →
  dispatchNext_spec code_eligible now f (URLFrontier.getNextURL now f).
Proof.
  intros _. unfold URLFrontier.getNextURL.
  destruct (getNextURL_from_cases [4; 3; 2; 1; 0] now f)
    as [[Hall ->]|(hi & p & lo & e & rest & Hps & Hhi & Htier & ->)].
  - exists f. split_and!.
    + left. split; [|done]. intros p Hp.
      rewrite Forall_forall in Hall. apply Hall.
      rewrite !elem_of_cons. lia.
    + apply getFromBackQueue_selection.
    + intros Hnone. by rewrite (getFromBackQueue_None _ _ Hnone).
  - pose proof (levels_range _ _ _ Hps) as Hp.
    eexists. split_and!.
    + apply promotion_push_back; [done..|].
      intros p' Hp'. rewrite Forall_forall in Hhi.
      apply Hhi. by eapply levels_above.
    + apply getFromBackQueue_selection.
    + intros Hnone. rewrite (getFromBackQueue_None _ _ Hnone). simpl.
      by apply queued_promote.
Qed.

(** C1, witness: a call on a frontier holding one URL. *)
Lemma C1_getNextURL_dispatch_witness :
  frontier_wf c1_frontier ∧
  dispatchNext_spec code_eligible c1_now c1_frontier
    (URLFrontier.getNextURL c1_now c1_frontier).
Proof.
  assert (frontier_wf c1_frontier) as Hwf by apply wf_addURL, wf_new.
  split; [exact Hwf|]. exact (C1_getNextURL_dispatch c1_now c1_frontier Hwf).
Defined.

Lemma get_Some_elem_of {K V : Type} `{EqDecision K}
    (m : OrderedMap.t K V) (k : K) (v : V) :
  OrderedMap.get k m = Some v → (k, v) ∈ m.
Proof.
  induction m as [|[k' v'] m IH]; simpl; [done|].
  destruct (decide (k' = k)) as [->|].
  - intros [= ->]. apply list_elem_of_here.
  - intros H. apply list_elem_of_further. by apply IH.
Qed.

(** C1, as the specification states it, fails: with a politeness delay
    longer than the time since the epoch, the host of the URL just
    promoted has no last dispatch time and a non-empty holding queue, and
    yet nothing is returned. *)
Lemma C1_counterexample :
  ¬ dispatchNext_spec spec_eligible c1_now c1_frontier
      (URLFrontier.getNextURL c1_now c1_frontier).
Proof.
  intros (f1 & Hprom & Hsel & _).
  assert ((URLFrontier.getNextURL c1_now c1_frontier).1 = None) as Hnone
    by by vm_compute.
  assert (URLFrontier.tier c1_frontier 4
          = [PriorityQueue.mkElement c1_url 4]) as Htier4 by by vm_compute.
  destruct Hprom
    as [[Hempty _]
       |(p & e & rest & Hp & Htier & Hhigh & _ & Hhold & _ & _ & Hlat & _)].
  { specialize (Hempty 4). rewrite Htier4 in Hempty.
    discriminate Hempty. lia. }
  assert (p = 4) as ->.
  { destruct (decide (p = 4)); [done|].
    specialize (Hhigh 4). rewrite Htier4 in Hhigh.
    discriminate Hhigh. lia. }
  rewrite Htier4 in Htier. injection Htier as <- <-. simpl in Hhold.
  destruct Hsel as [(pre & h & u & q & post & _ & _ & _ & Hres)|[Hblocked _]].
  { rewrite Hres in Hnone. discriminate Hnone. }
  unfold holding in Hhold.
  destruct (OrderedMap.get "a.com" (URLFrontier.backQueues f1)) as [q|] eqn:Hget;
    [|discriminate Hhold].
  simpl in Hhold. subst q.
  apply get_Some_elem_of in Hget.
  unfold blocked in Hblocked. rewrite Forall_forall in Hblocked.
  destruct (Hblocked _ Hget) as [Hq|Hel]; [discriminate Hq|].
  apply Hel. unfold spec_eligible. simpl. by rewrite Hlat.
Qed.

(** [getNextURL] keeps a frontier well formed. *)
Lemma wf_push_back (u : URLInfo) (f : URLFrontier.t) :
  frontier_wf f → frontier_wf (URLFrontier.push_back u f).
Proof. intros Hwf. exact Hwf. Qed.

Lemma wf_getFromBackQueue (now : Z) (f : URLFrontier.t) :
  frontier_wf f → frontier_wf (URLFrontier.getFromBackQueue now f).2.
Proof.
  intros Hwf. unfold URLFrontier.getFromBackQueue.
  by destruct (URLFrontier.scan _ _ _ _) as [[[u h] entries']|].
Qed.

Lemma wf_getNextURL (now : Z) (f : URLFrontier.t) :
  frontier_wf f → frontier_wf (URLFrontier.getNextURL now f).2.
Proof.
  intros Hwf. unfold URLFrontier.getNextURL.
  destruct (getNextURL_from_cases [4; 3; 2; 1; 0] now f)
    as [[Hall ->]|(hi & p & lo & e & rest & Hps & Hhi & Htier & ->)].
  - by apply wf_getFromBackQueue.
  - apply wf_getFromBackQueue, wf_push_back, wf_set_tier; [|  |done].
    + by eapply levels_range.
    + eapply descending_tail. rewrite <- Htier. apply Hwf.
Qed.

(** [getNextURL] keeps one holding queue per host. *)
Lemma hosts_wf_getFromBackQueue (now : Z) (f : URLFrontier.t) :
  hosts_wf f → hosts_wf (URLFrontier.getFromBackQueue now f).2.
Proof.
  unfold hosts_wf. intros Hnd.
  destruct (getFromBackQueue_selection now f)
    as [(pre & h & u & q & post & Hbq & _ & _ & ->)|[_ ->]]; [|done].
  simpl. rewrite Hbq in Hnd. unfold OrderedMap.keys in *.
  by rewrite map_app in *.
Qed.

Lemma hosts_wf_new (delay : Z) : hosts_wf (URLFrontier.new delay).
Proof. constructor. Qed.

Lemma hosts_wf_addURLs (f : URLFrontier.t) (new : list URLInfo) :
  hosts_wf f → hosts_wf (foldl (λ f x, URLFrontier.addURL x f) f new).
Proof.
  revert f. induction new as [|x new IH]; simpl; [done|].
  intros f Hwf. by apply IH.
Qed.

Lemma hosts_wf_getNextURL (now : Z) (f : URLFrontier.t) :
  hosts_wf f → hosts_wf (URLFrontier.getNextURL now f).2.
Proof.
  intros Hwf. unfold URLFrontier.getNextURL.
  destruct (getNextURL_from_cases [4; 3; 2; 1; 0] now f)
    as [[Hall ->]|(hi & p & lo & e & rest & Hps & Hhi & Htier & ->)].
  - by apply hosts_wf_getFromBackQueue.
  - apply hosts_wf_getFromBackQueue.
    by apply (hosts_wf_push_back _ (URLFrontier.set_tier p rest f)).
Qed.

(** ** Hosts of the holding queues *)

Lemma Forall_set {K V : Type} `{EqDecision K} (P : K * V → Prop)
    (m : OrderedMap.t K V) (k : K) (v : V) :
  Forall P m → P (k, v) → Forall P (OrderedMap.set k v m).
Proof.
  intros Hm Hkv. induction m as [|[k' v'] m IH]; simpl.
  - by constructor.
  - apply Forall_cons in Hm as [Hhd Htl].
    destruct (decide (k' = k)); constructor; auto.
Qed.

Lemma hosts_ok_new (delay : Z) : hosts_ok (URLFrontier.new delay).
Proof. constructor. Qed.

Lemma hosts_ok_addURL (u : URLInfo) (f : URLFrontier.t) :
  hosts_ok f → hosts_ok (URLFrontier.addURL u f).
Proof. intros H. exact H. Qed.

Lemma hosts_ok_push_back (u : URLInfo) (f : URLFrontier.t) :
  hosts_ok f → hosts_ok (URLFrontier.push_back u f).
Proof.
  unfold hosts_ok, URLFrontier.push_back; simpl. intros Hok.
  set (bq := if OrderedMap.has (host u) (URLFrontier.backQueues f)
             then URLFrontier.backQueues f
             else OrderedMap.set (host u) [] (URLFrontier.backQueues f)).
  assert (Forall (λ e : string * list URLInfo,
                    Forall (λ u, host u = e.1) e.2) bq) as Hbq.
  { subst bq. destruct (OrderedMap.has _ _); [done|].
    apply Forall_set; [done|]. constructor. }
  apply Forall_set; [done|]. simpl.
  apply Forall_app. split; [|by repeat constructor].
  destruct (OrderedMap.get (host u) bq) as [q|] eqn:Hget; [|constructor].
  apply get_Some_elem_of in Hget. rewrite Forall_forall in Hbq.
  exact (Hbq _ Hget).
Qed.

(** What a call of [getFromBackQueue] that returns a URL did. *)
Lemma getFromBackQueue_Some (now : Z) (f f' : URLFrontier.t) (u : URLInfo) :
  hosts_ok f →
  URLFrontier.getFromBackQueue now f = (Some u, f') →
  URLFrontier.politenessDelay f
  ≤ now - default 0 (URLFrontier.lastAccessTime f !! host u) ∧
  URLFrontier.lastAccessTime f'
  = <[host u := now]> (URLFrontier.lastAccessTime f) ∧
  URLFrontier.politenessDelay f' = URLFrontier.politenessDelay f ∧
  URLFrontier.frontQueues f' = URLFrontier.frontQueues f ∧
  hosts_ok f' ∧
  concat (OrderedMap.values (URLFrontier.backQueues f))
  ≡ₚ u :: concat (OrderedMap.values (URLFrontier.backQueues f')).
Proof.
  intros Hok Hget.
  destruct (getFromBackQueue_selection now f)
    as [(pre & h & u' & q & post & Hbq & _ & Hready & Hres)|[_ Hres]];
    rewrite Hget in Hres; simplify_eq/=.
  unfold hosts_ok in *. rewrite Hbq in Hok.
  apply Forall_app in Hok as [Hpre [Hh Hpost]%Forall_cons].
  simpl in Hh. apply Forall_cons in Hh as [<- Hq].
  split_and!; try done.
  - apply Forall_app. split; [done|]. by constructor.
  - rewrite Hbq. unfold OrderedMap.values. rewrite !map_app, !concat_app.
    simpl. by rewrite <- Permutation_middle.
Qed.

Lemma getNextURL_Some (now : Z) (f f' : URLFrontier.t) (u : URLInfo) :
  hosts_ok f →
  URLFrontier.getNextURL now f = (Some u, f') →
  URLFrontier.politenessDelay f
  ≤ now - default 0 (URLFrontier.lastAccessTime f !! host u) ∧
  URLFrontier.lastAccessTime f'
  = <[host u := now]> (URLFrontier.lastAccessTime f) ∧
  URLFrontier.politenessDelay f' = URLFrontier.politenessDelay f ∧
  hosts_ok f'.
Proof.
  intros Hok. unfold URLFrontier.getNextURL.
  destruct (getNextURL_from_cases [4; 3; 2; 1; 0] now f)
    as [[Hall ->]|(hi & p & lo & e & rest & Hps & Hhi & Htier & ->)];
    intros Hget.
  - by destruct (getFromBackQueue_Some _ _ _ _ Hok Hget)
      as (? & ? & ? & ? & ? & ?).
  - apply getFromBackQueue_Some in Hget
      as (? & ? & ? & ? & ? & ?); [done|].
    by apply hosts_ok_push_back.
Qed.

Lemma getNextURL_None (now : Z) (f f' : URLFrontier.t) :
  hosts_ok f →
  URLFrontier.getNextURL now f = (None, f') →
  URLFrontier.lastAccessTime f' = URLFrontier.lastAccessTime f ∧
  URLFrontier.politenessDelay f' = URLFrontier.politenessDelay f ∧
  hosts_ok f'.
Proof.
  intros Hok. unfold URLFrontier.getNextURL.
  destruct (getNextURL_from_cases [4; 3; 2; 1; 0] now f)
    as [[Hall ->]|(hi & p & lo & e & rest & Hps & Hhi & Htier & ->)];
    intros Hget.
  - rewrite getFromBackQueue_None in Hget by by rewrite Hget.
    by simplify_eq.
  - rewrite getFromBackQueue_None in Hget by by rewrite Hget.
    simplify_eq. split_and!; try done. by apply hosts_ok_push_back.
Qed.

(** ** Politeness *)

Lemma last_time_snoc (h : string) (log : list (Z * URLInfo))
    (t : Z) (u : URLInfo) :
  last_time h (log ++ [(t, u)])
  = if decide (host u = h) then Some t else last_time h log.
Proof.
  induction log as [|[t0 u0] log IH]; simpl.
  - done.
  - rewrite IH. by destruct (decide (host u = h)).
Qed.

Lemma last_time_absent (h : string) (log : list (Z * URLInfo)) :
  Forall (λ d : Z * URLInfo, host d.2 ≠ h) log → last_time h log = None.
Proof.
  induction 1 as [|[t u] log Hne _ IH]; simpl; [done|].
  rewrite IH. by rewrite decide_False.
Qed.

Lemma last_time_split (l1 mid : list (Z * URLInfo)) (t1 : Z) (u1 : URLInfo) :
  Forall (λ d : Z * URLInfo, host d.2 ≠ host u1) mid →
  last_time (host u1) (l1 ++ (t1, u1) :: mid) = Some t1.
Proof.
  intros Hmid. induction l1 as [|[t0 u0] l1 IH]; simpl.
  - rewrite (last_time_absent _ _ Hmid). by rewrite decide_True.
  - by rewrite IH.
Qed.

Lemma polite_nil (delay : Z) : polite delay [].
Proof. intros l1 t1 u1 mid t2 u2 l3 Heq. by destruct l1. Qed.

Lemma polite_snoc (delay now : Z) (u : URLInfo) (log : list (Z * URLInfo)) :
  polite delay log →
  (∀ t, last_time (host u) log = Some t → delay ≤ now - t) →
  polite delay (log ++ [(now, u)]).
Proof.
  intros Hlog Hlast l1 t1 u1 mid t2 u2 l3 Heq Hhost Hmid.
  destruct l3 as [|d l3 _] using rev_ind.
  - assert (l1 ++ (t1, u1) :: mid ++ [(t2, u2)]
            = (l1 ++ (t1, u1) :: mid) ++ [(t2, u2)]) as Hassoc
      by by rewrite <- app_assoc.
    rewrite Hassoc in Heq. apply app_inj_tail in Heq as [-> [= -> ->]].
    apply Hlast. rewrite <- Hhost. by apply last_time_split.
  - assert (l1 ++ (t1, u1) :: mid ++ (t2, u2) :: l3 ++ [d]
            = (l1 ++ (t1, u1) :: mid ++ (t2, u2) :: l3) ++ [d]) as Hassoc.
    { rewrite <- !app_assoc. simpl. by rewrite <- !app_assoc. }
    rewrite Hassoc in Heq. apply app_inj_tail in Heq as [-> _].
    by eapply Hlog.
Qed.

(** What holds after every sequence of calls on a new frontier. *)
Lemma calls_invariant (delay : Z) (cs : list Call) :
  let s := calls cs (URLFrontier.new delay) in
  frontier_wf s.2 ∧
  hosts_ok s.2 ∧
  URLFrontier.politenessDelay s.2 = delay ∧
  (∀ h, URLFrontier.lastAccessTime s.2 !! h = last_time h s.1) ∧
  polite delay s.1.
Proof.
  induction cs as [|c cs IH] using rev_ind; simpl.
  - split_and!; auto using wf_new, hosts_ok_new, polite_nil.
  - unfold calls in *. rewrite foldl_app. simpl.
    destruct (foldl call ([], URLFrontier.new delay) cs) as [log f].
    simpl in IH. destruct IH as (Hwf & Hok & Hdelay & Hlat & Hpolite).
    destruct c as [u|now]; simpl.
    + split_and!; auto using wf_addURL, hosts_ok_addURL.
    + pose proof (wf_getNextURL now f Hwf) as Hwf'.
      destruct (URLFrontier.getNextURL now f) as [[u|] f'] eqn:Hget; simpl.
      * apply getNextURL_Some in Hget as (Hready & Hlat' & Hdelay' & Hok');
          [|done].
        split_and!; try done; try congruence.
        -- intros h. rewrite Hlat', last_time_snoc, lookup_insert.
           destruct (decide (host u = h)); [done|]. apply Hlat.
        -- apply polite_snoc; [done|]. intros t Ht.
           rewrite Hlat, Ht in Hready. simpl in Hready. lia.
      * apply getNextURL_None in Hget as (Hlat' & Hdelay' & Hok'); [|done].
        split_and!; try done; congruence.
Qed.

(** C2: in every run of a frontier created with a politeness delay, two
    URLs of one host returned by [getNextURL] with no URL of that host
    returned in between were returned at clock readings at least that
    delay apart. *)
Theorem C2_politeness (delay : Z) (cs : list Call)
    (l1 mid l3 : list (Z * URLInfo)) (t1 t2 : Z) (u1 u2 : URLInfo) :
  (calls cs (URLFrontier.new delay)).1
  = l1 ++ (t1, u1) :: mid ++ (t2, u2) :: l3 →
  host u1 = host u2 →
  Forall (λ d : Z * URLInfo, host d.2 ≠ host u1) mid →
  delay ≤ t2 - t1.
Proof.
  intros Hlog Hhost Hmid.
  destruct (calls_invariant delay cs) as (_ & _ & _ & _ & Hpolite).
  by eapply Hpolite.
Qed.

(** C2, witness: the second URL of a host is refused 500 ms after the
    first and returned 1000 ms after it. *)
Lemma C2_politeness_witness :
  (calls c2_calls (URLFrontier.new 1000)).1
  = [(2000, c2_first); (3000, c2_second)]
  ∧ 1000 ≤ 3000 - 2000.
Proof.
  split; [by vm_compute|].
  apply (C2_politeness 1000 c2_calls [] [] [] 2000 3000 c2_first c2_second).
  - by vm_compute.
  - done.
  - constructor.
Defined.

(** ** Sets of strings *)

Lemma has_true (x : string) (s : StringSet.t) :
  StringSet.has x s = true ↔ x ∈ s.
Proof. unfold StringSet.has. apply bool_decide_eq_true. Qed.

Lemma has_false (x : string) (s : StringSet.t) :
  StringSet.has x s = false ↔ x ∉ s.
Proof. unfold StringSet.has. apply bool_decide_eq_false. Qed.

Lemma elem_of_add (x y : string) (s : StringSet.t) :
  y ∈ StringSet.add x s ↔ y = x ∨ y ∈ s.
Proof.
  unfold StringSet.add. destruct (StringSet.has x s) eqn:E.
  - apply has_true in E. split; [auto|]. by intros [->|].
  - rewrite elem_of_app, list_elem_of_singleton. tauto.
Qed.

Lemma NoDup_add (x : string) (s : StringSet.t) :
  NoDup s → NoDup (StringSet.add x s).
Proof.
  intros Hnd. unfold StringSet.add. destruct (StringSet.has x s) eqn:E.
  - done.
  - apply has_false in E. apply NoDup_app. split_and!; [done| |].
    + by intros y Hy ->%list_elem_of_singleton.
    + apply NoDup_singleton.
Qed.

(** ** One turn of the main loop *)

Lemma iteration_turn (lib : Library) (ev : WebCrawler.Event)
    (st : WebCrawler.t) :
  turn lib ev st (WebCrawler.iteration lib ev st).1
    (WebCrawler.iteration lib ev st).2.
Proof.
  unfold WebCrawler.iteration.
  destruct (URLFrontier.getNextURL _ _) as [[u|] f1] eqn:Hget.
  - cbn zeta.
    change (WebCrawler.urlStorage (WebCrawler.with_frontier f1 st))
      with (WebCrawler.urlStorage st).
    change (WebCrawler.config (WebCrawler.with_frontier f1 st))
      with (WebCrawler.config st).
    change (WebCrawler.contentStorage (WebCrawler.with_frontier f1 st))
      with (WebCrawler.contentStorage st).
    destruct (URLStorage.isURLSeen (url u) (WebCrawler.urlStorage st))
      eqn:Hseen; simpl.
    { apply turn_discard; [done|]. left. by apply has_true. }
    apply has_false in Hseen.
    destruct (Z.ltb_spec (maxDepth (WebCrawler.config st)) (depth u)); simpl.
    { apply turn_discard; [done|]. by right. }
    destruct (HTMLDownloader.download _ _ _ _ _ _) as [e|r] eqn:Hdl.
    { by apply turn_fail. }
    destruct (ContentStorage.isContentSeen _ _) eqn:Hdup; simpl.
    + apply turn_duplicate; try done. by apply has_true.
    + apply (turn_store lib ev st u f1 r); try done. by apply has_false.
  - apply turn_wait. done.
Qed.

(** ** The result store *)

Lemma NoDup_keys_set {K V : Type} `{EqDecision K}
    (m : OrderedMap.t K V) (k : K) (v : V) :
  NoDup (OrderedMap.keys m) → NoDup (OrderedMap.keys (OrderedMap.set k v m)).
Proof.
  intros Hnd. rewrite keys_set.
  destruct (OrderedMap.has k m) eqn:E.
  - by rewrite app_nil_r.
  - apply NoDup_app. split_and!; [done| |apply NoDup_singleton].
    intros k' Hk' ->%list_elem_of_singleton.
    apply has_elem_of_keys in Hk'. congruence.
Qed.

Lemma elem_of_values_set {K V : Type} `{EqDecision K}
    (m : OrderedMap.t K V) (k : K) (v x : V) :
  x ∈ OrderedMap.values (OrderedMap.set k v m) →
  x = v ∨ x ∈ OrderedMap.values m.
Proof.
  unfold OrderedMap.values.
  induction m as [|[k' v'] m IH]; simpl.
  - intros ->%list_elem_of_singleton. by left.
  - destruct (decide (k' = k)); simpl; rewrite !elem_of_cons.
    + intros [->|?]; auto.
    + intros [->|?]; auto. destruct IH; auto.
Qed.

Lemma length_values_set {K V : Type} `{EqDecision K}
    (m : OrderedMap.t K V) (k : K) (v : V) :
  k ∈ OrderedMap.keys m →
  length (OrderedMap.values (OrderedMap.set k v m))
  = length (OrderedMap.values m).
Proof.
  unfold OrderedMap.values, OrderedMap.keys.
  induction m as [|[k' v'] m IH]; simpl.
  - by intros ?%elem_of_nil.
  - destruct (decide (k' = k)) as [->|Hne]; simpl; [done|].
    rewrite elem_of_cons. intros [?|Hin]; [congruence|]. by rewrite IH.
Qed.

Lemma urls_of_storage (cs : ContentStorage.t) :
  storage_ok cs →
  map r_url (ContentStorage.getAllResults cs)
  = OrderedMap.keys (ContentStorage.storage cs).
Proof.
  intros [_ Hurl]. unfold ContentStorage.getAllResults, OrderedMap.values,
    OrderedMap.keys.
  induction Hurl as [|[k r] m Hk _ IH]; simpl; [done|].
  simpl in Hk. by rewrite Hk, IH.
Qed.

Lemma storage_ok_new : storage_ok ContentStorage.new.
Proof. split; constructor. Qed.

Lemma storage_ok_store (r : CrawlResult) (cs : ContentStorage.t) :
  storage_ok cs → storage_ok (ContentStorage.store r cs).
Proof.
  intros [Hnd Hurl]. split; simpl.
  - by apply NoDup_keys_set.
  - by apply Forall_set.
Qed.

Lemma storage_ok_stores (rs : list CrawlResult) : storage_ok (stores rs).
Proof.
  unfold stores. induction rs as [|r rs IH] using rev_ind; simpl.
  - apply storage_ok_new.
  - rewrite foldl_app. simpl. by apply storage_ok_store.
Qed.

Lemma hashes_ok_new : hashes_ok ContentStorage.new.
Proof. split; [constructor|]. by intros r ?%elem_of_nil. Qed.

Lemma hashes_ok_store (r : CrawlResult) (cs : ContentStorage.t) :
  hash r ∉ ContentStorage.seenHashes cs →
  hashes_ok cs → hashes_ok (ContentStorage.store r cs).
Proof.
  intros Hnew [Hnd Hseen].
  assert (hash r ∉ map hash (ContentStorage.getAllResults cs)) as Hfresh.
  { intros (r' & Heq & Hr')%list_elem_of_fmap.
    apply Hnew. rewrite Heq. by apply Hseen. }
  split.
  - unfold ContentStorage.getAllResults, ContentStorage.store,
      OrderedMap.values in *. simpl. clear Hseen Hnew.
    induction (ContentStorage.storage cs) as [|[k' r'] m IH]; simpl in *.
    + apply NoDup_singleton.
    + apply NoDup_cons in Hnd as [Hr' Hnd].
      apply not_elem_of_cons in Hfresh as [Hne Hfresh].
      destruct (decide (k' = r_url r)); simpl.
      * by apply NoDup_cons.
      * apply NoDup_cons. split; [|by apply IH].
        intros (x & Heq & Hx)%list_elem_of_fmap.
        apply (elem_of_values_set m (r_url r) r x) in Hx as [->|Hx];
          [congruence|].
        apply Hr'. rewrite Heq. by apply list_elem_of_fmap_2.
  - intros x Hx. simpl. apply elem_of_add.
    apply elem_of_values_set in Hx as [->|Hx]; [by left|].
    right. by apply Hseen.
Qed.

(** ** Enqueueing the links of a page *)

Lemma with_frontier_same (st : WebCrawler.t) :
  WebCrawler.with_frontier (WebCrawler.urlFrontier st) st = st.
Proof. by destruct st. Qed.

Lemma wf_addURLs (f : URLFrontier.t) (new : list URLInfo) :
  frontier_wf f →
  frontier_wf (foldl (λ f x, URLFrontier.addURL x f) f new).
Proof.
  revert f. induction new as [|x new IH]; simpl; [done|].
  intros f Hwf. by apply IH, wf_addURL.
Qed.

Lemma addLinks_spec (lib : Library) (u : URLInfo) (stamps : nat → Z)
    (ls : list string) (k : nat) (st : WebCrawler.t) :
  ∃ new,
    WebCrawler.addLinks lib u stamps k ls st
    = WebCrawler.with_frontier
        (foldl (λ f x, URLFrontier.addURL x f) (WebCrawler.urlFrontier st) new)
        st ∧
    map url new
    = filter (λ l, URLFilter.isValidURL lib (WebCrawler.urlFilter st) l = true
                   ∧ l ∉ visited st) ls ∧
    Forall (λ x, priority x = Z.max 0 (priority u - 1) ∧
                 depth x = depth u + 1 ∧
                 host x = WebCrawler.hostnameOf lib (url x)) new.
Proof.
  revert k st. induction ls as [|l ls IH]; intros k st; simpl.
  - exists []. simpl. rewrite with_frontier_same. by split_and!.
  - destruct (URLFilter.isValidURL lib (WebCrawler.urlFilter st) l) eqn:Hvalid;
      simpl.
    + destruct (URLStorage.isURLSeen l (WebCrawler.urlStorage st)) eqn:Hseen;
        simpl.
      * apply has_true in Hseen.
        destruct (IH (S k) st) as (new & -> & Hurls & Hnew).
        exists new. split_and!; [done| |done].
        rewrite filter_cons_False; [done|]. by intros [_ ?].
      * apply has_false in Hseen.
        destruct (IH (S k)
                    (WebCrawler.with_frontier
                       (URLFrontier.addURL
                          (WebCrawler.newUrlInfo lib u (stamps k) l)
                          (WebCrawler.urlFrontier st)) st))
          as (new & -> & Hurls & Hnew).
        exists (WebCrawler.newUrlInfo lib u (stamps k) l :: new).
        split_and!; [done| |by constructor].
        rewrite filter_cons_True by done. simpl. by rewrite Hurls.
    + destruct (IH (S k) st) as (new & -> & Hurls & Hnew).
      exists new. split_and!; [done| |done].
      rewrite filter_cons_False; [done|]. intros [? _]. congruence.
Qed.

Lemma addSeeds_spec (lib : Library) (stamps : nat → Z)
    (seedUrls : list string) (k : nat) (st : WebCrawler.t) :
  ∃ new,
    WebCrawler.addSeeds lib stamps k seedUrls st
    = WebCrawler.with_frontier
        (foldl (λ f x, URLFrontier.addURL x f) (WebCrawler.urlFrontier st) new)
        st ∧
    map url new
    = filter (λ l, URLFilter.isValidURL lib (WebCrawler.urlFilter st) l = true)
        seedUrls ∧
    Forall (λ x, priority x = 4 ∧ depth x = 0) new.
Proof.
  revert k st. induction seedUrls as [|l ls IH]; intros k st; simpl.
  - exists []. simpl. rewrite with_frontier_same. by split_and!.
  - destruct (URLFilter.isValidURL lib (WebCrawler.urlFilter st) l) eqn:Hvalid.
    + destruct (IH (S k)
                  (WebCrawler.with_frontier
                     (URLFrontier.addURL (WebCrawler.seedInfo lib (stamps k) l)
                        (WebCrawler.urlFrontier st)) st))
        as (new & -> & Hurls & Hnew).
      exists (WebCrawler.seedInfo lib (stamps k) l :: new).
      split_and!; [done| |by constructor].
      rewrite filter_cons_True by done. simpl. by rewrite Hurls.
    + destruct (IH (S k) st) as (new & -> & Hurls & Hnew).
      exists new. split_and!; [done| |done].
      rewrite filter_cons_False; [done|]. congruence.
Qed.

(** ** The state of the crawler throughout a run *)

Lemma crawler_ok_new (cfg : CrawlConfig) : crawler_ok (WebCrawler.new cfg).
Proof.
  split_and!.
  - apply wf_new.
  - apply hosts_wf_new.
  - constructor.
  - apply storage_ok_new.
  - apply hashes_ok_new.
Qed.

Lemma crawler_ok_with_frontier (f : URLFrontier.t) (st : WebCrawler.t) :
  frontier_wf f → hosts_wf f → crawler_ok st →
  crawler_ok (WebCrawler.with_frontier f st).
Proof. intros Hf Hh (_ & _ & ? & ? & ?). by split_and!. Qed.

Lemma crawler_ok_mark_visited (u : string) (st : WebCrawler.t) :
  crawler_ok st → crawler_ok (WebCrawler.mark_visited u st).
Proof.
  intros (? & ? & ? & ? & ?). split_and!; try done.
  by apply NoDup_add.
Qed.

Lemma crawler_ok_addSeeds (lib : Library) (stamps : nat → Z)
    (seedUrls : list string) (k : nat) (st : WebCrawler.t) :
  crawler_ok st → crawler_ok (WebCrawler.addSeeds lib stamps k seedUrls st).
Proof.
  intros Hok. destruct (addSeeds_spec lib stamps seedUrls k st)
    as (new & -> & _).
  apply crawler_ok_with_frontier; [| |done].
  - apply wf_addURLs, Hok.
  - apply hosts_wf_addURLs, Hok.
Qed.

Lemma crawler_ok_addLinks (lib : Library) (u : URLInfo) (stamps : nat → Z)
    (ls : list string) (k : nat) (st : WebCrawler.t) :
  crawler_ok st → crawler_ok (WebCrawler.addLinks lib u stamps k ls st).
Proof.
  intros Hok. destruct (addLinks_spec lib u stamps ls k st)
    as (new & -> & _).
  apply crawler_ok_with_frontier; [| |done].
  - apply wf_addURLs, Hok.
  - apply hosts_wf_addURLs, Hok.
Qed.

Lemma turn_ok (lib : Library) (ev : WebCrawler.Event)
    (st st' : WebCrawler.t) (o : WebCrawler.Outcome) :
  crawler_ok st → turn lib ev st o st' → crawler_ok st'.
Proof.
  intros Hok Hturn.
  assert (∀ r f1,
            URLFrontier.getNextURL (WebCrawler.now ev) (WebCrawler.urlFrontier st)
            = (r, f1) → frontier_wf f1 ∧ hosts_wf f1) as Hf1.
  { intros r f1 Hget.
    pose proof (wf_getNextURL (WebCrawler.now ev) (WebCrawler.urlFrontier st)
                  (proj1 Hok)) as Hwf.
    pose proof (hosts_wf_getNextURL (WebCrawler.now ev)
                  (WebCrawler.urlFrontier st) (proj1 (proj2 Hok))) as Hwf'.
    by rewrite Hget in Hwf, Hwf'. }
  destruct Hturn as [f1 Hget|u f1 Hget _|u f1 e Hget _ _ _
                    |u f1 r Hget _ _ _ _|u f1 r Hget _ _ _ Hfresh ls];
    destruct (Hf1 _ _ Hget) as [Hwf1 Hhosts1].
  - by apply crawler_ok_with_frontier.
  - by apply crawler_ok_with_frontier.
  - by apply crawler_ok_mark_visited, crawler_ok_with_frontier.
  - by apply crawler_ok_mark_visited, crawler_ok_with_frontier.
  - apply crawler_ok_addLinks.
    destruct Hok as (_ & _ & Hvis & Hsto & Hhash).
    split_and!; simpl.
    + done.
    + done.
    + by apply NoDup_add.
    + by apply storage_ok_store.
    + by apply hashes_ok_store.
Qed.

Lemma loop_ok (lib : Library) (env : nat → WebCrawler.Event)
    (n i : nat) (st : WebCrawler.t) :
  crawler_ok st → crawler_ok (WebCrawler.loop lib env n i st).2.
Proof.
  revert i st. induction n as [|n IH]; intros i st Hok; simpl; [done|].
  destruct (WebCrawler.running st); [|done].
  pose proof (iteration_turn lib (env i) st) as Hturn.
  destruct (WebCrawler.iteration lib (env i) st) as [o st'].
  specialize (IH (S i) st' (turn_ok _ _ _ _ _ Hok Hturn)).
  by destruct (WebCrawler.loop lib env n (S i) st').
Qed.

Lemma run_ok (lib : Library) (cfg : CrawlConfig) (seedStamps : nat → Z)
    (env : nat → WebCrawler.Event) (seedUrls : list string) (n : nat) :
  crawler_ok (run lib cfg seedStamps env seedUrls n).2.
Proof. apply loop_ok, crawler_ok_addSeeds, crawler_ok_new. Qed.

(** ** The URLs a frontier holds *)

Lemma insert_perm (e : PriorityQueue.Element) (items : PriorityQueue.t) :
  PriorityQueue.insert e items ≡ₚ e :: items.
Proof.
  induction items as [|x rest IH]; simpl; [done|].
  destruct (PriorityQueue.priority x <? PriorityQueue.priority e); [done|].
  rewrite IH. apply Permutation_swap.
Qed.

Lemma flat_map_tier_insert (L : list Z) (p : Z) (x : URLInfo)
    (q : PriorityQueue.t) (f : URLFrontier.t) :
  NoDup L → p ∈ L →
  map PriorityQueue.item q ≡ₚ x :: map PriorityQueue.item (URLFrontier.tier f p) →
  flat_map (λ p', map PriorityQueue.item
                    (URLFrontier.tier (URLFrontier.set_tier p q f) p')) L
  ≡ₚ x :: flat_map (λ p', map PriorityQueue.item (URLFrontier.tier f p')) L.
Proof.
  intros Hnd Hin Hq. induction L as [|p0 L IH]; simpl.
  - by apply elem_of_nil in Hin.
  - apply NoDup_cons in Hnd as [Hp0 Hnd]. rewrite tier_set_tier.
    destruct (decide (p = p0)) as [<-|Hne].
    + rewrite Hq. simpl. by rewrite flat_map_tier_other.
    + apply elem_of_cons in Hin as [?|Hin]; [done|].
      rewrite (IH Hnd Hin). by rewrite Permutation_middle.
Qed.

Lemma queued_addURL (u : URLInfo) (f : URLFrontier.t) :
  frontier_wf f → queued (URLFrontier.addURL u f) ≡ₚ u :: queued f.
Proof.
  intros Hwf. unfold queued, URLFrontier.addURL.
  change (URLFrontier.backQueues (URLFrontier.set_tier ?a ?b ?g))
    with (URLFrontier.backQueues g).
  rewrite target_level_wf by done.
  pose proof (code_tier_level (priority u)) as Hk.
  rewrite (flat_map_tier_insert [4; 3; 2; 1; 0] _ u); [done| | |].
  - apply (bool_decide_unpack _). by vm_compute.
  - rewrite !elem_of_cons. lia.
  - unfold PriorityQueue.enqueue. by rewrite insert_perm.
Qed.

Lemma queued_addURLs (new : list URLInfo) (f : URLFrontier.t) :
  frontier_wf f →
  queued (foldl (λ f x, URLFrontier.addURL x f) f new) ≡ₚ queued f ++ new.
Proof.
  revert f. induction new as [|x new IH]; intros f Hwf; simpl.
  - by rewrite app_nil_r.
  - rewrite IH by by apply wf_addURL. rewrite queued_addURL by done.
    by rewrite <- Permutation_middle.
Qed.

(** ** What a turn of the main loop changes *)

Lemma visited_addLinks (lib : Library) (u : URLInfo) (stamps : nat → Z)
    (ls : list string) (k : nat) (st : WebCrawler.t) :
  visited (WebCrawler.addLinks lib u stamps k ls st) = visited st.
Proof. by destruct (addLinks_spec lib u stamps ls k st) as (new & -> & _). Qed.

Lemma turn_visited (lib : Library) (ev : WebCrawler.Event)
    (st st' : WebCrawler.t) (o : WebCrawler.Outcome) :
  turn lib ev st o st' →
  visited st'
  = match fetched o with
    | Some u => StringSet.add (url u) (visited st)
    | None => visited st
    end.
Proof.
  intros [f1 Hget|u f1 Hget _|u f1 e Hget _ _ _
         |u f1 r Hget _ _ _ _|u f1 r Hget _ _ _ _ ls]; try done.
  by rewrite visited_addLinks.
Qed.

Lemma turn_fetched (lib : Library) (ev : WebCrawler.Event)
    (st st' : WebCrawler.t) (o : WebCrawler.Outcome) (u : URLInfo) :
  turn lib ev st o st' → fetched o = Some u →
  (url u ∉ visited st) ∧ depth u ≤ maxDepth (WebCrawler.config st).
Proof.
  intros [f1 Hget|u' f1 Hget _|u' f1 e Hget ? ? _
         |u' f1 r Hget ? ? _ _|u' f1 r Hget ? ? _ _ ls] [= <-]; done.
Qed.

Lemma turn_discarded (lib : Library) (ev : WebCrawler.Event)
    (st st' : WebCrawler.t) (o : WebCrawler.Outcome) (u : URLInfo) :
  turn lib ev st o st' → dispatched o = Some u →
  url u ∈ visited st ∨ maxDepth (WebCrawler.config st) < depth u →
  o = WebCrawler.Discarded u ∧
  st' = WebCrawler.with_frontier
          (URLFrontier.getNextURL (WebCrawler.now ev)
             (WebCrawler.urlFrontier st)).2 st.
Proof.
  intros [f1 Hget|u' f1 Hget _|u' f1 e Hget ? ? _
         |u' f1 r Hget ? ? _ _|u' f1 r Hget ? ? _ _ ls] [= <-] Hor;
    try (by rewrite Hget); destruct Hor; first [done|lia].
Qed.

Lemma turn_fields (lib : Library) (ev : WebCrawler.Event)
    (st st' : WebCrawler.t) (o : WebCrawler.Outcome) :
  turn lib ev st o st' →
  WebCrawler.config st' = WebCrawler.config st ∧
  WebCrawler.urlFilter st' = WebCrawler.urlFilter st ∧
  WebCrawler.crawledCount st'
  = WebCrawler.crawledCount st + (if is_stored o then 1 else 0).
Proof.
  intros [f1 Hget|u f1 Hget _|u f1 e Hget _ _ _
         |u f1 r Hget _ _ _ _|u f1 r Hget _ _ _ _ ls]; simpl;
    try (split_and!; first [done|lia]).
  destruct (addLinks_spec lib u (WebCrawler.stamp ev) ls 0
              (WebCrawler.count_page
                 (WebCrawler.mark_visited (url u)
                    (WebCrawler.store_result (WebCrawler.with_links ls r)
                       (WebCrawler.with_frontier f1 st)))))
    as (new & -> & _).
  by split_and!.
Qed.

(** ** The visited set *)

(** C4, as the program has it: after the turn of the main loop that
    consumed a URL returned by [getNextURL], the visited set still has no
    URL twice and has lost none; it has the URL when its depth is at most
    [maxDepth] (put there by this turn on a stored record, on duplicate
    content and on a failed fetch, there before on the discard of a URL
    already visited); a URL over the depth limit is discarded and the
    visited set is left as it was. *)
Theorem C4_visited_after_turn (lib : Library) (ev : WebCrawler.Event)
    (st : WebCrawler.t) (u : URLInfo) :
  NoDup (visited st) →
  dispatched (WebCrawler.iteration lib ev st).1 = Some u →
  let st' := (WebCrawler.iteration lib ev st).2 in
  NoDup (visited st') ∧
  (∀ x, x ∈ visited st → x ∈ visited st') ∧
  (depth u ≤ maxDepth (WebCrawler.config st) → url u ∈ visited st') ∧
  (maxDepth (WebCrawler.config st) < depth u → visited st' = visited st).
Proof.
  intros Hnd Hu st'. subst st'.
  pose proof (iteration_turn lib ev st) as Hturn.
  destruct (WebCrawler.iteration lib ev st) as [o st']. simpl in *.
  pose proof (turn_visited _ _ _ _ _ Hturn) as Hvis.
  destruct (fetched o) as [u'|] eqn:Hf.
  - assert (u' = u) as -> by (destruct o; simplify_eq/=; done).
    destruct (turn_fetched _ _ _ _ _ _ Hturn Hf) as [_ Hdepth].
    rewrite Hvis. split_and!.
    + by apply NoDup_add.
    + intros x Hx. apply elem_of_add. by right.
    + intros _. apply elem_of_add. by left.
    + lia.
  - rewrite Hvis. split_and!; try done.
    intros Hdepth.
    destruct Hturn as [f1 Hget|u' f1 Hget [Hin|Hlt]|u' f1 e Hget _ _ _
                      |u' f1 r Hget _ _ _ _|u' f1 r Hget _ _ _ _ ls];
      simplify_eq/=; [done|lia].
Qed.

(** C4, witness: the first turn of a crawl of [http://a.com/]. *)
Lemma C4_visited_after_turn_witness :
  let st := (run demo_lib shallow demo_stamps demo_env ["http://a.com/"] 0).2 in
  NoDup (visited st) ∧
  dispatched (WebCrawler.iteration demo_lib (demo_env 0) st).1
  = Some demo_seed ∧
  "http://a.com/" ∈ visited (WebCrawler.iteration demo_lib (demo_env 0) st).2.
Proof.
  intros st.
  assert (NoDup (visited st)) as Hnd by constructor.
  assert (dispatched (WebCrawler.iteration demo_lib (demo_env 0) st).1
          = Some demo_seed) as Hu by by vm_compute.
  split_and!; [done..|].
  destruct (C4_visited_after_turn demo_lib (demo_env 0) st demo_seed Hnd Hu)
    as (_ & _ & Hin & _).
  apply Hin. by vm_compute.
Defined.

(** C4, as the specification states it, fails: with a depth limit of 0
    the link found on the seed page is returned by [getNextURL] in the
    second turn, discarded for its depth, and is not in the visited set
    when the turn ends. *)
Lemma C4_counterexample :
  ¬ visited_after_turn demo_lib (demo_env 1) c4_state.
Proof.
  intros H. specialize (H demo_link).
  assert (dispatched (WebCrawler.iteration demo_lib (demo_env 1) c4_state).1
          = Some demo_link) as Hu by by vm_compute.
  apply H in Hu.
  assert (visited (WebCrawler.iteration demo_lib (demo_env 1) c4_state).2
          = ["http://a.com/"]) as Hvis by by vm_compute.
  rewrite Hvis in Hu. apply list_elem_of_singleton in Hu. discriminate Hu.
Qed.

(** ** No second fetch *)

Lemma fetched_urls_cons (o : WebCrawler.Outcome) (os : list WebCrawler.Outcome) :
  fetched_urls (o :: os)
  = match fetched o with
    | Some u => url u :: fetched_urls os
    | None => fetched_urls os
    end.
Proof. unfold fetched_urls. simpl. by destruct (fetched o). Qed.

Lemma loop_fetched (lib : Library) (env : nat → WebCrawler.Event)
    (n i : nat) (st : WebCrawler.t) :
  let r := WebCrawler.loop lib env n i st in
  (∀ x, x ∈ visited st → x ∈ visited r.2) ∧
  NoDup (fetched_urls r.1) ∧
  (∀ x, x ∈ fetched_urls r.1 → (x ∉ visited st) ∧ x ∈ visited r.2).
Proof.
  revert i st. induction n as [|n IH]; intros i st; simpl.
  { split_and!; [done|constructor|by intros x ?%elem_of_nil]. }
  destruct (WebCrawler.running st);
    [|split_and!; [done|constructor|by intros x ?%elem_of_nil]].
  pose proof (iteration_turn lib (env i) st) as Hturn.
  destruct (WebCrawler.iteration lib (env i) st) as [o st'].
  simpl in Hturn.
  specialize (IH (S i) st').
  destruct (WebCrawler.loop lib env n (S i) st') as [os st''].
  cbn [fst snd] in *. destruct IH as (Hmono & Hnd & Hfetched).
  pose proof (turn_visited _ _ _ _ _ Hturn) as Hvis.
  rewrite fetched_urls_cons.
  destruct (fetched o) as [u|] eqn:Hf.
  - destruct (turn_fetched _ _ _ _ _ _ Hturn Hf) as [Hnew _].
    assert (∀ x, x ∈ visited st → x ∈ visited st') as Hstep.
    { intros x Hx. rewrite Hvis. apply elem_of_add. by right. }
    assert (url u ∈ visited st') as Hu.
    { rewrite Hvis. apply elem_of_add. by left. }
    split_and!.
    + auto.
    + apply NoDup_cons. split; [|done].
      intros Hin. by apply Hfetched in Hin as [? _].
    + intros x [->|Hx]%elem_of_cons; [auto|].
      apply Hfetched in Hx as [Hx ?]. split; [|done].
      intros Hin. by apply Hx, Hstep.
  - rewrite Hvis in *. split_and!; auto.
Qed.

(** C5, as the program has it: in every run the visited set has no URL
    twice; a URL that [getNextURL] returns while it is in the visited
    set (the frontier does hold a URL that was enqueued twice) is
    discarded before the downloader is called, nothing but the frontier
    changing; and so no URL is fetched twice in a run, every URL fetched
    being in the visited set. *)
Theorem C5_no_second_fetch (lib : Library) (cfg : CrawlConfig)
    (seedStamps : nat → Z) (env : nat → WebCrawler.Event)
    (seedUrls : list string) (n : nat) (u : URLInfo) :
  let r := run lib cfg seedStamps env seedUrls n in
  NoDup (visited r.2) ∧
  NoDup (fetched_urls r.1) ∧
  (∀ x, x ∈ fetched_urls r.1 → x ∈ visited r.2) ∧
  (dispatched (WebCrawler.iteration lib (env n) r.2).1 = Some u →
   url u ∈ visited r.2 →
   WebCrawler.iteration lib (env n) r.2
   = (WebCrawler.Discarded u,
      WebCrawler.with_frontier
        (URLFrontier.getNextURL (WebCrawler.now (env n))
           (WebCrawler.urlFrontier r.2)).2 r.2)).
Proof.
  intros r. split_and!.
  - apply run_ok.
  - apply loop_fetched.
  - intros x Hx. by apply loop_fetched in Hx as [_ ?].
  - intros Hu Hin.
    pose proof (iteration_turn lib (env n) r.2) as Hturn.
    destruct (WebCrawler.iteration lib (env n) r.2) as [o st'].
    cbn [fst snd] in *.
    by destruct (turn_discarded _ _ _ _ _ _ Hturn Hu (or_introl Hin))
      as [-> ->].
Qed.

(** C5, witness: the second turn of a crawl whose seeds name one URL
    twice. *)
Lemma C5_no_second_fetch_witness :
  dispatched (WebCrawler.iteration demo_lib (demo_env 1) c5_state).1
  = Some demo_seed ∧
  url demo_seed ∈ visited c5_state ∧
  (WebCrawler.iteration demo_lib (demo_env 1) c5_state).1
  = WebCrawler.Discarded demo_seed.
Proof.
  assert (dispatched (WebCrawler.iteration demo_lib (demo_env 1) c5_state).1
          = Some demo_seed) as Hu by by vm_compute.
  assert (url demo_seed ∈ visited c5_state) as Hin
    by (apply (bool_decide_unpack _); by vm_compute).
  split_and!; [done..|].
  destruct (C5_no_second_fetch demo_lib WebCrawler.defaults demo_stamps
              demo_env ["http://a.com/"; "http://a.com/"] 1 demo_seed)
    as (_ & _ & _ & Hdiscard).
  fold c5_state in Hdiscard.
  by rewrite (Hdiscard Hu Hin).
Defined.

(** C5, as the specification states it, fails: when the seeds name
    [http://a.com/] twice, the second turn of the main loop gets it from
    [getNextURL] while it is in the visited set. *)
Lemma C5_counterexample :
  ¬ never_dispatches_visited demo_lib (demo_env 1) c5_state.
Proof.
  intros H. apply (H demo_seed).
  - by vm_compute.
  - apply (bool_decide_unpack _). by vm_compute.
Qed.

(** ** The main loop *)

Lemma loop_stopped (lib : Library) (env : nat → WebCrawler.Event)
    (n i : nat) (st : WebCrawler.t) :
  WebCrawler.running st = false → WebCrawler.loop lib env n i st = ([], st).
Proof. intros H. destruct n; simpl; [done|]. by rewrite H. Qed.

Lemma loop_app (lib : Library) (env : nat → WebCrawler.Event)
    (n m i : nat) (st : WebCrawler.t) :
  WebCrawler.loop lib env (n + m) i st
  = let r := WebCrawler.loop lib env n i st in
    let r' := WebCrawler.loop lib env m (i + length r.1) r.2 in
    (r.1 ++ r'.1, r'.2).
Proof.
  revert i st. induction n as [|n IH]; intros i st; simpl.
  - rewrite Nat.add_0_r. by destruct (WebCrawler.loop lib env m i st).
  - destruct (WebCrawler.running st) eqn:Hrun.
    + destruct (WebCrawler.iteration lib (env i) st) as [o st'].
      rewrite IH.
      destruct (WebCrawler.loop lib env n (S i) st') as [os st'']. simpl.
      by replace (i + S (length os))%nat with (S (i + length os)) by lia.
    + simpl. by rewrite loop_stopped.
Qed.

Lemma loop_fields (lib : Library) (env : nat → WebCrawler.Event)
    (n i : nat) (st : WebCrawler.t) :
  let r := WebCrawler.loop lib env n i st in
  WebCrawler.config r.2 = WebCrawler.config st ∧
  WebCrawler.urlFilter r.2 = WebCrawler.urlFilter st ∧
  WebCrawler.crawledCount r.2
  = WebCrawler.crawledCount st + Z.of_nat (length (filter is_stored r.1)) ∧
  WebCrawler.crawledCount r.2
  ≤ Z.max (WebCrawler.crawledCount st) (maxPages (WebCrawler.config st)) ∧
  Forall (λ o, ∀ u, fetched o = Some u →
                    depth u ≤ maxDepth (WebCrawler.config st)) r.1.
Proof.
  revert i st. induction n as [|n IH]; intros i st; simpl.
  { split_and!; try done; lia. }
  destruct (WebCrawler.running st) eqn:Hrun;
    [|simpl; split_and!; try done; lia].
  pose proof (iteration_turn lib (env i) st) as Hturn.
  destruct (WebCrawler.iteration lib (env i) st) as [o st'].
  cbn [fst snd] in Hturn.
  specialize (IH (S i) st').
  destruct (WebCrawler.loop lib env n (S i) st') as [os st''].
  cbn [fst snd] in *.
  destruct IH as (Hcfg & Hflt & Hcount & Hbound & Hdepth).
  destruct (turn_fields _ _ _ _ _ Hturn) as (Hcfg' & Hflt' & Hcount').
  unfold WebCrawler.running in Hrun.
  apply andb_true_iff in Hrun as [_ Hlt%Z.ltb_lt].
  rewrite Hcfg' in *.
  split_and!; try congruence.
  - rewrite Hcount, Hcount', filter_cons.
    destruct (is_stored o); simpl; lia.
  - destruct (is_stored o); lia.
  - constructor; [|done]. intros u Hu.
    by destruct (turn_fetched _ _ _ _ _ _ Hturn Hu).
Qed.

Lemma addSeeds_fields (lib : Library) (stamps : nat → Z)
    (seedUrls : list string) (k : nat) (st : WebCrawler.t) :
  let st' := WebCrawler.addSeeds lib stamps k seedUrls st in
  WebCrawler.config st' = WebCrawler.config st ∧
  WebCrawler.urlFilter st' = WebCrawler.urlFilter st ∧
  WebCrawler.crawledCount st' = WebCrawler.crawledCount st ∧
  visited st' = visited st ∧
  WebCrawler.contentStorage st' = WebCrawler.contentStorage st.
Proof. by destruct (addSeeds_spec lib stamps seedUrls k st) as (new & -> & _). Qed.

(** ** Depth limit and page budget *)

(** C6: in every run of the crawler no URL deeper than [maxDepth] is
    fetched; a URL of depth [maxDepth + 1] that [getNextURL] returns is
    discarded, the downloader is not called and nothing but the frontier
    changes; the count of pages is the number of records stored and,
    for a budget that is not negative, never exceeds [maxPages]; and
    once the count has reached [maxPages] the main loop makes no further
    turn, whatever the frontier holds, and [crawl] returns the results. *)
Theorem C6_depth_and_budget (lib : Library) (cfg : CrawlConfig)
    (seedStamps : nat → Z) (env : nat → WebCrawler.Event)
    (seedUrls : list string) (n : nat) (u : URLInfo) :
  let r := run lib cfg seedStamps env seedUrls n in
  Forall (λ o, ∀ u', fetched o = Some u' → depth u' ≤ maxDepth cfg) r.1 ∧
  (dispatched (WebCrawler.iteration lib (env n) r.2).1 = Some u →
   depth u = maxDepth cfg + 1 →
   WebCrawler.iteration lib (env n) r.2
   = (WebCrawler.Discarded u,
      WebCrawler.with_frontier
        (URLFrontier.getNextURL (WebCrawler.now (env n))
           (WebCrawler.urlFrontier r.2)).2 r.2)) ∧
  WebCrawler.crawledCount r.2 = Z.of_nat (length (filter is_stored r.1)) ∧
  (0 ≤ maxPages cfg → WebCrawler.crawledCount r.2 ≤ maxPages cfg) ∧
  (maxPages cfg ≤ WebCrawler.crawledCount r.2 →
   (∀ m, run lib cfg seedStamps env seedUrls (n + m) = r) ∧
   WebCrawler.crawl lib seedStamps env n seedUrls (WebCrawler.new cfg)
   = Some (results r.2)).
Proof.
  intros r.
  pose proof (loop_fields lib env n 0
                (WebCrawler.addSeeds lib seedStamps 0 seedUrls
                   (WebCrawler.new cfg))) as Hloop.
  destruct (addSeeds_fields lib seedStamps seedUrls 0 (WebCrawler.new cfg))
    as (Hcfg0 & _ & Hcount0 & _).
  fold (run lib cfg seedStamps env seedUrls n) in Hloop. fold r in Hloop.
  cbn zeta in Hloop. rewrite Hcfg0, Hcount0 in Hloop. simpl in Hloop.
  destruct Hloop as (Hcfg & _ & Hcount & Hbound & Hdepth).
  assert (maxPages cfg ≤ WebCrawler.crawledCount r.2 →
          WebCrawler.running r.2 = false) as Hstop.
  { intros Hle. unfold WebCrawler.running. rewrite Hcfg.
    apply andb_false_iff. right. by apply Z.ltb_ge. }
  split_and!.
  - done.
  - intros Hu Hdeep.
    pose proof (iteration_turn lib (env n) r.2) as Hturn.
    destruct (WebCrawler.iteration lib (env n) r.2) as [o st'].
    cbn [fst snd] in *.
    assert (maxDepth (WebCrawler.config r.2) < depth u) as Hlt
      by (rewrite Hcfg; lia).
    by destruct (turn_discarded _ _ _ _ _ _ Hturn Hu (or_intror Hlt))
      as [-> ->].
  - lia.
  - lia.
  - intros Hle. split.
    + intros m. unfold run. rewrite loop_app. cbn zeta.
      fold (run lib cfg seedStamps env seedUrls n). fold r.
      rewrite loop_stopped by auto. simpl. rewrite app_nil_r.
      by destruct r.
    + unfold WebCrawler.crawl.
      fold (run lib cfg seedStamps env seedUrls n). fold r.
      destruct r as [os st']. simpl in *. by rewrite Hstop.
Qed.

(** C6, witness: with a depth limit of 0 the link of depth 1 is discarded
    in the second turn; with a budget of one page the loop stops after
    the first turn although the frontier holds that link. *)
Lemma C6_depth_and_budget_witness :
  (WebCrawler.iteration demo_lib (demo_env 1) c4_state).1
  = WebCrawler.Discarded demo_link ∧
  URLFrontier.isEmpty
    (WebCrawler.urlFrontier
       (run demo_lib one_page demo_stamps demo_env ["http://a.com/"] 1).2)
  = false ∧
  WebCrawler.crawl demo_lib demo_stamps demo_env 1 ["http://a.com/"]
    (WebCrawler.new one_page)
  = Some [demo_record].
Proof.
  split_and!.
  - destruct (C6_depth_and_budget demo_lib shallow demo_stamps demo_env
                ["http://a.com/"] 1 demo_link) as (_ & Hdeep & _).
    fold c4_state in Hdeep. rewrite Hdeep; [done|by vm_compute|by vm_compute].
  - by vm_compute.
  - destruct (C6_depth_and_budget demo_lib one_page demo_stamps demo_env
                ["http://a.com/"] 1 demo_link) as (_ & _ & _ & _ & Hstop).
    destruct Hstop as [_ ->]; [by vm_compute|]. by vm_compute.
Defined.

(** ** Links of a stored page *)

(** C7: when a turn of the main loop stores a page, the links of the
    record are those the parser extracted from it, and the URLs the turn
    enqueues are, in order, those of the links that pass [isValidURL] and
    are not in the visited set (which by then has the URL of the page
    itself), each with priority [max(0, parent priority - 1)] and depth
    [parent depth + 1]; the frontier holds them and what it held after
    the dispatch, nothing else. *)
Theorem C7_links_enqueued (lib : Library) (ev : WebCrawler.Event)
    (st : WebCrawler.t) (u : URLInfo) (r : CrawlResult) :
  frontier_wf (WebCrawler.urlFrontier st) →
  (WebCrawler.iteration lib ev st).1 = WebCrawler.Stored u r →
  let f1 := (URLFrontier.getNextURL (WebCrawler.now ev)
               (WebCrawler.urlFrontier st)).2 in
  let st' := (WebCrawler.iteration lib ev st).2 in
  links r = parseHTML lib (content r) (url u) ∧
  visited st' = StringSet.add (url u) (visited st) ∧
  ∃ new,
    WebCrawler.urlFrontier st'
    = foldl (λ f x, URLFrontier.addURL x f) f1 new ∧
    queued (WebCrawler.urlFrontier st') ≡ₚ queued f1 ++ new ∧
    map url new
    = filter (λ l, URLFilter.isValidURL lib (WebCrawler.urlFilter st) l = true
                   ∧ l ∉ visited st') (links r) ∧
    Forall (λ x, priority x = Z.max 0 (priority u - 1) ∧
                 depth x = depth u + 1) new.
Proof.
  intros Hwf Hstored f1 st'. subst f1 st'.
  pose proof (iteration_turn lib ev st) as Hturn.
  pose proof (wf_getNextURL (WebCrawler.now ev) _ Hwf) as Hwf1.
  destruct (WebCrawler.iteration lib ev st) as [o st']. simpl in *. subst o.
  inversion Hturn as [| | | |u' f1 r' Hget Hnew Hdepth Hdl Hfresh ls];
    subst; clear Hturn.
  rewrite Hget in *. simpl in *.
  destruct (addLinks_spec lib u (WebCrawler.stamp ev) ls 0
              (WebCrawler.count_page
                 (WebCrawler.mark_visited (url u)
                    (WebCrawler.store_result (WebCrawler.with_links ls r')
                       (WebCrawler.with_frontier f1 st)))))
    as (new & -> & Hurls & Hnew').
  simpl in *. split_and!; try done.
  exists new. split_and!; try done.
  - by apply queued_addURLs.
  - eapply Forall_impl; [exact Hnew'|]. simpl. tauto.
Qed.

(** C7, witness: the first turn of a crawl of [http://a.com/] stores the
    page and enqueues its one link. *)
Lemma C7_links_enqueued_witness :
  let st := (run demo_lib WebCrawler.defaults demo_stamps demo_env
               ["http://a.com/"] 0).2 in
  (WebCrawler.iteration demo_lib (demo_env 0) st).1
  = WebCrawler.Stored demo_seed demo_record ∧
  ∃ new,
    queued (WebCrawler.urlFrontier
              (WebCrawler.iteration demo_lib (demo_env 0) st).2)
    ≡ₚ new ∧
    map url new = ["http://a.com/b.html"].
Proof.
  intros st.
  assert ((WebCrawler.iteration demo_lib (demo_env 0) st).1
          = WebCrawler.Stored demo_seed demo_record) as Hstored
    by by vm_compute.
  split; [done|].
  destruct (C7_links_enqueued demo_lib (demo_env 0) st demo_seed demo_record)
    as (_ & _ & new & _ & Hperm & Hurls & _); [|done|].
  { apply crawler_ok_addSeeds, crawler_ok_new. }
  exists new. split.
  - rewrite Hperm. by vm_compute.
  - rewrite Hurls. by vm_compute.
Defined.

(** ** Duplicate content *)

Lemma iteration_duplicate (lib : Library) (ev : WebCrawler.Event)
    (st : WebCrawler.t) (u : URLInfo) (f1 : URLFrontier.t) (r : CrawlResult) :
  URLFrontier.getNextURL (WebCrawler.now ev) (WebCrawler.urlFrontier st)
  = (Some u, f1) →
  url u ∉ visited st →
  depth u ≤ maxDepth (WebCrawler.config st) →
  HTMLDownloader.download lib (WebCrawler.net ev)
    (timeout (WebCrawler.config st)) (userAgent (WebCrawler.config st))
    (url u) (respectRobots (WebCrawler.config st)) = inr r →
  hash r ∈ ContentStorage.seenHashes (WebCrawler.contentStorage st) →
  WebCrawler.iteration lib ev st
  = (WebCrawler.Duplicate u r,
     WebCrawler.mark_visited (url u) (WebCrawler.with_frontier f1 st)).
Proof.
  intros Hget Hnew%has_false Hdepth%Z.ltb_ge Hdl Hseen%has_true.
  unfold WebCrawler.iteration. rewrite Hget. cbn zeta.
  change (WebCrawler.urlStorage (WebCrawler.with_frontier f1 st))
    with (WebCrawler.urlStorage st).
  change (WebCrawler.config (WebCrawler.with_frontier f1 st))
    with (WebCrawler.config st).
  change (WebCrawler.contentStorage (WebCrawler.with_frontier f1 st))
    with (WebCrawler.contentStorage st).
  unfold URLStorage.isURLSeen, ContentStorage.isContentSeen.
  fold (visited st). by rewrite Hnew, Hdepth, Hdl, Hseen.
Qed.

(** C8: in every run of the crawler no two records of the result
    collection have the same fingerprint; and when the body fetched for
    a URL has a fingerprint already seen, the turn marks the URL visited
    and does nothing else: no record is stored, the fingerprints seen
    and the count of pages are unchanged, and the frontier is the one
    the dispatch left, no link having been enqueued. *)
Theorem C8_content_dedup (lib : Library) (cfg : CrawlConfig)
    (seedStamps : nat → Z) (env : nat → WebCrawler.Event)
    (seedUrls : list string) (n : nat)
    (u : URLInfo) (f1 : URLFrontier.t) (r : CrawlResult) :
  let st := (run lib cfg seedStamps env seedUrls n).2 in
  NoDup (map hash (results st)) ∧
  (URLFrontier.getNextURL (WebCrawler.now (env n)) (WebCrawler.urlFrontier st)
   = (Some u, f1) →
   url u ∉ visited st →
   depth u ≤ maxDepth (WebCrawler.config st) →
   HTMLDownloader.download lib (WebCrawler.net (env n))
     (timeout (WebCrawler.config st)) (userAgent (WebCrawler.config st))
     (url u) (respectRobots (WebCrawler.config st)) = inr r →
   hash r ∈ ContentStorage.seenHashes (WebCrawler.contentStorage st) →
   let st' := (WebCrawler.iteration lib (env n) st).2 in
   (WebCrawler.iteration lib (env n) st).1 = WebCrawler.Duplicate u r ∧
   visited st' = StringSet.add (url u) (visited st) ∧
   WebCrawler.contentStorage st' = WebCrawler.contentStorage st ∧
   WebCrawler.crawledCount st' = WebCrawler.crawledCount st ∧
   WebCrawler.urlFrontier st' = f1).
Proof.
  intros st. split.
  - apply (run_ok lib cfg seedStamps env seedUrls n).
  - intros Hget Hnew Hdepth Hdl Hseen st'. subst st'.
    by rewrite (iteration_duplicate lib (env n) st u f1 r).
Qed.

(** C8, witness: [http://b.org/] has the body of [http://a.com/], which
    was stored in the first turn; the second turn stores nothing. *)
Lemma C8_content_dedup_witness :
  (WebCrawler.iteration demo_lib (demo_env 1) c8_state).1
  = WebCrawler.Duplicate demo_seed_b demo_record_b ∧
  results (WebCrawler.iteration demo_lib (demo_env 1) c8_state).2
  = [demo_record].
Proof.
  destruct (C8_content_dedup demo_lib WebCrawler.defaults demo_stamps
              demo_env ["http://a.com/"; "http://b.org/"] 1 demo_seed_b
              (URLFrontier.getNextURL (WebCrawler.now (demo_env 1))
                 (WebCrawler.urlFrontier c8_state)).2
              demo_record_b) as [_ Hdup].
  fold c8_state in Hdup.
  destruct Hdup as (Ho & _ & Hcs & _).
  - by vm_compute.
  - apply (bool_decide_unpack _). by vm_compute.
  - by vm_compute.
  - by vm_compute.
  - apply (bool_decide_unpack _). by vm_compute.
  - split; [done|]. unfold results. rewrite Hcs. by vm_compute.
Defined.

(** ** One record per URL *)

(** C10: the result collection holds at most one record per URL.  After
    any sequence of [store], [getAllResults] has no two records of one
    URL; [store] of a record whose URL is already a key leaves the number
    of records unchanged and makes the new record the one of that URL;
    and the results of every run of the crawler have different URLs. *)
Theorem C10_one_record_per_url (rs : list CrawlResult) (r : CrawlResult)
    (lib : Library) (cfg : CrawlConfig)
    (seedStamps : nat → Z) (env : nat → WebCrawler.Event)
    (seedUrls : list string) (n : nat) :
  NoDup (map r_url (ContentStorage.getAllResults (stores rs))) ∧
  (r_url r ∈ map r_url (ContentStorage.getAllResults (stores rs)) →
   length (ContentStorage.getAllResults (ContentStorage.store r (stores rs)))
   = length (ContentStorage.getAllResults (stores rs)) ∧
   ContentStorage.get (r_url r) (ContentStorage.store r (stores rs))
   = Some r) ∧
  NoDup (map r_url (results (run lib cfg seedStamps env seedUrls n).2)).
Proof.
  split_and!.
  - rewrite urls_of_storage by apply storage_ok_stores.
    apply storage_ok_stores.
  - intros Hin.
    rewrite urls_of_storage in Hin by apply storage_ok_stores.
    split.
    + by apply length_values_set.
    + apply get_set_eq.
  - destruct (run_ok lib cfg seedStamps env seedUrls n)
      as (_ & _ & _ & Hsto & _).
    unfold results. rewrite urls_of_storage by done. apply Hsto.
Qed.

(** C10, witness: a second record of [http://a.com/] takes the place of
    the first. *)
Lemma C10_one_record_per_url_witness :
  ContentStorage.getAllResults
    (ContentStorage.store demo_record_later (stores [demo_record]))
  = [demo_record_later].
Proof.
  destruct (C10_one_record_per_url [demo_record] demo_record_later demo_lib
              WebCrawler.defaults demo_stamps demo_env [] 0)
    as (_ & Hreplace & _).
  destruct Hreplace as [Hlen Hget].
  - apply (bool_decide_unpack _). by vm_compute.
  - by vm_compute.
Defined.

(** ** An empty frontier *)

Lemma isEmpty_queued (f : URLFrontier.t) :
  frontier_wf f → URLFrontier.isEmpty f = true ↔ queued f = [].
Proof.
  intros [Hlevels _]. unfold URLFrontier.isEmpty, queued.
  rewrite andb_true_iff, !forallb_forall.
  split.
  - intros [Hfront Hback]. apply app_nil. split.
    + assert (∀ p, 0 ≤ p ≤ 4 → URLFrontier.tier f p = []) as Htier.
      { intros p Hp. apply Hlevels in Hp as [q Hq].
        unfold URLFrontier.tier. rewrite Hq. simpl.
        assert (PriorityQueue.isEmpty q = true) as Hempty.
        { apply Hfront. apply in_map_iff. exists (p, q). split; [done|].
          apply list_elem_of_In. by apply elem_of_map_to_list. }
        by destruct q. }
      simpl. rewrite !Htier by lia. done.
    + induction (OrderedMap.values (URLFrontier.backQueues f)) as [|q qs IH];
        simpl; [done|].
      assert (q = []) as ->.
      { eapply bool_decide_eq_true. apply Hback. by left. }
      apply IH. intros x Hx. apply Hback. by right.
  - intros [Hfront Hback]%app_nil. split.
    + intros q ((p & q') & <- & Hin)%in_map_iff. simpl.
      apply list_elem_of_In, elem_of_map_to_list in Hin.
      assert (0 ≤ p ≤ 4) as Hp by (apply Hlevels; by eexists).
      assert (URLFrontier.tier f p = q') as Htier
        by (unfold URLFrontier.tier; by rewrite Hin).
      assert (map PriorityQueue.item (URLFrontier.tier f p) = []) as Hnil.
      { simpl in Hfront. rewrite app_nil_r in Hfront.
        assert (p = 4 ∨ p = 3 ∨ p = 2 ∨ p = 1 ∨ p = 0) as Hcases by lia.
        repeat (apply app_nil in Hfront as [? Hfront]).
        destruct Hcases as [->|[->|[->|[->| ->]]]]; done. }
      rewrite Htier in Hnil. by destruct q'.
    + intros q Hq. apply bool_decide_eq_true.
      clear Hfront.
      induction (OrderedMap.values (URLFrontier.backQueues f)) as [|q0 qs IH];
        simpl in *; [done|].
      apply app_nil in Hback as [-> Hback].
      destruct Hq as [<-|Hq]; [done|]. by apply IH.
Qed.

Lemma get_of_elem_of {K V : Type} `{EqDecision K}
    (m : OrderedMap.t K V) (k : K) (v : V) :
  NoDup (OrderedMap.keys m) → (k, v) ∈ m → OrderedMap.get k m = Some v.
Proof.
  unfold OrderedMap.keys.
  induction m as [|[k' v'] m IH]; simpl; intros Hnd Hin.
  - by apply elem_of_nil in Hin.
  - apply NoDup_cons in Hnd as [Hk' Hnd].
    apply elem_of_cons in Hin as [[= -> ->]|Hin].
    + by rewrite decide_True.
    + rewrite decide_False; [by apply IH|].
      intros ->. apply Hk'. by apply (list_elem_of_fmap_2 fst _ (k, v)).
Qed.

Lemma concat_values_nonempty {K A : Type} (m : OrderedMap.t K (list A)) :
  concat (OrderedMap.values m) ≠ [] → ∃ k q, (k, q) ∈ m ∧ q ≠ [].
Proof.
  unfold OrderedMap.values.
  induction m as [|[k q] m IH]; simpl; [done|].
  destruct q as [|x q].
  - intros Hne. destruct (IH Hne) as (k' & q' & Hin & Hq').
    exists k', q'. split; [by apply list_elem_of_further|done].
  - intros _. exists k, (x :: q). split; [apply list_elem_of_here|done].
Qed.

(** ** Calls of [getNextURL] that return nothing, and calls that do *)

Lemma getFromBackQueue_busy (now : Z) (f : URLFrontier.t) (h : string) :
  (URLFrontier.getFromBackQueue now f).1 = None →
  holding f h ≠ [] →
  now - default 0 (URLFrontier.lastAccessTime f !! h)
  < URLFrontier.politenessDelay f.
Proof.
  intros Hnone Hh.
  destruct (getFromBackQueue_selection now f)
    as [(pre & h' & u & q & post & _ & _ & _ & Hres)|[Hblocked _]].
  { rewrite Hres in Hnone. discriminate Hnone. }
  unfold holding in Hh.
  destruct (OrderedMap.get h (URLFrontier.backQueues f)) as [q|] eqn:Hget;
    [|done].
  apply get_Some_elem_of in Hget.
  unfold blocked in Hblocked. rewrite Forall_forall in Hblocked.
  destruct (Hblocked _ Hget) as [Hq|Hbusy]; [done|].
  unfold code_eligible in Hbusy. simpl in Hbusy. lia.
Qed.

Lemma getNextURL_waits (now : Z) (f f1 : URLFrontier.t) :
  hosts_wf f →
  URLFrontier.getNextURL now f = (None, f1) →
  queued f1 ≡ₚ queued f ∧
  URLFrontier.lastAccessTime f1 = URLFrontier.lastAccessTime f ∧
  URLFrontier.politenessDelay f1 = URLFrontier.politenessDelay f ∧
  (∀ h, holding f h ≠ [] → holding f1 h ≠ []) ∧
  (queued f ≠ [] → ∃ h, holding f1 h ≠ []) ∧
  (∀ h, holding f1 h ≠ [] →
        now - default 0 (URLFrontier.lastAccessTime f !! h)
        < URLFrontier.politenessDelay f).
Proof.
  intros Hhosts. unfold URLFrontier.getNextURL.
  destruct (getNextURL_from_cases [4; 3; 2; 1; 0] now f)
    as [[Hall ->]|(hi & p & lo & e & rest & Hps & Hhi & Htier & ->)];
    intros Hget.
  - assert ((URLFrontier.getFromBackQueue now f).1 = None) as Hnone
      by by rewrite Hget.
    rewrite (getFromBackQueue_None _ _ Hnone) in Hget. simplify_eq.
    split_and!; try done.
    + intros Hne. unfold queued in Hne.
      assert (flat_map (λ p, map PriorityQueue.item (URLFrontier.tier f1 p))
                [4; 3; 2; 1; 0] = []) as Hfront.
      { simpl. repeat (apply Forall_cons in Hall as [-> Hall]). done. }
      rewrite Hfront in Hne. simpl in Hne.
      destruct (concat_values_nonempty _ Hne) as (h & q & Hin & Hq).
      exists h. unfold holding.
      by rewrite (get_of_elem_of _ _ _ Hhosts Hin).
    + intros h. by apply getFromBackQueue_busy.
  - set (f' := URLFrontier.push_back (PriorityQueue.item e)
                 (URLFrontier.set_tier p rest f)) in *.
    assert ((URLFrontier.getFromBackQueue now f').1 = None) as Hnone
      by by rewrite Hget.
    rewrite (getFromBackQueue_None _ _ Hnone) in Hget.
    injection Hget as <-.
    assert (holding f' (host (PriorityQueue.item e))
            = holding f (host (PriorityQueue.item e)) ++ [PriorityQueue.item e])
      as Hpushed
      by exact (holding_push_back _ (URLFrontier.set_tier p rest f)).
    split_and!; try done.
    + apply queued_promote; [by eapply levels_range|done].
    + intros h Hh.
      destruct (decide (h = host (PriorityQueue.item e))) as [->|Hne].
      * rewrite Hpushed. by intros [_ ?]%app_nil.
      * subst f'.
        by rewrite (holding_push_back_ne _ (URLFrontier.set_tier p rest f)).
    + intros _. exists (host (PriorityQueue.item e)).
      rewrite Hpushed. by intros [_ ?]%app_nil.
    + intros h Hh. by apply (getFromBackQueue_busy now f' h).
Qed.

Lemma Permutation_pull {A : Type} (x : A) (l1 l2 l3 l4 : list A) :
  l1 ++ l2 ++ (x :: l3) ++ l4 ≡ₚ x :: l1 ++ l2 ++ l3 ++ l4.
Proof.
  rewrite (app_assoc l1 l2). simpl. rewrite <- Permutation_middle.
  by rewrite <- app_assoc.
Qed.

Lemma getFromBackQueue_queued (now : Z) (f f1 : URLFrontier.t) (u : URLInfo) :
  URLFrontier.getFromBackQueue now f = (Some u, f1) →
  queued f ≡ₚ u :: queued f1.
Proof.
  intros Hget.
  destruct (getFromBackQueue_selection now f)
    as [(pre & h & u' & q & post & Hbq & _ & _ & Hres)|[_ Hres]];
    rewrite Hget in Hres; simplify_eq.
  unfold queued. cbn [URLFrontier.backQueues]. rewrite Hbq.
  change (URLFrontier.tier
            {| URLFrontier.frontQueues := URLFrontier.frontQueues f;
               URLFrontier.backQueues := pre ++ (h, q) :: post;
               URLFrontier.lastAccessTime :=
                 <[h:=now]> (URLFrontier.lastAccessTime f);
               URLFrontier.politenessDelay := URLFrontier.politenessDelay f |})
    with (URLFrontier.tier f).
  unfold OrderedMap.values. rewrite !map_app, !concat_app.
  cbn [map concat snd]. apply Permutation_pull.
Qed.

Lemma getNextURL_queued (now : Z) (f f1 : URLFrontier.t) (u : URLInfo) :
  URLFrontier.getNextURL now f = (Some u, f1) →
  queued f ≡ₚ u :: queued f1.
Proof.
  unfold URLFrontier.getNextURL.
  destruct (getNextURL_from_cases [4; 3; 2; 1; 0] now f)
    as [[Hall ->]|(hi & p & lo & e & rest & Hps & Hhi & Htier & ->)];
    intros Hget.
  - by apply getFromBackQueue_queued in Hget.
  - apply getFromBackQueue_queued in Hget. rewrite <- Hget.
    symmetry. apply queued_promote; [by eapply levels_range|done].
Qed.

(** ** Progress of the main loop *)

Lemma running_iff (st : WebCrawler.t) :
  crawler_ok st →
  WebCrawler.running st = true
  ↔ size st ≠ 0%nat ∧
    WebCrawler.crawledCount st < maxPages (WebCrawler.config st).
Proof.
  intros (Hwf & _). unfold WebCrawler.running, size.
  rewrite andb_true_iff, negb_true_iff, Z.ltb_lt.
  rewrite <- not_true_iff_false, (isEmpty_queued _ Hwf).
  by rewrite length_zero_iff_nil.
Qed.

Lemma waited_or_not (o : WebCrawler.Outcome) :
  o = WebCrawler.Waited ∨ o ≠ WebCrawler.Waited.
Proof. destruct o; [by left|by right..]. Qed.

(** A turn in which nothing was ready. *)
Lemma waited_facts (lib : Library) (ev : WebCrawler.Event)
    (st st1 : WebCrawler.t) :
  crawler_ok st → WebCrawler.running st = true →
  turn lib ev st WebCrawler.Waited st1 →
  let f := WebCrawler.urlFrontier st in
  let f1 := WebCrawler.urlFrontier st1 in
  crawler_ok st1 ∧ WebCrawler.running st1 = true ∧
  budget st1 = budget st ∧ size st1 = size st ∧
  URLFrontier.lastAccessTime f1 = URLFrontier.lastAccessTime f ∧
  URLFrontier.politenessDelay f1 = URLFrontier.politenessDelay f ∧
  (∀ h, holding f h ≠ [] → holding f1 h ≠ []) ∧
  (∃ h, holding f1 h ≠ []) ∧
  (∀ h, holding f1 h ≠ [] →
        WebCrawler.now ev - default 0 (URLFrontier.lastAccessTime f !! h)
        < URLFrontier.politenessDelay f).
Proof.
  intros Hok Hrun Hturn f f1.
  pose proof (turn_ok _ _ _ _ _ Hok Hturn) as Hok1.
  inversion Hturn as [f1' Hget| | | |]; subst. subst f f1. simpl.
  destruct (getNextURL_waits _ _ _ (proj1 (proj2 Hok)) Hget)
    as (Hperm & Hlat & Hdelay & Hkeep & Hsome & Hbusy).
  assert (size (WebCrawler.with_frontier f1' st) = size st) as Hsize
    by (unfold size; simpl; by rewrite Hperm).
  apply (running_iff _ Hok) in Hrun as [Hne Hlt].
  split_and!; try done.
  - apply running_iff; [done|]. by rewrite Hsize.
  - apply Hsome. unfold size in Hne. by rewrite length_zero_iff_nil in Hne.
Qed.

Lemma wait_step (lib : Library) (env : nat → WebCrawler.Event)
    (i k : nat) (st st1 st_k : WebCrawler.t) :
  WebCrawler.running st = true →
  WebCrawler.iteration lib (env i) st = (WebCrawler.Waited, st1) →
  WebCrawler.loop lib env k (S i) st1
  = (replicate k WebCrawler.Waited, st_k) →
  WebCrawler.loop lib env (S k) i st
  = (replicate (S k) WebCrawler.Waited, st_k).
Proof. intros Hrun Hit Hloop. simpl. by rewrite Hrun, Hit, Hloop. Qed.

(** When a host with a URL waiting is ready [m] turns from now, a URL is
    dispatched within [m] turns. *)
Lemma wait_until (lib : Library) (env : nat → WebCrawler.Event)
    (m i : nat) (st : WebCrawler.t) (h : string) :
  crawler_ok st → WebCrawler.running st = true →
  holding (WebCrawler.urlFrontier st) h ≠ [] →
  URLFrontier.politenessDelay (WebCrawler.urlFrontier st)
  ≤ WebCrawler.now (env (i + m)%nat)
    - default 0 (URLFrontier.lastAccessTime (WebCrawler.urlFrontier st) !! h) →
  ∃ k st_k,
    WebCrawler.loop lib env k i st = (replicate k WebCrawler.Waited, st_k) ∧
    crawler_ok st_k ∧ WebCrawler.running st_k = true ∧
    budget st_k = budget st ∧ size st_k = size st ∧
    (WebCrawler.iteration lib (env (i + k)%nat) st_k).1 ≠ WebCrawler.Waited.
Proof.
  revert i st. induction m as [|m IH]; intros i st Hok Hrun Hh Hready.
  - exists 0%nat, st. split_and!; try done.
    rewrite Nat.add_0_r in *.
    pose proof (iteration_turn lib (env i) st) as Hturn.
    intros Hwait. rewrite Hwait in Hturn.
    destruct (waited_facts _ _ _ _ Hok Hrun Hturn)
      as (_ & _ & _ & _ & _ & _ & Hkeep & _ & Hbusy).
    specialize (Hbusy h (Hkeep h Hh)). lia.
  - pose proof (iteration_turn lib (env i) st) as Hturn.
    destruct (WebCrawler.iteration lib (env i) st) as [o st1] eqn:Hit.
    cbn [fst snd] in Hturn.
    destruct (waited_or_not o) as [->|Hne].
    + destruct (waited_facts _ _ _ _ Hok Hrun Hturn)
        as (Hok1 & Hrun1 & Hbudget & Hsize & Hlat & Hdelay & Hkeep & _ & _).
      destruct (IH (S i) st1 Hok1 Hrun1 (Hkeep h Hh))
        as (k & st_k & Hloop & Hok_k & Hrun_k & Hb & Hs & Hnext).
      { rewrite Hlat, Hdelay. by rewrite Nat.add_succ_r in Hready. }
      exists (S k), st_k. split_and!; try done; try congruence.
      * by eapply wait_step.
      * by rewrite Nat.add_succ_r.
    + exists 0%nat, st. split_and!; try done.
      rewrite Nat.add_0_r, Hit. done.
Qed.

(** With a clock that advances, a running loop dispatches a URL after
    finitely many turns of waiting. *)
Lemma eventually_dispatch (lib : Library) (env : nat → WebCrawler.Event)
    (i : nat) (st : WebCrawler.t) :
  clock_advances env →
  crawler_ok st → WebCrawler.running st = true →
  ∃ k st_k,
    WebCrawler.loop lib env k i st = (replicate k WebCrawler.Waited, st_k) ∧
    crawler_ok st_k ∧ WebCrawler.running st_k = true ∧
    budget st_k = budget st ∧ size st_k = size st ∧
    (WebCrawler.iteration lib (env (i + k)%nat) st_k).1 ≠ WebCrawler.Waited.
Proof.
  intros Hclock Hok Hrun.
  pose proof (iteration_turn lib (env i) st) as Hturn.
  destruct (WebCrawler.iteration lib (env i) st) as [o st1] eqn:Hit.
  cbn [fst snd] in Hturn.
  destruct (waited_or_not o) as [->|Hne].
  - destruct (waited_facts _ _ _ _ Hok Hrun Hturn)
      as (Hok1 & Hrun1 & Hbudget & Hsize & _ & _ & _ & [h Hh] & _).
    destruct (Hclock
                (URLFrontier.politenessDelay (WebCrawler.urlFrontier st1)
                 + default 0 (URLFrontier.lastAccessTime
                                (WebCrawler.urlFrontier st1) !! h))
                (S i)) as (j & Hj & Hready).
    destruct (wait_until lib env (j - S i) (S i) st1 h Hok1 Hrun1 Hh)
      as (k & st_k & Hloop & Hok_k & Hrun_k & Hb & Hs & Hnext).
    { replace (S i + (j - S i))%nat with j by lia. lia. }
    exists (S k), st_k. split_and!; try done; try congruence.
    + by eapply wait_step.
    + by rewrite Nat.add_succ_r.
  - exists 0%nat, st. split_and!; try done.
    rewrite Nat.add_0_r, Hit. done.
Qed.

(** A turn that dispatches a URL uses up budget or shrinks the
    frontier. *)
Lemma turn_measure (lib : Library) (ev : WebCrawler.Event)
    (st st' : WebCrawler.t) (o : WebCrawler.Outcome) :
  WebCrawler.running st = true →
  turn lib ev st o st' → o ≠ WebCrawler.Waited →
  (budget st' < budget st)%nat
  ∨ (budget st' = budget st ∧ (size st' < size st)%nat).
Proof.
  intros Hrun Hturn Hne.
  unfold WebCrawler.running in Hrun.
  apply andb_true_iff in Hrun as [_ Hlt%Z.ltb_lt].
  destruct (turn_fields _ _ _ _ _ Hturn) as (Hcfg & _ & Hcount).
  assert (∀ u f1,
            URLFrontier.getNextURL (WebCrawler.now ev) (WebCrawler.urlFrontier st)
            = (Some u, f1) →
            (length (queued f1) < size st)%nat) as Hshrink.
  { intros u f1 Hget. unfold size.
    rewrite (getNextURL_queued _ _ _ _ Hget). simpl. lia. }
  unfold budget. rewrite Hcfg, Hcount.
  destruct Hturn as [f1 Hget|u f1 Hget _|u f1 e Hget _ _ _
                    |u f1 r Hget _ _ _ _|u f1 r Hget _ _ _ _ ls]; simpl.
  - done.
  - right. split; [f_equal; lia|]. by eapply Hshrink.
  - right. split; [f_equal; lia|]. by eapply Hshrink.
  - right. split; [f_equal; lia|]. by eapply Hshrink.
  - left. lia.
Qed.

(** With a clock that advances, the main loop stops. *)
Lemma loop_terminates (lib : Library) (env : nat → WebCrawler.Event) :
  clock_advances env →
  ∀ (a b i : nat) (st : WebCrawler.t),
    budget st = a → size st = b → crawler_ok st →
    ∃ n, WebCrawler.running (WebCrawler.loop lib env n i st).2 = false.
Proof.
  intros Hclock a.
  induction a as [a IHa] using lt_wf_ind. intros b.
  induction b as [b IHb] using lt_wf_ind. intros i st Ha Hb Hok.
  destruct (WebCrawler.running st) eqn:Hrun; [|by exists 0%nat].
  destruct (eventually_dispatch lib env i st Hclock Hok Hrun)
    as (k & st_k & Hloop & Hok_k & Hrun_k & Hbk & Hsk & Hnext).
  pose proof (iteration_turn lib (env (i + k)%nat) st_k) as Hturn.
  destruct (WebCrawler.iteration lib (env (i + k)%nat) st_k) as [o st']
    eqn:Hit.
  cbn [fst snd] in *.
  pose proof (turn_ok _ _ _ _ _ Hok_k Hturn) as Hok'.
  assert (∃ n, WebCrawler.running
                 (WebCrawler.loop lib env n (S (i + k)) st').2 = false)
    as [n Hn].
  { destruct (turn_measure _ _ _ _ _ Hrun_k Hturn Hnext) as [Hlt|[Heq Hlt]].
    - apply (IHa (budget st') ltac:(lia) (size st')); done.
    - apply (IHb (size st') ltac:(lia)); [congruence|done..]. }
  exists (k + S n)%nat. rewrite loop_app. cbn zeta. rewrite Hloop.
  cbn [fst snd]. rewrite length_replicate. simpl.
  rewrite Hrun_k, Hit.
  by destruct (WebCrawler.loop lib env n (S (i + k)) st').
Qed.

(** ** Failed downloads *)

Lemma download_failure (lib : Library) (net : HTMLDownloader.Network)
    (cfg : CrawlConfig) (u : string) :
  download_fails lib net cfg u →
  ∃ e, HTMLDownloader.download lib net (timeout cfg) (userAgent cfg) u
         (respectRobots cfg) = inl e.
Proof.
  intros Hcause. unfold HTMLDownloader.download.
  destruct (respectRobots cfg
            && negb (HTMLDownloader.canCrawl net u (userAgent cfg))) eqn:Hrobots;
    [by eexists|].
  destruct (parseURL lib u) as [urlObj|] eqn:Hparse; [|by eexists].
  destruct (HTMLDownloader.resolveHost net (hostname urlObj)) eqn:Hdns;
    [|by eexists].
  destruct (HTMLDownloader.fetch net u (userAgent cfg) (timeout cfg))
    as [response|] eqn:Hfetch; [|by eexists].
  destruct (negb (HTMLDownloader.ok response)) eqn:Hok; [by eexists|].
  exfalso.
  destruct Hcause as [[Hr Hc]|[(o & Ho & Hres)|[Hf|(resp & Hf & Hstatus)]]].
  - rewrite Hr, Hc in Hrobots. discriminate Hrobots.
  - assert (o = urlObj) as -> by congruence. congruence.
  - congruence.
  - assert (resp = response) as -> by congruence. apply Hstatus.
    apply negb_false_iff in Hok. unfold HTMLDownloader.ok in Hok.
    apply andb_true_iff in Hok as [?%Z.leb_le ?%Z.leb_le]. lia.
Qed.

Lemma iteration_failed (lib : Library) (ev : WebCrawler.Event)
    (st : WebCrawler.t) (u : URLInfo) (f1 : URLFrontier.t)
    (e : HTMLDownloader.Error) :
  URLFrontier.getNextURL (WebCrawler.now ev) (WebCrawler.urlFrontier st)
  = (Some u, f1) →
  url u ∉ visited st →
  depth u ≤ maxDepth (WebCrawler.config st) →
  HTMLDownloader.download lib (WebCrawler.net ev)
    (timeout (WebCrawler.config st)) (userAgent (WebCrawler.config st))
    (url u) (respectRobots (WebCrawler.config st)) = inl e →
  WebCrawler.iteration lib ev st
  = (WebCrawler.Failed u e,
     WebCrawler.mark_visited (url u) (WebCrawler.with_frontier f1 st)).
Proof.
  intros Hget Hnew%has_false Hdepth%Z.ltb_ge Hdl.
  unfold WebCrawler.iteration. rewrite Hget. cbn zeta.
  change (WebCrawler.urlStorage (WebCrawler.with_frontier f1 st))
    with (WebCrawler.urlStorage st).
  change (WebCrawler.config (WebCrawler.with_frontier f1 st))
    with (WebCrawler.config st).
  unfold URLStorage.isURLSeen. fold (visited st).
  by rewrite Hnew, Hdepth, Hdl.
Qed.

(** C9: each of the causes of failure (robots disallow, DNS failure,
    failed or timed-out transfer, status outside 200 to 299) makes the
    download fail; a turn whose download fails marks the URL visited,
    stores nothing and leaves the loop going; no URL is fetched a second
    time in a run, so a failed URL is never retried; and, the clock
    advancing, the main loop stops after finitely many turns and [crawl]
    returns the result collection. *)
Theorem C9_failures_are_final (lib : Library) (cfg : CrawlConfig)
    (seedStamps : nat → Z) (env : nat → WebCrawler.Event)
    (seedUrls : list string) (n : nat)
    (u : URLInfo) (f1 : URLFrontier.t) (e : HTMLDownloader.Error) :
  let r := run lib cfg seedStamps env seedUrls n in
  let st := r.2 in
  (download_fails lib (WebCrawler.net (env n)) (WebCrawler.config st) (url u) →
   ∃ e', HTMLDownloader.download lib (WebCrawler.net (env n))
           (timeout (WebCrawler.config st)) (userAgent (WebCrawler.config st))
           (url u) (respectRobots (WebCrawler.config st)) = inl e') ∧
  (URLFrontier.getNextURL (WebCrawler.now (env n)) (WebCrawler.urlFrontier st)
   = (Some u, f1) →
   url u ∉ visited st →
   depth u ≤ maxDepth (WebCrawler.config st) →
   HTMLDownloader.download lib (WebCrawler.net (env n))
     (timeout (WebCrawler.config st)) (userAgent (WebCrawler.config st))
     (url u) (respectRobots (WebCrawler.config st)) = inl e →
   let st' := (WebCrawler.iteration lib (env n) st).2 in
   (WebCrawler.iteration lib (env n) st).1 = WebCrawler.Failed u e ∧
   visited st' = StringSet.add (url u) (visited st) ∧
   WebCrawler.contentStorage st' = WebCrawler.contentStorage st ∧
   WebCrawler.crawledCount st' = WebCrawler.crawledCount st ∧
   WebCrawler.urlFrontier st' = f1) ∧
  NoDup (fetched_urls r.1) ∧
  (clock_advances env →
   ∃ fuel,
     WebCrawler.crawl lib seedStamps env fuel seedUrls (WebCrawler.new cfg)
     = Some (results (run lib cfg seedStamps env seedUrls fuel).2)).
Proof.
  intros r st. split_and!.
  - apply download_failure.
  - intros Hget Hnew Hdepth Hdl st'. subst st'.
    by rewrite (iteration_failed lib (env n) st u f1 e).
  - apply loop_fetched.
  - intros Hclock.
    destruct (loop_terminates lib env Hclock _ _ 0%nat
                (WebCrawler.addSeeds lib seedStamps 0 seedUrls
                   (WebCrawler.new cfg)) eq_refl eq_refl)
      as [fuel Hstop].
    { apply crawler_ok_addSeeds, crawler_ok_new. }
    exists fuel. unfold WebCrawler.crawl, run.
    destruct (WebCrawler.loop lib env fuel 0 _) as [os st'].
    simpl in *. by rewrite Hstop.
Qed.

Lemma demo_clock_advances : clock_advances demo_env.
Proof.
  intros T i. exists (Nat.max i (Z.to_nat T)). split; [lia|].
  unfold demo_env, demo_start. simpl. lia.
Qed.

(** C9, witness: [http://c.net/] does not answer; the first turn of a
    crawl of it marks it visited, and the crawl returns. *)
Lemma C9_failures_are_final_witness :
  (WebCrawler.iteration demo_lib (demo_env 0) c9_state).1
  = WebCrawler.Failed demo_seed_c (HTMLDownloader.TransferFailed "http://c.net/")
  ∧ visited (WebCrawler.iteration demo_lib (demo_env 0) c9_state).2
    = ["http://c.net/"]
  ∧ ∃ fuel rs,
      WebCrawler.crawl demo_lib demo_stamps demo_env fuel ["http://c.net/"]
        (WebCrawler.new WebCrawler.defaults) = Some rs.
Proof.
  destruct (C9_failures_are_final demo_lib WebCrawler.defaults demo_stamps
              demo_env ["http://c.net/"] 0 demo_seed_c
              (URLFrontier.getNextURL (WebCrawler.now (demo_env 0))
                 (WebCrawler.urlFrontier c9_state)).2
              (HTMLDownloader.TransferFailed "http://c.net/"))
    as (_ & Hfail & _ & Hstop).
  fold c9_state in Hfail.
  destruct Hfail as (Ho & Hvis & _).
  - by vm_compute.
  - apply (bool_decide_unpack _). by vm_compute.
  - by vm_compute.
  - by vm_compute.
  - destruct (Hstop demo_clock_advances) as [fuel Hcrawl].
    split_and!; [done| |by eauto].
    rewrite Hvis. by vm_compute.
Defined.

(** * Further properties of the program *)

(** ** The priority queue in use *)

Lemma descending_queue_op (q : PriorityQueue.t) (o : QueueOp) :
  descending q → descending (queue_op q o).
Proof.
  intros Hq. destruct o as [it p|]; simpl.
  - by apply insert_split.
  - destruct q as [|x q]; [done|]. by eapply descending_tail.
Qed.

Lemma descending_queue_ops (os : list QueueOp) : descending (queue_ops os).
Proof.
  unfold queue_ops. induction os as [|o os IH] using rev_ind; simpl.
  - constructor.
  - rewrite foldl_app. simpl. by apply descending_queue_op.
Qed.

(** X1: whatever was enqueued and dequeued before, [dequeue] returns an
    item of the highest priority in the queue, and nothing on an empty
    queue. *)
Theorem X1_dequeue_highest (os : list QueueOp) :
  let q := queue_ops os in
  match PriorityQueue.dequeue q with
  | (Some it, rest) =>
      ∃ e, q = e :: rest ∧ it = PriorityQueue.item e ∧
           Forall (λ x, PriorityQueue.priority x ≤ PriorityQueue.priority e)
             rest
  | (None, rest) => q = [] ∧ rest = []
  end.
Proof.
  intros q. pose proof (descending_queue_ops os) as Hq. fold q in Hq.
  destruct q as [|e rest]; simpl; [done|].
  exists e. split_and!; try done.
  by apply StronglySorted_inv in Hq as [_ ?].
Qed.

Lemma descending_enqueue_all (xs : list (URLInfo * Z)) :
  descending (enqueue_all xs).
Proof.
  unfold enqueue_all. induction xs as [|x xs IH] using rev_ind; simpl.
  - constructor.
  - rewrite foldl_app. simpl. by apply insert_split.
Qed.

Lemma filter_none {A : Type} (P : A → Prop) `{∀ x, Decision (P x)}
    (l : list A) :
  Forall (λ x, ¬ P x) l → filter P l = [].
Proof.
  induction 1 as [|x l Hx _ IH]; [done|].
  by rewrite filter_cons_False.
Qed.

Lemma filter_insert (p : Z) (e : PriorityQueue.Element)
    (q : list PriorityQueue.Element) :
  descending q →
  filter (λ x, PriorityQueue.priority x = p)
    (PriorityQueue.insert e q : list PriorityQueue.Element)
  = filter (λ x, PriorityQueue.priority x = p) q
    ++ (if decide (PriorityQueue.priority e = p) then [e] else []).
Proof.
  intros Hq.
  destruct (insert_split e q Hq) as (_ & l1 & l2 & -> & -> & _ & Hl2).
  rewrite !filter_app, filter_cons.
  destruct (decide (PriorityQueue.priority e = p)) as [Hp|Hp].
  - assert (filter (λ x, PriorityQueue.priority x = p) l2 = []) as ->.
    { apply filter_none.
      eapply Forall_impl; [exact Hl2|]. simpl. lia. }
    by rewrite app_nil_r.
  - by rewrite app_nil_r.
Qed.

(** X2: after any sequence of [enqueue] on a new queue, the queue holds
    exactly what was enqueued, in descending order of priority, and the
    items of one priority stand in the order in which they were
    enqueued. *)
Theorem X2_enqueue_stable (xs : list (URLInfo * Z)) (p : Z) :
  let elements := map (λ x, PriorityQueue.mkElement x.1 x.2) xs in
  enqueue_all xs ≡ₚ elements ∧
  descending (enqueue_all xs) ∧
  filter (λ e, PriorityQueue.priority e = p) (enqueue_all xs)
  = filter (λ e, PriorityQueue.priority e = p) elements ∧
  PriorityQueue.size (enqueue_all xs) = Z.of_nat (length xs).
Proof.
  intros elements. subst elements.
  assert (enqueue_all xs ≡ₚ map (λ x, PriorityQueue.mkElement x.1 x.2) xs)
    as Hperm.
  { unfold enqueue_all. induction xs as [|x xs IH] using rev_ind; simpl.
    - done.
    - rewrite foldl_app, map_app. simpl. unfold PriorityQueue.enqueue.
      rewrite insert_perm, IH. by rewrite <- Permutation_cons_append. }
  split_and!.
  - done.
  - apply descending_enqueue_all.
  - clear Hperm. induction xs as [|x xs IH] using rev_ind; [done|].
    assert (enqueue_all (xs ++ [x])
            = PriorityQueue.insert (PriorityQueue.mkElement x.1 x.2)
                (enqueue_all xs)) as ->
      by (unfold enqueue_all; by rewrite foldl_app).
    rewrite filter_insert by apply descending_enqueue_all.
    rewrite map_app, filter_app, IH. simpl. rewrite filter_cons. simpl.
    by destruct (decide (x.2 = p)).
  - unfold PriorityQueue.size. by rewrite Hperm, length_map.
Qed.

(** ** The frontier in use *)

(** X3: [isEmpty] answers true exactly when the frontier holds no URL, in
    a tier or in a holding queue; it does on a new frontier and does not
    after [addURL]. *)
Theorem X3_isEmpty_no_url (delay : Z) (f : URLFrontier.t) (u : URLInfo) :
  frontier_wf f →
  (URLFrontier.isEmpty f = true ↔ queued f = []) ∧
  URLFrontier.isEmpty (URLFrontier.addURL u f) = false ∧
  URLFrontier.isEmpty (URLFrontier.new delay) = true.
Proof.
  intros Hwf. split_and!.
  - by apply isEmpty_queued.
  - apply not_true_iff_false.
    rewrite (isEmpty_queued _ (wf_addURL _ u Hwf)).
    intros Hnil. pose proof (queued_addURL u f Hwf) as Hperm.
    rewrite Hnil in Hperm. by apply Permutation_nil_cons in Hperm.
  - by apply (isEmpty_queued _ (wf_new delay)).
Qed.

(** X3, witness: a new frontier before and after one [addURL]. *)
Lemma X3_isEmpty_no_url_witness :
  URLFrontier.isEmpty (URLFrontier.new 1000) = true ∧
  URLFrontier.isEmpty (URLFrontier.addURL c2_first (URLFrontier.new 1000))
  = false.
Proof.
  destruct (X3_isEmpty_no_url 1000 (URLFrontier.new 1000) c2_first
              (wf_new 1000)) as (_ & Hadd & Hnew).
  by split.
Defined.

(** X4: on a frontier that holds no URL, [getNextURL] returns nothing and
    changes nothing, whatever the clock reads. *)
Theorem X4_getNextURL_empty (now : Z) (f : URLFrontier.t) :
  frontier_wf f →
  URLFrontier.isEmpty f = true →
  URLFrontier.getNextURL now f = (None, f).
Proof.
  intros Hwf Hempty. apply (isEmpty_queued _ Hwf) in Hempty.
  destruct (URLFrontier.getNextURL now f) as [[u|] f'] eqn:Hget.
  - apply getNextURL_queued in Hget. rewrite Hempty in Hget.
    by apply Permutation_nil_cons in Hget.
  - f_equal. unfold URLFrontier.getNextURL in Hget.
    destruct (getNextURL_from_cases [4; 3; 2; 1; 0] now f)
      as [[_ Heq]|(hi & p & lo & e & rest & Hps & _ & Htier & _)].
    + rewrite Heq in Hget.
      rewrite getFromBackQueue_None in Hget by by rewrite Hget.
      congruence.
    + exfalso. unfold queued in Hempty.
      apply app_nil in Hempty as [Hfront _].
      pose proof (levels_range _ _ _ Hps) as Hp. simpl in Hfront.
      rewrite app_nil_r in Hfront.
      repeat (apply app_nil in Hfront as [? Hfront]).
      assert (p = 4 ∨ p = 3 ∨ p = 2 ∨ p = 1 ∨ p = 0) as Hcases by lia.
      destruct Hcases as [->|[->|[->|[->| ->]]]];
        rewrite Htier in *; done.
Qed.

(** X4, witness: a new frontier. *)
Lemma X4_getNextURL_empty_witness :
  URLFrontier.getNextURL c1_now (URLFrontier.new 1000)
  = (None, URLFrontier.new 1000).
Proof.
  apply X4_getNextURL_empty; [apply wf_new|by vm_compute].
Defined.

Lemma getNextURL_None_queued (now : Z) (f f1 : URLFrontier.t) :
  URLFrontier.getNextURL now f = (None, f1) → queued f1 ≡ₚ queued f.
Proof.
  unfold URLFrontier.getNextURL.
  destruct (getNextURL_from_cases [4; 3; 2; 1; 0] now f)
    as [[Hall ->]|(hi & p & lo & e & rest & Hps & Hhi & Htier & ->)];
    intros Hget;
    rewrite getFromBackQueue_None in Hget by (by rewrite Hget);
    injection Hget as <-; [done|].
  apply queued_promote; [by eapply levels_range|done].
Qed.

(** X5: a frontier neither loses nor invents a URL: after any sequence of
    [addURL] and [getNextURL] on a new frontier, the URLs returned
    together with the URLs still held are those that were added, each as
    often as it was added. *)
Theorem X5_frontier_conserves (delay : Z) (cs : list Call) :
  let s := calls cs (URLFrontier.new delay) in
  map snd s.1 ++ queued s.2 ≡ₚ added cs.
Proof.
  induction cs as [|c cs IH] using rev_ind; [done|].
  pose proof (calls_invariant delay cs) as (Hwf & _).
  unfold calls, added in *. rewrite foldl_app, omap_app. simpl.
  destruct (foldl call ([], URLFrontier.new delay) cs) as [log f].
  simpl in *. rewrite <- IH.
  destruct c as [u|now]; simpl.
  - rewrite queued_addURL by done.
    rewrite <- app_assoc. f_equiv. by rewrite <- Permutation_cons_append.
  - rewrite app_nil_r.
    destruct (URLFrontier.getNextURL now f) as [[u|] f'] eqn:Hget; simpl.
    + rewrite map_app. simpl. rewrite <- app_assoc. simpl.
      by rewrite (getNextURL_queued _ _ _ _ Hget).
    + by rewrite (getNextURL_None_queued _ _ _ Hget).
Qed.

Lemma elem_of_set {K V : Type} `{EqDecision K}
    (m : OrderedMap.t K V) (k : K) (v : V) :
  (k, v) ∈ OrderedMap.set k v m.
Proof.
  induction m as [|[k' v'] m IH]; simpl.
  - apply list_elem_of_here.
  - destruct (decide (k' = k)).
    + apply list_elem_of_here.
    + by apply list_elem_of_further.
Qed.

(** X6: when no URL waits in a holding queue, [getNextURL] returns the
    front of the highest non-empty tier, provided the host of that URL is
    ready; the URL leaves its tier. *)
Theorem X6_highest_tier_first (now : Z) (f : URLFrontier.t) (p : Z)
    (e : PriorityQueue.Element) (rest : PriorityQueue.t) :
  Forall (λ en : string * list URLInfo, en.2 = []) (URLFrontier.backQueues f) →
  0 ≤ p ≤ 4 →
  URLFrontier.tier f p = e :: rest →
  (∀ p', p < p' ≤ 4 → URLFrontier.tier f p' = []) →
  code_eligible now f (host (PriorityQueue.item e)) →
  (URLFrontier.getNextURL now f).1 = Some (PriorityQueue.item e) ∧
  URLFrontier.tier (URLFrontier.getNextURL now f).2 p = rest.
Proof.
  intros Hidle Hp Htier Hhigh Hready. unfold URLFrontier.getNextURL.
  destruct (getNextURL_from_cases [4; 3; 2; 1; 0] now f)
    as [[Hall _]|(hi & p' & lo & e' & rest' & Hps & Hhi & Htier' & ->)].
  { rewrite Forall_forall in Hall. rewrite Hall in Htier; [done|].
    rewrite !elem_of_cons. lia. }
  assert (p' = p) as ->.
  { pose proof (levels_range _ _ _ Hps) as Hp'.
    destruct (Z.lt_trichotomy p' p) as [Hlt|[Heq|Hgt]]; [|done|].
    - rewrite Forall_forall in Hhi. rewrite (Hhi p) in Htier; [done|].
      eapply levels_above; [done|lia].
    - rewrite Hhigh in Htier' by lia. done. }
  rewrite Htier in Htier'. injection Htier' as <- <-.
  set (u := PriorityQueue.item e) in *.
  set (f1 := URLFrontier.push_back u (URLFrontier.set_tier p rest f)).
  assert (Forall (λ en : string * list URLInfo,
                    en.2 = [] ∨ en = (host u, [u]))
            (URLFrontier.backQueues f1)
          ∧ (host u, [u]) ∈ URLFrontier.backQueues f1) as [Hall Hin].
  { subst f1. unfold URLFrontier.push_back. simpl.
    set (bq := if OrderedMap.has (host u) (URLFrontier.backQueues f)
               then URLFrontier.backQueues f
               else OrderedMap.set (host u) [] (URLFrontier.backQueues f)).
    assert (Forall (λ en : string * list URLInfo, en.2 = []) bq) as Hbq.
    { subst bq. destruct (OrderedMap.has _ _); [done|].
      by apply Forall_set. }
    assert (default [] (OrderedMap.get (host u) bq) = []) as ->.
    { destruct (OrderedMap.get (host u) bq) as [q|] eqn:Hget; [|done].
      apply get_Some_elem_of in Hget. rewrite Forall_forall in Hbq.
      exact (Hbq _ Hget). }
    simpl. split; [|apply elem_of_set].
    apply Forall_set; [|by right].
    eapply Forall_impl; [exact Hbq|]. simpl. auto. }
  destruct (getFromBackQueue_selection now f1)
    as [(pre & h & u' & q & post & Hbq & _ & _ & ->)|[Hblocked _]].
  - simpl. split;
      [|subst f1; unfold URLFrontier.tier; simpl; by rewrite lookup_insert_eq].
    rewrite Forall_forall in Hall.
    destruct (Hall (h, u' :: q)) as [?|[= _ -> _]]; [|done..].
    rewrite Hbq. apply elem_of_app. right. apply list_elem_of_here.
  - exfalso. unfold blocked in Hblocked. rewrite Forall_forall in Hblocked.
    destruct (Hblocked _ Hin) as [?|Hbusy]; [done|]. by apply Hbusy.
Qed.

(** X6, witness: a seed of priority 4 and a link of priority 3 of another
    host, on a new frontier. *)
Lemma X6_highest_tier_first_witness :
  (URLFrontier.getNextURL c1_now
     (URLFrontier.addURL demo_seed
        (URLFrontier.addURL c2_second (URLFrontier.new 1000)))).1
  = Some demo_seed.
Proof.
  apply (X6_highest_tier_first c1_now
           (URLFrontier.addURL demo_seed
              (URLFrontier.addURL c2_second (URLFrontier.new 1000)))
           4 (PriorityQueue.mkElement demo_seed 4) []).
  - constructor.
  - lia.
  - by vm_compute.
  - intros p' Hp'. lia.
  - unfold code_eligible. by vm_compute.
Defined.

(** ** The stores in use *)

(** X7: [get] returns the record last stored for a URL, and [store]
    leaves the records of the other URLs as they were. *)
Theorem X7_store_get (r : CrawlResult) (cs : ContentStorage.t) (u : string) :
  ContentStorage.get (r_url r) (ContentStorage.store r cs) = Some r ∧
  (u ≠ r_url r →
   ContentStorage.get u (ContentStorage.store r cs) = ContentStorage.get u cs).
Proof.
  unfold ContentStorage.get, ContentStorage.store; simpl.
  split; [apply get_set_eq|]. intros Hne. by apply get_set_ne.
Qed.

(** X7, witness: a second record stored beside the record of
    [http://a.com/]. *)
Lemma X7_store_get_witness :
  ContentStorage.get "http://a.com/"
    (ContentStorage.store demo_record_b (stores [demo_record]))
  = Some demo_record.
Proof.
  destruct (X7_store_get demo_record_b (stores [demo_record]) "http://a.com/")
    as [_ Hother].
  rewrite Hother; [by vm_compute|done].
Defined.

Lemma seen_stores (rs : list CrawlResult) (h : string) :
  h ∈ ContentStorage.seenHashes (stores rs) ↔ ∃ r, r ∈ rs ∧ hash r = h.
Proof.
  unfold stores. induction rs as [|r rs IH] using rev_ind; simpl.
  - split; [by intros ?%elem_of_nil|]. by intros (r & ?%elem_of_nil & _).
  - rewrite foldl_app. simpl. rewrite elem_of_add, IH. split.
    + intros [->|(r' & Hr' & <-)].
      * exists r. split; [|done]. apply elem_of_app. right.
        apply list_elem_of_here.
      * exists r'. split; [|done]. apply elem_of_app. by left.
    + intros (r' & Hr' & <-). apply elem_of_app in Hr' as [Hr'|Hr'].
      * right. by exists r'.
      * apply list_elem_of_singleton in Hr' as ->. by left.
Qed.

(** X8: the content hashes seen are exactly those of the records that
    were stored; the hash of a record stays seen when a later record of
    the same URL takes its place in the results. *)
Theorem X8_hashes_never_forgotten (rs : list CrawlResult) (h : string) :
  ContentStorage.isContentSeen h (stores rs) = true
  ↔ ∃ r, r ∈ rs ∧ hash r = h.
Proof.
  unfold ContentStorage.isContentSeen. rewrite has_true. apply seen_stores.
Qed.

Lemma values_set_fresh {K V : Type} `{EqDecision K}
    (m : OrderedMap.t K V) (k : K) (v : V) :
  OrderedMap.get k m = None →
  OrderedMap.values (OrderedMap.set k v m) = OrderedMap.values m ++ [v].
Proof.
  unfold OrderedMap.values. induction m as [|[k' v'] m IH]; simpl; [done|].
  destruct (decide (k' = k)); [done|]. intros Hget. simpl. by rewrite IH.
Qed.

Lemma values_set_present {K V : Type} `{EqDecision K}
    (pre post : OrderedMap.t K V) (k : K) (old v : V) :
  k ∉ OrderedMap.keys pre →
  OrderedMap.values (OrderedMap.set k v (pre ++ (k, old) :: post))
  = OrderedMap.values pre ++ v :: OrderedMap.values post.
Proof.
  unfold OrderedMap.values, OrderedMap.keys.
  induction pre as [|[k' v'] pre IH]; simpl.
  - intros _. by rewrite decide_True.
  - intros [Hne Hpre]%not_elem_of_cons.
    rewrite decide_False by done. simpl. by rewrite IH.
Qed.

(** X9: [getAllResults] lists the records in the order in which their
    URLs were first stored: the record of a new URL goes to the end, and
    the record of a URL stored before takes the place of the old one. *)
Theorem X9_results_in_insertion_order (r old : CrawlResult)
    (cs : ContentStorage.t)
    (pre post : OrderedMap.t string CrawlResult) :
  (ContentStorage.get (r_url r) cs = None →
   ContentStorage.getAllResults (ContentStorage.store r cs)
   = ContentStorage.getAllResults cs ++ [r]) ∧
  (ContentStorage.storage cs = pre ++ (r_url r, old) :: post →
   r_url r ∉ OrderedMap.keys pre →
   ContentStorage.getAllResults (ContentStorage.store r cs)
   = OrderedMap.values pre ++ r :: OrderedMap.values post).
Proof.
  unfold ContentStorage.getAllResults, ContentStorage.store,
    ContentStorage.get; simpl. split.
  - apply values_set_fresh.
  - intros -> Hpre. by apply values_set_present.
Qed.

(** X9, witness: a record of a new URL, and a later record of
    [http://a.com/], stored after the record of [http://a.com/]. *)
Lemma X9_results_in_insertion_order_witness :
  ContentStorage.getAllResults
    (ContentStorage.store demo_record_b (stores [demo_record]))
  = [demo_record; demo_record_b] ∧
  ContentStorage.getAllResults
    (ContentStorage.store demo_record_later (stores [demo_record; demo_record_b]))
  = [demo_record_later; demo_record_b].
Proof.
  split.
  - destruct (X9_results_in_insertion_order demo_record_b demo_record
                (stores [demo_record]) [] []) as [Hnew _].
    rewrite Hnew; by vm_compute.
  - destruct (X9_results_in_insertion_order demo_record_later demo_record
                (stores [demo_record; demo_record_b]) []
                [("http://b.org/", demo_record_b)]) as [_ Hold].
    rewrite Hold; [done|by vm_compute|by intros ?%elem_of_nil].
Defined.

Lemma visited_marks (us : list string) :
  NoDup (URLStorage.visitedUrls (marks us)) ∧
  ∀ u, u ∈ URLStorage.visitedUrls (marks us) ↔ u ∈ us.
Proof.
  unfold marks. induction us as [|x us [IHnd IHin]] using rev_ind; simpl.
  - split; [constructor|done].
  - rewrite foldl_app. simpl. split; [by apply NoDup_add|].
    intros u. rewrite elem_of_add, IHin, elem_of_app, list_elem_of_singleton.
    tauto.
Qed.

(** X10: after any sequence of [markAsVisited], [isURLSeen] answers true
    exactly for the URLs that were marked, [getVisitedCount] is the
    number of different URLs marked, and marking a URL again changes
    nothing. *)
Theorem X10_marks (us : list string) (u : string) :
  (URLStorage.isURLSeen u (marks us) = true ↔ u ∈ us) ∧
  URLStorage.getVisitedCount (marks us)
  = Z.of_nat (length (remove_dups us)) ∧
  (u ∈ us → URLStorage.markAsVisited u (marks us) = marks us).
Proof.
  destruct (visited_marks us) as [Hnd Hin]. split_and!.
  - unfold URLStorage.isURLSeen. by rewrite has_true.
  - unfold URLStorage.getVisitedCount, StringSet.size. f_equal.
    apply Permutation_length, NoDup_Permutation;
      [done|apply NoDup_remove_dups|].
    intros x. by rewrite Hin, elem_of_remove_dups.
  - intros Hu. unfold URLStorage.markAsVisited, StringSet.add.
    apply Hin, has_true in Hu. rewrite Hu. by destruct (marks us).
Qed.

(** X10, witness: a URL marked twice among three marks. *)
Lemma X10_marks_witness :
  URLStorage.getVisitedCount
    (marks ["http://a.com/"; "http://b.org/"; "http://a.com/"]) = 2 ∧
  URLStorage.markAsVisited "http://a.com/"
    (marks ["http://a.com/"; "http://b.org/"; "http://a.com/"])
  = marks ["http://a.com/"; "http://b.org/"; "http://a.com/"].
Proof.
  destruct (X10_marks ["http://a.com/"; "http://b.org/"; "http://a.com/"]
              "http://a.com/") as (_ & Hcount & Hidem).
  split; [by rewrite Hcount|].
  apply Hidem. apply (bool_decide_unpack _). by vm_compute.
Defined.

(** ** The URL filter in use *)

(** X11: the extension the filter looks at runs from the last dot of the
    path to its end, and there is none exactly when the path has no
    dot. *)
Theorem X11_extension_from_last_dot (s : string) :
  match URLFilter.extension s with
  | Some e =>
      ∃ pre rest,
        s = String.append pre (String "." rest) ∧
        e = String "." rest ∧
        occurs "." rest = false
  | None => occurs "." s = false
  end.
Proof.
  induction s as [|c s IH]; [done|].
  cbn [URLFilter.extension].
  destruct (URLFilter.extension s) as [e|].
  - destruct IH as (pre & rest & -> & -> & Hrest).
    by exists (String c pre), rest.
  - destruct (Ascii.eqb_spec c ".") as [->|Hne].
    + by exists EmptyString, s.
    + simpl. rewrite IH. by apply Ascii.eqb_neq in Hne as ->.
Qed.

(** X12: [isValidURL] accepts a URL exactly when it parses, is not longer
    than [maxUrlLength], its host is not blacklisted, the extension of
    its lower-cased path, if it has one, is an allowed one, and its
    scheme is http or https. *)
Theorem X12_isValidURL_iff (lib : Library) (flt : URLFilter.t) (u : string) :
  URLFilter.isValidURL lib flt u = true
  ↔ ∃ urlObj,
      parseURL lib u = Some urlObj ∧
      Z.of_nat (String.length u) ≤ URLFilter.maxUrlLength flt ∧
      (hostname urlObj ∉ URLFilter.blacklistedDomains flt) ∧
      (∀ ext, URLFilter.extension (URLFilter.toLowerCase (pathname urlObj))
              = Some ext →
              ext ∈ URLFilter.allowedExtensions flt) ∧
      (protocol urlObj = "http:" ∨ protocol urlObj = "https:").
Proof.
  unfold URLFilter.isValidURL.
  assert (∀ o, bool_decide (protocol o ∈ ["http:"; "https:"]) = true
               ↔ protocol o = "http:" ∨ protocol o = "https:") as Hscheme.
  { intros o. rewrite bool_decide_eq_true, !elem_of_cons, elem_of_nil.
    tauto. }
  destruct (parseURL lib u) as [o|]; [|split; [done|by intros (? & ? & _)]].
  destruct (Z.ltb_spec (URLFilter.maxUrlLength flt) (Z.of_nat (String.length u))).
  { split; [done|]. intros (? & _ & ? & _). lia. }
  destruct (StringSet.has (hostname o) (URLFilter.blacklistedDomains flt))
    eqn:Hbl.
  { apply has_true in Hbl. split; [done|]. by intros (? & [= <-] & _ & ? & _). }
  apply has_false in Hbl.
  destruct (URLFilter.extension (URLFilter.toLowerCase (pathname o)))
    as [ext|] eqn:Hext.
  - destruct (StringSet.has ext (URLFilter.allowedExtensions flt)) eqn:Hal;
      simpl.
    + apply has_true in Hal. rewrite Hscheme. split.
      * intros Hs. exists o. split_and!; try done.
        intros ext' Hext'. rewrite Hext in Hext'. by injection Hext' as <-.
      * by intros (? & [= <-] & _ & _ & _ & ?).
    + apply has_false in Hal. split; [done|].
      intros (? & [= <-] & _ & _ & Hallowed & _).
      exfalso. by apply Hal, Hallowed.
  - rewrite Hscheme. split.
    + intros Hs. exists o. split_and!; try done.
      intros ext' Hext'. by rewrite Hext in Hext'.
    + by intros (? & [= <-] & _ & _ & _ & ?).
Qed.

(** X13: after [addBlacklistedDomain], the URLs of that host are turned
    down; the URLs of the other hosts get the answer they got before. *)
Theorem X13_addBlacklistedDomain (lib : Library) (flt : URLFilter.t)
    (domain u : string) (urlObj : URL) :
  parseURL lib u = Some urlObj →
  (hostname urlObj = domain →
   URLFilter.isValidURL lib (URLFilter.addBlacklistedDomain domain flt) u
   = false) ∧
  (hostname urlObj ≠ domain →
   URLFilter.isValidURL lib (URLFilter.addBlacklistedDomain domain flt) u
   = URLFilter.isValidURL lib flt u).
Proof.
  intros Hparse. unfold URLFilter.isValidURL, URLFilter.addBlacklistedDomain.
  rewrite Hparse. simpl.
  destruct (URLFilter.maxUrlLength flt <? Z.of_nat (String.length u));
    [done|].
  split.
  - intros Hd.
    assert (StringSet.has (hostname urlObj)
              (StringSet.add domain (URLFilter.blacklistedDomains flt))
            = true) as ->; [|done].
    apply has_true, elem_of_add. by left.
  - intros Hd.
    assert (StringSet.has (hostname urlObj)
              (StringSet.add domain (URLFilter.blacklistedDomains flt))
            = StringSet.has (hostname urlObj)
                (URLFilter.blacklistedDomains flt)) as ->; [|done].
    unfold StringSet.has. apply bool_decide_ext.
    rewrite elem_of_add. split; [by intros [?|?]|auto].
Qed.

(** X13, witness: [b.org] blacklisted in the default filter. *)
Lemma X13_addBlacklistedDomain_witness :
  URLFilter.isValidURL demo_lib
    (URLFilter.addBlacklistedDomain "b.org" URLFilter.new) "http://b.org/"
  = false ∧
  URLFilter.isValidURL demo_lib
    (URLFilter.addBlacklistedDomain "b.org" URLFilter.new) "http://a.com/"
  = true.
Proof.
  split.
  - by apply (X13_addBlacklistedDomain demo_lib URLFilter.new "b.org"
                "http://b.org/" (mkURL "http:" "b.org" "/")).
  - destruct (X13_addBlacklistedDomain demo_lib URLFilter.new "b.org"
                "http://a.com/" (mkURL "http:" "a.com" "/") eq_refl)
      as [_ ->]; by vm_compute.
Defined.

(** X14: the default filter turns down every URL whose path has a slash
    after its last dot: what stands after that dot is taken for the
    extension, and no allowed extension has a slash. *)
Theorem X14_dot_in_directory (lib : Library) (u : string) (urlObj : URL)
    (ext : string) :
  parseURL lib u = Some urlObj →
  URLFilter.extension (URLFilter.toLowerCase (pathname urlObj)) = Some ext →
  occurs "/" ext = true →
  URLFilter.isValidURL lib URLFilter.new u = false.
Proof.
  intros Hparse Hext Hslash. unfold URLFilter.isValidURL.
  rewrite Hparse, Hext.
  destruct (_ <? _); [done|]. destruct (StringSet.has (hostname urlObj) _);
    [done|].
  assert (StringSet.has ext (URLFilter.allowedExtensions URLFilter.new)
          = false) as ->; [|done].
  apply has_false. simpl. rewrite !elem_of_cons.
  intros [->|[->|[->|[->|[->|?%elem_of_nil]]]]]; done.
Qed.

(** X14, witness: [/v1.2/page]. *)
Lemma X14_dot_in_directory_witness :
  URLFilter.isValidURL dotted_lib URLFilter.new "http://a.com/v1.2/page"
  = false.
Proof.
  by apply (X14_dot_in_directory dotted_lib "http://a.com/v1.2/page"
              (mkURL "http:" "a.com" "/v1.2/page") ".2/page").
Defined.

(** ** The downloader in use *)

(** [download] returns a result exactly when the robots handler allows
    the URL or robots are not respected, the URL parses, its host
    resolves, the transfer answers and the status is one of 200 to 299;
    the result then has the URL asked for, the body and its SHA-256, the
    status, the content type (empty when the header is absent) and no
    links yet. *)
Lemma download_success_iff (lib : Library) (net : HTMLDownloader.Network)
    (timeout : Z) (userAgent u : string) (respectRobots : bool)
    (r : CrawlResult) :
  HTMLDownloader.download lib net timeout userAgent u respectRobots = inr r
  ↔ (respectRobots = false ∨ HTMLDownloader.canCrawl net u userAgent = true) ∧
    ∃ urlObj ip response,
      parseURL lib u = Some urlObj ∧
      HTMLDownloader.resolveHost net (hostname urlObj) = Some ip ∧
      HTMLDownloader.fetch net u userAgent timeout = Some response ∧
      200 ≤ HTMLDownloader.status response ≤ 299 ∧
      r = {| r_url := u;
             content := HTMLDownloader.body response;
             links := [];
             statusCode := HTMLDownloader.status response;
             contentType :=
               default "" (HTMLDownloader.contentTypeHeader response);
             hash := sha256 lib (HTMLDownloader.body response) |}.
Proof.
  unfold HTMLDownloader.download, HTMLDownloader.ok. split.
  - destruct respectRobots, (HTMLDownloader.canCrawl net u userAgent);
      simpl; try done;
      (destruct (parseURL lib u) as [urlObj|] eqn:Hparse; [|done];
       destruct (HTMLDownloader.resolveHost net (hostname urlObj))
         as [ip|] eqn:Hdns; [|done];
       destruct (HTMLDownloader.fetch net u userAgent timeout)
         as [response|] eqn:Hfetch; [|done];
       destruct (Z.leb_spec 200 (HTMLDownloader.status response));
         [|done];
       destruct (Z.leb_spec (HTMLDownloader.status response) 299);
         [|done];
       simpl; intros [= <-]; split; [auto|];
       exists urlObj, ip, response; by split_and!).
  - intros [Hrobots (urlObj & ip & response & -> & -> & -> & [H1 H2] & ->)].
    apply Z.leb_le in H1, H2. rewrite H1, H2. simpl.
    by destruct Hrobots as [->| ->]; [|destruct respectRobots].
Qed.

(** ** The DNS cache *)

(** X16: once [resolveHost] has found the address of a host, every later
    [resolveHost] for that host returns the same address without asking
    the network, whatever the network would answer, and the cache stays
    as it is; the entries of the other hosts are not touched. *)
Theorem X16_dns_cache_hit
    (resolve resolve' : string → option (string * list string))
    (hostname other ip : string) (d : DNSResolver.t) :
  let d' := (DNSResolver.resolveHost resolve hostname d).2 in
  ((DNSResolver.resolveHost resolve hostname d).1 = Some ip →
   DNSResolver.resolveHost resolve' hostname d' = (Some ip, d')) ∧
  (other ≠ hostname →
   DNSResolver.cache d' !! other = DNSResolver.cache d !! other).
Proof.
  intros d'. subst d'. unfold DNSResolver.resolveHost.
  destruct (DNSResolver.cache d !! hostname) as [ip0|] eqn:Hcache.
  - simpl. split; [|done]. intros [= ->]. by rewrite Hcache.
  - destruct (resolve hostname) as [[ip0 ips]|]; simpl.
    + split.
      * intros [= ->]. by rewrite lookup_insert_eq.
      * intros Hne. by rewrite lookup_insert_ne.
    + by split.
Qed.

(** X16, witness: a host resolved once, then asked for while the network
    no longer answers. *)
Lemma X16_dns_cache_hit_witness :
  DNSResolver.resolveHost (λ _, None) "a.com"
    (DNSResolver.resolveHost (λ _, Some ("192.0.2.1", [])) "a.com"
       DNSResolver.new).2
  = (Some "192.0.2.1",
     (DNSResolver.resolveHost (λ _, Some ("192.0.2.1", [])) "a.com"
        DNSResolver.new).2).
Proof.
  by apply (X16_dns_cache_hit (λ _, Some ("192.0.2.1", [])) (λ _, None)
              "a.com" "b.org" "192.0.2.1" DNSResolver.new).
Defined.

(** X17: a resolution that fails is not remembered: [resolveHost] throws
    only for a host that is not cached and does not resolve, and leaves
    the cache as it was; and after [clearCache] the answer for any host
    is again the one of the network. *)
Theorem X17_dns_failure_and_clear
    (resolve : string → option (string * list string))
    (hostname : string) (d : DNSResolver.t) :
  ((DNSResolver.resolveHost resolve hostname d).1 = None
   ↔ DNSResolver.cache d !! hostname = None ∧ resolve hostname = None) ∧
  ((DNSResolver.resolveHost resolve hostname d).1 = None →
   (DNSResolver.resolveHost resolve hostname d).2 = d) ∧
  (DNSResolver.resolveHost resolve hostname (DNSResolver.clearCache d)).1
  = fst <$> resolve hostname.
Proof.
  unfold DNSResolver.resolveHost, DNSResolver.clearCache. simpl.
  rewrite lookup_empty.
  destruct (DNSResolver.cache d !! hostname) as [ip0|];
    destruct (resolve hostname) as [[ip ips]|]; simpl;
    split_and!; try done; split; try done; by intros [? ?].
Qed.

(** X17, witness: a host that does not resolve. *)
Lemma X17_dns_failure_and_clear_witness :
  (DNSResolver.resolveHost (λ _, None) "c.net" DNSResolver.new).2
  = DNSResolver.new.
Proof.
  destruct (X17_dns_failure_and_clear (λ _, None) "c.net" DNSResolver.new)
    as (_ & Hsame & _).
  by apply Hsame.
Defined.

(** ** The robots cache *)

Lemma canCrawl_unavailable (lib : Library) (web : RobotsHandler.Web)
    (u userAgent : string) (urlObj : URL) (h : RobotsHandler.t) :
  parseURL lib u = Some urlObj →
  RobotsHandler.robotsCache h !! RobotsHandler.hostOf web urlObj = None →
  (∀ robotsTxt,
     RobotsHandler.fetchText web
       (RobotsHandler.robotsUrlOf (protocol urlObj)
          (RobotsHandler.hostOf web urlObj))
     ≠ Some (true, robotsTxt)) →
  RobotsHandler.canCrawl lib web u userAgent h
  = (Some true,
     {| RobotsHandler.robotsCache :=
          <[RobotsHandler.hostOf web urlObj := None]>
            (RobotsHandler.robotsCache h) |}).
Proof.
  intros Hparse Hcache Hfetch. unfold RobotsHandler.canCrawl.
  unfold RobotsHandler.Robots in *. rewrite Hparse, Hcache.
  destruct (RobotsHandler.fetchText web _) as [[[] txt]|] eqn:Hf;
    [by destruct (Hfetch txt)|..]; simpl; by rewrite lookup_insert_eq.
Qed.

Lemma canCrawl_cached (lib : Library) (web : RobotsHandler.Web)
    (u userAgent : string) (urlObj : URL) (h : RobotsHandler.t)
    (entry : option RobotsHandler.Robots) :
  parseURL lib u = Some urlObj →
  RobotsHandler.robotsCache h !! RobotsHandler.hostOf web urlObj
  = Some entry →
  RobotsHandler.canCrawl lib web u userAgent h
  = (Some match entry with
          | Some robots => robots u userAgent
          | None => true
          end, h).
Proof.
  intros Hparse Hcache. unfold RobotsHandler.canCrawl.
  unfold RobotsHandler.Robots in *.
  rewrite Hparse. cbv zeta. rewrite Hcache. cbv iota beta.
  rewrite Hcache. by destruct entry.
Qed.

(** X18: when robots.txt of a host cannot be fetched or is answered with
    a status that is not ok, [canCrawl] allows the URL and remembers the
    host as one without rules: every later [canCrawl] for a URL of that
    host allows it and leaves the cache as it is, whatever the network
    answers by then. *)
Theorem X18_robots_unavailable (lib : Library)
    (web web' : RobotsHandler.Web) (u u' userAgent userAgent' : string)
    (urlObj urlObj' : URL) (h : RobotsHandler.t) :
  parseURL lib u = Some urlObj →
  RobotsHandler.robotsCache h !! RobotsHandler.hostOf web urlObj = None →
  (∀ robotsTxt,
     RobotsHandler.fetchText web
       (RobotsHandler.robotsUrlOf (protocol urlObj)
          (RobotsHandler.hostOf web urlObj))
     ≠ Some (true, robotsTxt)) →
  let h' := (RobotsHandler.canCrawl lib web u userAgent h).2 in
  (RobotsHandler.canCrawl lib web u userAgent h).1 = Some true ∧
  (parseURL lib u' = Some urlObj' →
   RobotsHandler.hostOf web' urlObj' = RobotsHandler.hostOf web urlObj →
   RobotsHandler.canCrawl lib web' u' userAgent' h' = (Some true, h')).
Proof.
  intros Hparse Hcache Hfetch h'. subst h'.
  rewrite (canCrawl_unavailable lib web u userAgent urlObj h) by done.
  simpl. split; [done|]. intros Hparse' Hhost.
  apply (canCrawl_cached lib web' u' userAgent' urlObj' _ None);
    [done|]. simpl. rewrite Hhost. apply lookup_insert_eq.
Qed.


(** X18, witness: the robots.txt of [b.org] is not found at first; when
    it later disallows everything, [http://b.org/] is still allowed. *)
Lemma X18_robots_unavailable_witness :
  (RobotsHandler.canCrawl demo_lib closed_web "http://b.org/" "WebCrawler/1.0"
     (RobotsHandler.canCrawl demo_lib demo_web "http://b.org/"
        "WebCrawler/1.0" RobotsHandler.new).2).1
  = Some true.
Proof.
  destruct (X18_robots_unavailable demo_lib demo_web closed_web
              "http://b.org/" "http://b.org/" "WebCrawler/1.0"
              "WebCrawler/1.0" (mkURL "http:" "b.org" "/")
              (mkURL "http:" "b.org" "/") RobotsHandler.new)
    as [_ Hlater]; [done|done|by intros txt|].
  by rewrite Hlater.
Defined.


(** ** The crawler in use *)

Lemma Forall_queued_addURLs (P : URLInfo → Prop) (new : list URLInfo)
    (f : URLFrontier.t) :
  frontier_wf f → Forall P new → Forall P (queued f) →
  Forall P (queued (foldl (λ f x, URLFrontier.addURL x f) f new)).
Proof.
  intros Hwf Hnew Hf. rewrite queued_addURLs by done.
  apply Forall_app. by split.
Qed.

Lemma addSeeds_enqueued (lib : Library) (stamps : nat → Z)
    (seedUrls : list string) (k : nat) (st : WebCrawler.t) :
  WebCrawler.urlFilter st = URLFilter.new →
  frontier_wf (WebCrawler.urlFrontier st) →
  Forall (enqueued_ok lib) (queued (WebCrawler.urlFrontier st)) →
  Forall (enqueued_ok lib)
    (queued (WebCrawler.urlFrontier
               (WebCrawler.addSeeds lib stamps k seedUrls st))).
Proof.
  revert k st. induction seedUrls as [|l ls IH]; intros k st Hflt Hwf Hok;
    simpl; [done|].
  destruct (URLFilter.isValidURL lib (WebCrawler.urlFilter st) l) eqn:Hvalid;
    [|by apply IH].
  apply IH; simpl; [done|by apply wf_addURL|].
  rewrite queued_addURL by done. constructor; [|done].
  rewrite Hflt in Hvalid. by split_and!.
Qed.

Lemma addLinks_enqueued (lib : Library) (u : URLInfo) (stamps : nat → Z)
    (ls : list string) (k : nat) (st : WebCrawler.t) :
  enqueued_ok lib u →
  WebCrawler.urlFilter st = URLFilter.new →
  frontier_wf (WebCrawler.urlFrontier st) →
  Forall (enqueued_ok lib) (queued (WebCrawler.urlFrontier st)) →
  Forall (enqueued_ok lib)
    (queued (WebCrawler.urlFrontier (WebCrawler.addLinks lib u stamps k ls st))).
Proof.
  intros (Hdepth & Hprio & _) Hflt.
  revert k st Hflt. induction ls as [|l ls IH]; intros k st Hflt Hwf Hok;
    simpl; [done|].
  destruct (URLFilter.isValidURL lib (WebCrawler.urlFilter st) l) eqn:Hvalid;
    simpl; [|by apply IH].
  destruct (URLStorage.isURLSeen l (WebCrawler.urlStorage st)); simpl;
    [by apply IH|].
  apply IH; simpl; [done|by apply wf_addURL|].
  rewrite queued_addURL by done. constructor; [|done].
  rewrite Hflt in Hvalid. unfold enqueued_ok. simpl.
  split_and!; try done; lia.
Qed.

Lemma turn_enqueued (lib : Library) (ev : WebCrawler.Event)
    (st st' : WebCrawler.t) (o : WebCrawler.Outcome) :
  WebCrawler.urlFilter st = URLFilter.new →
  frontier_wf (WebCrawler.urlFrontier st) →
  Forall (enqueued_ok lib) (queued (WebCrawler.urlFrontier st)) →
  turn lib ev st o st' →
  Forall (enqueued_ok lib) (queued (WebCrawler.urlFrontier st')) ∧
  ∀ u, dispatched o = Some u → enqueued_ok lib u.
Proof.
  intros Hflt Hwf Hok Hturn.
  assert (∀ u f1,
            URLFrontier.getNextURL (WebCrawler.now ev) (WebCrawler.urlFrontier st)
            = (Some u, f1) →
            enqueued_ok lib u ∧ Forall (enqueued_ok lib) (queued f1) ∧
            frontier_wf f1) as Hsome.
  { intros u f1 Hget.
    pose proof (wf_getNextURL (WebCrawler.now ev) _ Hwf) as Hwf1.
    rewrite Hget in Hwf1.
    rewrite (getNextURL_queued _ _ _ _ Hget) in Hok.
    by apply Forall_cons in Hok as [? ?]. }
  destruct Hturn as [f1 Hget|u f1 Hget _|u f1 e Hget _ _ _
                    |u f1 r Hget _ _ _ _|u f1 r Hget _ _ _ _ ls]; simpl.
  - split; [|done]. by rewrite (getNextURL_None_queued _ _ _ Hget).
  - destruct (Hsome _ _ Hget) as (? & ? & _). split; [done|].
    by intros ? [= <-].
  - destruct (Hsome _ _ Hget) as (? & ? & _). split; [done|].
    by intros ? [= <-].
  - destruct (Hsome _ _ Hget) as (? & ? & _). split; [done|].
    by intros ? [= <-].
  - destruct (Hsome _ _ Hget) as (? & ? & ?). split; [|by intros ? [= <-]].
    by apply addLinks_enqueued.
Qed.

Lemma loop_enqueued (lib : Library) (env : nat → WebCrawler.Event)
    (n i : nat) (st : WebCrawler.t) :
  WebCrawler.urlFilter st = URLFilter.new →
  crawler_ok st →
  Forall (enqueued_ok lib) (queued (WebCrawler.urlFrontier st)) →
  let r := WebCrawler.loop lib env n i st in
  Forall (enqueued_ok lib) (queued (WebCrawler.urlFrontier r.2)) ∧
  Forall (enqueued_ok lib) (omap dispatched r.1).
Proof.
  revert i st. induction n as [|n IH]; intros i st Hflt Hcrawler Hok; simpl.
  { by split. }
  destruct (WebCrawler.running st); [|by split].
  pose proof (iteration_turn lib (env i) st) as Hturn.
  destruct (WebCrawler.iteration lib (env i) st) as [o st'].
  cbn [fst snd] in Hturn.
  destruct (turn_enqueued _ _ _ _ _ Hflt (proj1 Hcrawler) Hok Hturn)
    as [Hok' Hdisp].
  destruct (turn_fields _ _ _ _ _ Hturn) as (_ & Hflt' & _).
  specialize (IH (S i) st' ltac:(congruence)
                (turn_ok _ _ _ _ _ Hcrawler Hturn) Hok').
  destruct (WebCrawler.loop lib env n (S i) st') as [os st''].
  cbn [fst snd] in *. destruct IH as [IH1 IH2].
  split; [done|]. simpl. destruct (dispatched o) as [u|] eqn:Ho; [|done].
  constructor; [by apply Hdisp|done].
Qed.

(** X20: in every run of the crawler, each URL in the frontier and each
    URL dispatched has a depth that is not negative, the priority
    [max(0, 4 - depth)] (so a level from 0 to 4), the host of its URL,
    and a URL that passes the filter. *)
Theorem X20_enqueued_urls (lib : Library) (cfg : CrawlConfig)
    (seedStamps : nat → Z) (env : nat → WebCrawler.Event)
    (seedUrls : list string) (n : nat) :
  let r := run lib cfg seedStamps env seedUrls n in
  Forall (enqueued_ok lib) (queued (WebCrawler.urlFrontier r.2)) ∧
  Forall (enqueued_ok lib) (omap dispatched r.1).
Proof.
  apply loop_enqueued.
  - by destruct (addSeeds_fields lib seedStamps seedUrls 0
                   (WebCrawler.new cfg)) as (_ & -> & _).
  - apply crawler_ok_addSeeds, crawler_ok_new.
  - apply addSeeds_enqueued; [done|apply wf_new|constructor].
Qed.

Lemma get_absent {K V : Type} `{EqDecision K}
    (m : OrderedMap.t K V) (k : K) :
  k ∉ OrderedMap.keys m → OrderedMap.get k m = None.
Proof.
  rewrite <- has_elem_of_keys. unfold OrderedMap.has.
  by destruct (OrderedMap.get k m).
Qed.




Lemma download_result (lib : Library) (net : HTMLDownloader.Network)
    (timeout : Z) (userAgent u : string) (respectRobots : bool)
    (r : CrawlResult) :
  HTMLDownloader.download lib net timeout userAgent u respectRobots = inr r →
  r_url r = u ∧ links r = [] ∧ 200 ≤ statusCode r ≤ 299 ∧
  hash r = sha256 lib (content r).
Proof.
  unfold HTMLDownloader.download, HTMLDownloader.ok.
  destruct (respectRobots && _); [done|].
  destruct (parseURL lib u) as [urlObj|]; [|done].
  destruct (HTMLDownloader.resolveHost net (hostname urlObj)); [|done].
  destruct (HTMLDownloader.fetch net u userAgent timeout) as [response|];
    [|done].
  destruct (Z.leb_spec 200 (HTMLDownloader.status response)); [|done].
  destruct (Z.leb_spec (HTMLDownloader.status response) 299); [|done].
  simpl. by intros [= <-].
Qed.


Lemma results_addLinks (lib : Library) (u : URLInfo) (stamps : nat → Z)
    (ls : list string) (k : nat) (st : WebCrawler.t) :
  WebCrawler.contentStorage (WebCrawler.addLinks lib u stamps k ls st)
  = WebCrawler.contentStorage st.
Proof. by destruct (addLinks_spec lib u stamps ls k st) as (new & -> & _). Qed.

(** What a turn adds to the results. *)
Lemma turn_results (lib : Library) (ev : WebCrawler.Event)
    (st st' : WebCrawler.t) (o : WebCrawler.Outcome) :
  (∀ x, x ∈ map r_url (results st) → x ∈ visited st) →
  storage_ok (WebCrawler.contentStorage st) →
  turn lib ev st o st' →
  results st' = results st ++ stored_records [o] ∧
  Forall (record_ok lib) (stored_records [o]) ∧
  (∀ x, x ∈ map r_url (results st') → x ∈ visited st').
Proof.
  intros Hsub Hsto Hturn.
  pose proof (turn_visited _ _ _ _ _ Hturn) as Hvis.
  destruct Hturn as [f1 Hget|u f1 Hget _|u f1 e Hget _ _ _
                    |u f1 r Hget _ _ _ _|u f1 r Hget Hnew _ Hdl _ ls];
    simpl in Hvis.
  - rewrite app_nil_r. split_and!; [done|constructor|done].
  - rewrite app_nil_r. split_and!; [done|constructor|done].
  - rewrite app_nil_r. split_and!; [done|constructor|].
    intros x Hx. rewrite Hvis. apply elem_of_add. right. by apply Hsub.
  - rewrite app_nil_r. split_and!; [done|constructor|].
    intros x Hx. rewrite Hvis. apply elem_of_add. right. by apply Hsub.
  - destruct (download_result _ _ _ _ _ _ _ Hdl)
      as (Hurl & Hlinks & Hstatus & Hhash).
    assert (results
              (WebCrawler.addLinks lib u (WebCrawler.stamp ev) 0 ls
                 (WebCrawler.count_page
                    (WebCrawler.mark_visited (url u)
                       (WebCrawler.store_result (WebCrawler.with_links ls r)
                          (WebCrawler.with_frontier f1 st)))))
            = results st ++ [WebCrawler.with_links ls r]) as Hres.
    { unfold results. rewrite results_addLinks. simpl.
      unfold ContentStorage.getAllResults, ContentStorage.store. simpl.
      apply values_set_fresh. apply get_absent.
      rewrite Hurl. intros Hin. apply Hnew, Hsub. unfold results.
      by rewrite urls_of_storage. }
    split_and!.
    + done.
    + repeat constructor; simpl; [lia..|done|by rewrite Hurl].
    + intros x. rewrite Hres, Hvis, map_app, elem_of_app. simpl.
      rewrite Hurl, list_elem_of_singleton, elem_of_add.
      intros [?|?]; auto.
Qed.

Lemma loop_results (lib : Library) (env : nat → WebCrawler.Event)
    (n i : nat) (st : WebCrawler.t) :
  crawler_ok st →
  (∀ x, x ∈ map r_url (results st) → x ∈ visited st) →
  let r := WebCrawler.loop lib env n i st in
  results r.2 = results st ++ stored_records r.1 ∧
  Forall (record_ok lib) (stored_records r.1) ∧
  (∀ x, x ∈ map r_url (results r.2) → x ∈ visited r.2).
Proof.
  revert i st. induction n as [|n IH]; intros i st Hok Hsub; simpl.
  { rewrite app_nil_r. split_and!; [done|constructor|done]. }
  destruct (WebCrawler.running st);
    [|rewrite app_nil_r; split_and!; [done|constructor|done]].
  pose proof (iteration_turn lib (env i) st) as Hturn.
  destruct (WebCrawler.iteration lib (env i) st) as [o st'].
  cbn [fst snd] in Hturn.
  destruct (turn_results _ _ _ _ _ Hsub (proj1 (proj2 (proj2 (proj2 Hok))))
              Hturn) as (Hres & Hrec & Hsub').
  specialize (IH (S i) st' (turn_ok _ _ _ _ _ Hok Hturn) Hsub').
  destruct (WebCrawler.loop lib env n (S i) st') as [os st''].
  cbn [fst snd] in *. destruct IH as (IHres & IHrec & IHsub).
  assert (stored_records (o :: os)
          = stored_records [o] ++ stored_records os) as -> by by destruct o.
  split_and!.
  - by rewrite IHres, Hres, <- app_assoc.
  - apply Forall_app. by split.
  - done.
Qed.



(** X23: in every run of the crawler, every record of the result
    collection has a status from 200 to 299, the SHA-256 of its content
    as hash, and the links the parser extracted from its content with its
    own URL as base. *)
Theorem X23_records_well_formed (lib : Library) (cfg : CrawlConfig)
    (seedStamps : nat → Z) (env : nat → WebCrawler.Event)
    (seedUrls : list string) (n : nat) :
  Forall (record_ok lib) (results (run lib cfg seedStamps env seedUrls n).2).
Proof.
  pose (st0 := WebCrawler.addSeeds lib seedStamps 0 seedUrls
                 (WebCrawler.new cfg)).
  destruct (addSeeds_fields lib seedStamps seedUrls 0 (WebCrawler.new cfg))
    as (_ & _ & _ & _ & Hcs0).
  assert (results st0 = []) as Hres0
    by (unfold results, st0; by rewrite Hcs0).
  destruct (loop_results lib env n 0 st0) as (Hres & Hrec & _).
  { apply crawler_ok_addSeeds, crawler_ok_new. }
  { rewrite Hres0. by intros x ?%elem_of_nil. }
  unfold run. fold st0. rewrite Hres, Hres0. done.
Qed.

(** ** The seeds of a crawl *)






